(** * experiment_iva: the ISR metric and the Monte-Carlo experiment

    A shallow embedding of [experiment_iva.py].  The numerical part
    ([scale_permute], [ISR], [separation_error]) is modelled in exact
    arithmetic: array entries are real or complex numbers, and the only
    departures from field arithmetic are the IEEE-754 special values that
    numpy produces on a division by zero ([inf], [-inf], [nan]), which the
    code lets through.  Rounding, overflow and underflow of float64 are not
    modelled: a value is special here only if it comes from a division by
    an exact zero, and a result on finite values is to be read that way.
    The experiment part ([gen_args], [one_loop], [progress_tracker], the
    aggregation of the main block) is modelled by explicit state passing
    over the random stream, the completion queue and the result tables. *)

From Stdlib Require Import String.
From Stdlib Require Import Reals Lra Lia ZArith Bool Arith List Permutation.
Import ListNotations.

Open Scope R_scope.

(** ** Numbers *)

(** A float64 in exact arithmetic: a real number or one of the IEEE special
    values.  Signed zeros are not distinguished: every zero divisor the code
    can produce is a magnitude or a square, hence [+0]. *)
Inductive npfloat : Type :=
| Fin (x : R)
| PInf
| NInf
| NaN.

Definition is_finite (a : npfloat) : bool :=
  match a with Fin _ => true | _ => false end.

Definition is_nan (a : npfloat) : bool :=
  match a with NaN => true | _ => false end.

Definition Rsign_case {A : Type} (x : R) (neg zero pos : A) : A :=
  if Rlt_dec x 0 then neg else if Rlt_dec 0 x then pos else zero.

Definition fneg (a : npfloat) : npfloat :=
  match a with
  | Fin x => Fin (- x)
  | PInf => NInf
  | NInf => PInf
  | NaN => NaN
  end.

Definition fadd (a b : npfloat) : npfloat :=
  match a, b with
  | NaN, _ | _, NaN => NaN
  | Fin x, Fin y => Fin (x + y)
  | PInf, NInf | NInf, PInf => NaN
  | PInf, _ | _, PInf => PInf
  | NInf, _ | _, NInf => NInf
  end.

Definition fsub (a b : npfloat) : npfloat := fadd a (fneg b).

Definition fmul (a b : npfloat) : npfloat :=
  match a, b with
  | NaN, _ | _, NaN => NaN
  | Fin x, Fin y => Fin (x * y)
  | Fin x, PInf | PInf, Fin x => Rsign_case x NInf NaN PInf
  | Fin x, NInf | NInf, Fin x => Rsign_case x PInf NaN NInf
  | PInf, PInf | NInf, NInf => PInf
  | PInf, NInf | NInf, PInf => NInf
  end.

(** Division never raises in numpy: [x / 0] is [inf], [-inf] or [nan]
    (with a RuntimeWarning only). *)
Definition fdiv (a b : npfloat) : npfloat :=
  match a, b with
  | NaN, _ | _, NaN => NaN
  | Fin x, Fin y =>
      if Req_dec_T y 0 then Rsign_case x NInf NaN PInf else Fin (x / y)
  | Fin _, PInf | Fin _, NInf => Fin 0
  | PInf, Fin y => if Rlt_dec y 0 then NInf else PInf
  | NInf, Fin y => if Rlt_dec y 0 then PInf else NInf
  | _, _ => NaN
  end.

Definition fabs (a : npfloat) : npfloat :=
  match a with
  | Fin x => Fin (Rabs x)
  | PInf | NInf => PInf
  | NaN => NaN
  end.

(** [x ** 2], exact on finite values: the float64 square of a very small
    number underflows to [0.0] and that of a very large one overflows to
    [inf]; neither is modelled. *)
Definition fsquare (a : npfloat) : npfloat := fmul a a.

(** [np.log10] *)
Definition flog10 (a : npfloat) : npfloat :=
  match a with
  | Fin x => Rsign_case x NaN NInf (Fin (ln x / ln 10))
  | PInf => PInf
  | NInf | NaN => NaN
  end.

(** Sum of an array, left to right from [0.0]. *)
Definition fsum (l : list npfloat) : npfloat := fold_left fadd l (Fin 0).

(** [np.mean]: the sum divided by the number of entries; the mean of an
    empty array is [0/0 = nan]. *)
Definition fmean (l : list npfloat) : npfloat :=
  fdiv (fsum l) (Fin (INR (length l))).

(** complex128 entries of the inputs: finite complex numbers. *)
Definition C : Type := (R * R)%type.

Definition C0 : C := (0, 0).
Definition C1 : C := (1, 0).
Definition Cadd (a b : C) : C := (fst a + fst b, snd a + snd b).
Definition Cmul (a b : C) : C :=
  (fst a * fst b - snd a * snd b, fst a * snd b + snd a * fst b).
(** [np.abs] of a complex number *)
Definition Cabs (a : C) : R := sqrt (fst a * fst a + snd a * snd a).

(** complex128 entries after the in-place division: each component may have
    become a special value. *)
Definition zfloat : Type := (npfloat * npfloat)%type.

(** [z / s] for a complex [z] and a real array entry [s >= 0]: numpy casts
    [s] to [s + 0j]; its complex division then yields [(re / s, im / s)],
    also when [s = 0].  For [s > 0] the quotient is exact: the overflow of
    a float64 quotient (a large numerator over a tiny divisor gives [inf])
    is not modelled. *)
Definition zdiv (z : C) (s : R) : zfloat :=
  (fdiv (Fin (fst z)) (Fin s), fdiv (Fin (snd z)) (Fin s)).

(** [np.abs] of a complex128: [hypot (re, im)]. *)
Definition zabs (z : zfloat) : npfloat :=
  match z with
  | (Fin x, Fin y) => Fin (sqrt (x * x + y * y))
  | (PInf, _) | (NInf, _) | (_, PInf) | (_, NInf) => PInf
  | _ => NaN
  end.

Definition znan : zfloat := (NaN, NaN).

(** ** Errors *)

Inductive exn : Type :=
| ValueError (msg : string)
| KeyError (key : string)
| AlgorithmError (msg : string).

Inductive result (A : Type) : Type :=
| Ok (a : A)
| Raise (e : exn).
Arguments Ok {A} a.
Arguments Raise {A} e.

Definition bind {A B : Type} (m : result A) (k : A -> result B) : result B :=
  match m with
  | Ok a => k a
  | Raise e => Raise e
  end.

Notation "x <- m ;; k" := (bind m (fun x => k))
  (at level 61, m at next level, right associativity).

(** ** Arrays *)

Abbreviation matrix := (list (list C)).
Abbreviation tensor := (list (list (list C))).
Abbreviation fmatrix := (list (list npfloat)).
Abbreviation ztensor := (list (list (list zfloat))).

(** An array of shape (F, n, m). *)
Definition has_shape {A : Type} (F n m : nat) (X : list (list (list A))) : Prop :=
  length X = F /\
  Forall (fun M => length M = n /\ Forall (fun row => length row = m) M) X.

Definition dot (u v : list C) : C :=
  fold_right (fun p acc => Cadd (Cmul (fst p) (snd p)) acc) C0 (combine u v).

Definition column (k : nat) (M : matrix) : list C :=
  map (fun row => nth k row C0) M.

Definition ncols {A : Type} (M : list (list A)) : nat :=
  match M with
  | [] => 0%nat
  | row :: _ => length row
  end.

Definition matmul2 (X Y : matrix) : matrix :=
  map (fun xr => map (fun k => dot xr (column k Y)) (seq 0 (ncols Y))) X.

(** [W @ A] on stacks of matrices: one matrix product per frequency bin. *)
Definition matmul (W A : tensor) : tensor :=
  map (fun p => matmul2 (fst p) (snd p)) (combine W A).

(** [np.eye(n)[i, k]] *)
Definition eye (i k : nat) : npfloat := if Nat.eqb i k then Fin 1 else Fin 0.

(** [np.array([np.eye(n) for f in range(F)])] as a complex array *)
Definition eye_tensor (F n : nat) : tensor :=
  map (fun _ => map (fun i => map (fun k => if Nat.eqb i k then C1 else C0)
                                  (seq 0 n)) (seq 0 n)) (seq 0 F).

(** ** The assignment solver *)

Definition entry (M : fmatrix) (i j : nat) : npfloat := nth j (nth i M []) NaN.

Definition toR (a : npfloat) : R :=
  match a with Fin x => x | _ => 0 end.

(** Total cost of assigning column [sigma[i]] to row [i]. *)
Definition assignment_cost (M : fmatrix) (sigma : list nat) : R :=
  fold_right Rplus 0
    (map (fun p => toR (entry M (fst p) (snd p)))
         (combine (seq 0 (length sigma)) sigma)).

(** All orderings of [l], [k] being its length; for an increasing [l] they
    come out in lexicographic order. *)
Fixpoint perms_of (k : nat) (l : list nat) : list (list nat) :=
  match k with
  | O => [[]]
  | S k' => flat_map (fun x => map (cons x) (perms_of k' (remove Nat.eq_dec x l))) l
  end.

Definition permutations (n : nat) : list (list nat) := perms_of n (seq 0 n).

(** The first element of [best :: l] whose cost is minimal. *)
Fixpoint argmin_first (cost : list nat -> R) (best : list nat)
         (l : list (list nat)) : list nat :=
  match l with
  | [] => best
  | s :: l' =>
      if Rlt_dec (cost s) (cost best) then argmin_first cost s l'
      else argmin_first cost best l'
  end.

(** Modelled from the spec: [scipy.optimize.linear_sum_assignment] is a
    library routine whose code is not part of the repository.  Following the
    specification it returns an assignment of minimal total cost, the
    lexicographically first one when several are minimal, and fails on a
    degenerate cost matrix (one with a non-finite entry).  The cost matrix is
    square here; the row indices come back as [0 .. n-1]. *)
Definition linear_sum_assignment (M : fmatrix) : result (list nat * list nat) :=
  let n := length M in
  if forallb (forallb is_finite) M then
    Ok (seq 0 n, argmin_first (assignment_cost M) (seq 0 n) (permutations n))
  else Raise (ValueError "matrix contains invalid numeric entries").

(** ** scale_permute *)

(** [np.max(np.abs(row))] of a non-empty row. *)
Definition row_max (row : list C) : R := fold_right Rmax 0 (map Cabs row).

(** [np.max(np.abs(P), axis=-1, keepdims=True)] *)
Definition max_abs (P : tensor) : list (list R) := map (map row_max) P.

(** [X /= scale], the scale being broadcast along the last axis. *)
Definition div_scale (X : tensor) (scale : list (list R)) : ztensor :=
  map (fun p =>
         map (fun q => map (fun z => zdiv z (snd q)) (fst q))
             (combine (fst p) (snd p)))
      (combine X scale).

(** [X.shape[-1]] and [X.shape[1]] of a non-empty array *)
Definition last_dim {A : Type} (X : list (list (list A))) : nat := ncols (hd [] X).
Definition n_rows {A : Type} (X : list (list (list A))) : nat := length (hd [] X).

Definition zentry (P : ztensor) (f j k : nat) : zfloat :=
  nth k (nth j (nth f P []) []) znan.

(** [np.mean(np.abs(eye[None, :, None, :] - np.abs(P[:, None, :, :])) ** 2,
             axis=(0, 3))]: entry [(i, j)] averages over every frequency bin
    [f] and every column [k] the squared deviation of [|P[f, j, k]|] from
    [eye[i, k]]. *)
Definition err_mat (n : nat) (P : ztensor) : fmatrix :=
  map (fun i =>
         map (fun j =>
                fmean (flat_map
                         (fun Pf =>
                            map (fun k =>
                                   fsquare (fabs (fsub (eye i k)
                                                       (zabs (nth k (nth j Pf []) znan)))))
                                (seq 0 n))
                         P))
             (seq 0 (n_rows P)))
      (seq 0 n).

(** [X[:, perm, :]] *)
Definition take_rows {A : Type} (perm : list nat) (X : list (list (list A)))
  : list (list (list A)) :=
  map (fun Xf => map (fun j => nth j Xf []) perm) X.

Definition scale_permute (W A : tensor) : result (ztensor * ztensor) :=
  let n := last_dim W in
  let P := matmul W A in
  (* W = W.copy() *)
  (* fix the scale by setting the largest element in each row to 1 *)
  let scale := max_abs P in
  let W1 := div_scale W scale in
  let P1 := div_scale P scale in
  (* now find the permutation *)
  rc <- linear_sum_assignment (err_mat n P1) ;;
  let perm := snd rc in
  (* fix the permutation *)
  Ok (take_rows perm W1, take_rows perm P1).

(** ** ISR *)

Fixpoint list_set {A : Type} (l : list A) (k : nat) (v : A) : list A :=
  match l, k with
  | [], _ => []
  | _ :: l', O => v :: l'
  | x :: l', S k' => x :: list_set l' k' v
  end.

(** [X[:, r, c]] *)
Definition slice (P : ztensor) (r c : nat) : list zfloat :=
  map (fun Pf => nth c (nth r Pf []) znan) P.

(** [isr[:, r, c] = vals] *)
Fixpoint set_slice (isr : list fmatrix) (r c : nat) (vals : list npfloat)
  : list fmatrix :=
  match isr, vals with
  | M :: isr', v :: vals' =>
      list_set M r (list_set (nth r M []) c v) :: set_slice isr' r c vals'
  | _, _ => isr
  end.

(** [np.abs(num) ** 2 / np.abs(den) ** 2], elementwise *)
Definition ratio (num den : list zfloat) : list npfloat :=
  map (fun p => fdiv (fsquare (zabs (fst p))) (fsquare (zabs (snd p))))
      (combine num den).

(** [np.zeros(X.shape)] *)
Definition zeros_like {A : Type} (X : list (list (list A))) : list fmatrix :=
  map (map (map (fun _ => Fin 0))) X.

(** The double loop of [ISR] filling the off-diagonal entries. *)
Definition isr_fill (n_chan : nat) (P : ztensor) (isr0 : list fmatrix)
  : list fmatrix :=
  fold_left
    (fun isr r =>
       fold_left
         (fun isr c =>
            if Nat.eqb r c then isr
            else set_slice isr r c (ratio (slice P r c) (slice P r r)))
         (seq 0 n_chan) isr)
    (seq 0 n_chan) isr0.

Definition ISR (W A : tensor) : result npfloat :=
  let n_chan := n_rows W in
  (* restore scale and permutation *)
  WP <- scale_permute W A ;;
  let W' := fst WP in
  let P := snd WP in
  let isr := isr_fill n_chan P (zeros_like W') in
  Ok (fmul (Fin 10) (flog10 (fmean (concat (concat isr))))).

(** ** Interfaces of the libraries the script drives *)

(** [np.random] (a process-wide generator), [np.linalg.slogdet]. *)
Class Numpy : Type := {
  rng : Type;
  (** [np.random.seed(s)]: the state after seeding *)
  np_random_seed : Z -> rng;
  (** [np.random.randint(high)] *)
  np_random_randint : Z -> rng -> Z * rng;
  (** [np.random.shuffle(l)]: reorders [l] *)
  np_random_shuffle : forall {A : Type}, list A -> rng -> list A * rng;
  np_random_shuffle_perm :
    forall (A : Type) (l : list A) (g : rng),
      Permutation l (fst (np_random_shuffle l g));
  (** the log-absolute-determinant component of [np.linalg.slogdet] *)
  np_linalg_slogdet : matrix -> npfloat
}.

(** What a separation routine does, as seen from the caller: the arguments
    [(Y, demix)] it hands to the callback, checkpoint after checkpoint, and
    how it ends. *)
Record algo_run : Type := {
  calls : list (tensor * tensor);
  outcome : result (tensor * tensor)
}.

Record algo_spec : Type := {
  algo : string;
  n_iter : Z;
  other_kwargs : list (string * R)
}.

Abbreviation dict V := (list (string * V)).

(** What [one_loop] returns: [(param_index, isr, cost)]. *)
Abbreviation trial_result := (nat * dict (list npfloat) * dict (list npfloat))%type.

(** One entry of [isr_tables] or [cost_tables]: algorithm name to rows. *)
Abbreviation table := (dict (list (list npfloat))).

Fixpoint dict_get {V : Type} (d : dict V) (k : string) : result V :=
  match d with
  | [] => Raise (KeyError k)
  | (k', v) :: d' => if String.eqb k k' then Ok v else dict_get d' k
  end.

Fixpoint dict_set {V : Type} (d : dict V) (k : string) (v : V) : dict V :=
  match d with
  | [] => [(k, v)]
  | (k', v') :: d' =>
      if String.eqb k k' then (k', v) :: d' else (k', v') :: dict_set d' k v
  end.

(** The [bss] package. *)
Class Bss `{Numpy} : Type := {
  (** [bss.random.rand_mixture(n_freq, n_chan, n_frames, distrib=..)],
      drawing from the process-wide generator: [(mix, ref, mix_mat)] *)
  bss_rand_mixture : nat -> nat -> nat -> string -> rng -> tensor * tensor * tensor;
  (** [bss.pca(X, return_filters=True)] *)
  bss_pca : tensor -> tensor * tensor;
  bss_is_dual_update : dict bool;
  (** [bss.algos[name](Y, model=.., callback_checkpoints=.., **kwargs)] *)
  bss_algos : dict (tensor -> string -> list Z -> algo_spec -> algo_run)
}.

(** ** Tasks *)

(** One entry of [config["params"]]. *)
Record scenario : Type := {
  p_n_freq : nat;
  p_n_chan : nat;
  p_pca : bool
}.

(** The argument tuple of [one_loop]. *)
Record args : Type := {
  param_index : nat;
  n_freq : nat;
  n_chan : nat;
  use_pca : bool;
  n_frames : nat;
  distrib : string;
  algos : dict algo_spec;
  seed : Z;
  queue : nat
}.

(** [enumerate(l)] *)
Definition enumerate {A : Type} (l : list A) : list (nat * A) :=
  combine (seq 0 (length l)) l.

Section Experiment.
Context `{B : Bss}.

(** The tuple appended by [gen_args] for parameter set [ip = (i, p)] and a
    drawn [seed]. *)
Definition mk_args (frames : nat) (dist : string) (algs : dict algo_spec) (q : nat)
           (ip : nat * scenario) (s : Z) : args :=
  {| param_index := fst ip;
     n_freq := p_n_freq (snd ip);
     n_chan := p_n_chan (snd ip);
     use_pca := p_pca (snd ip);
     n_frames := frames;
     distrib := dist;
     algos := algs;
     seed := s;
     queue := q |}.

(** One pass of the inner loop: draw a seed, append the tuple.  The state
    is [(args, generator)]. *)
Definition gen_args_step (frames : nat) (dist : string) (algs : dict algo_spec)
           (q : nat) (ip : nat * scenario) (st : list args * rng) (_ : nat)
  : list args * rng :=
  let (s, g') := np_random_randint (2 ^ 32) (snd st) in
  (fst st ++ [mk_args frames dist algs q ip s], g').

Definition gen_args (master_seed : Z) (n_repeat : nat) (params : list scenario)
           (frames : nat) (dist : string) (algs : dict algo_spec) (q : nat)
           (g : rng) : list args * rng :=
  let g0 := np_random_seed master_seed in
  fold_left
    (fun st ip => fold_left (gen_args_step frames dist algs q ip) (seq 0 n_repeat) st)
    (enumerate params) ([], g0).

(** [np.arange(start, stop, step)] for a positive step *)
Definition arange (start stop step : Z) : list Z :=
  map (fun k => (start + Z.of_nat k * step)%Z)
      (seq 0 (Z.to_nat ((stop - start + step - 1) / step))).

Definition callback_checkpoints (dual : bool) (iters : Z) : list Z :=
  if dual then arange 2 (iters + 1) 2 else arange 1 (iters + 1) 1.

(** [X.transpose([2, 0, 1])] *)
Definition transpose_201 (X : tensor) : tensor :=
  map (fun t => map (fun Xf => map (fun row => nth t row C0) Xf) X)
      (seq 0 (last_dim X)).

(** [np.sum(np.linalg.norm(Y, axis=1))] for [Y] of shape (frames, freq, chan) *)
Definition sum_norms (Y : tensor) : R :=
  fold_right Rplus 0
    (flat_map
       (fun Yt => map (fun c =>
                         sqrt (fold_right Rplus 0
                                 (map (fun row => let z := nth c row C0 in
                                                  fst z * fst z + snd z * snd z) Yt)))
                      (seq 0 (ncols Yt)))
       Y).

Definition cost_value (Y loc_demix : tensor) : npfloat :=
  fsub (Fin (sum_norms Y))
       (fmul (Fin (2 * INR (length Y))) (fsum (map np_linalg_slogdet loc_demix))).

(** The closure [callback] of [one_loop]; the state is
    [(isr_list, cost_list)]. *)
Definition callback (demix_init mix_mat : tensor)
           (st : list npfloat * list npfloat) (Y loc_demix : tensor)
  : result (list npfloat * list npfloat) :=
  v <- ISR (matmul loc_demix demix_init) mix_mat ;;
  Ok (fst st ++ [v], snd st ++ [cost_value Y loc_demix]).

Fixpoint run_callbacks (demix_init mix_mat : tensor)
         (st : list npfloat * list npfloat) (cs : list (tensor * tensor))
  : result (list npfloat * list npfloat) :=
  match cs with
  | [] => Ok st
  | (Y, D) :: cs' =>
      st' <- callback demix_init mix_mat st Y D ;;
      run_callbacks demix_init mix_mat st' cs'
  end.

(** The body of the loop over [algos.items()], for one algorithm. *)
Definition run_algo (a : args) (mix Y_init demix_init mix_mat eye_ : tensor)
           (pmt : algo_spec) : result (list npfloat * list npfloat) :=
  let algo_name := algo pmt in
  dual <- dict_get bss_is_dual_update algo_name ;;
  let cps := callback_checkpoints dual (n_iter pmt) in
  (* ISR of mixture *)
  st0 <- callback demix_init mix_mat ([], []) (transpose_201 mix) eye_ ;;
  (* separate with IVA *)
  f <- dict_get bss_algos algo_name ;;
  let run := f Y_init (distrib a) cps pmt in
  st1 <- run_callbacks demix_init mix_mat st0 (calls run) ;;
  _ <- outcome run ;;
  Ok st1.

Fixpoint run_algos (a : args) (mix Y_init demix_init mix_mat eye_ : tensor)
         (items : dict algo_spec) (isr cost : dict (list npfloat))
  : result (dict (list npfloat) * dict (list npfloat)) :=
  match items with
  | [] => Ok (isr, cost)
  | (name, pmt) :: items' =>
      st <- run_algo a mix Y_init demix_init mix_mat eye_ pmt ;;
      run_algos a mix Y_init demix_init mix_mat eye_ items'
                (dict_set isr name (fst st)) (dict_set cost name (snd st))
  end.

(** The initial separation state: [(Y_init, demix_init)]. *)
Definition init_state (a : args) (mix eye_ : tensor) : tensor * tensor :=
  if use_pca a then bss_pca (transpose_201 mix)
  else (transpose_201 mix, eye_).

(** [one_loop], on the current content of the completion queue. *)
Definition one_loop (a : args) (q : list bool) : result trial_result * list bool :=
  let g := np_random_seed (seed a) in
  let eye_ := eye_tensor (n_freq a) (n_chan a) in
  let '(mix, _, mix_mat) :=
    bss_rand_mixture (n_freq a) (n_chan a) (n_frames a) (distrib a) g in
  let (Y_init, demix_init) := init_state a mix eye_ in
  match run_algos a mix Y_init demix_init mix_mat eye_ (algos a) [] [] with
  | Ok (isr, cost) =>
      (* push something to indicate that we are done *)
      (Ok (param_index a, isr, cost), q ++ [true])
  | Raise e => (Raise e, q)
  end.

(** ** Progress tracker *)

Inductive tracker_state : Type :=
| AllDone (printed : list nat)
| Waiting (remaining : nat) (printed : list nat).

(** [progress_tracker] reading from a queue that holds the signals [q] and
    receives no more: it prints the remaining count after each signal and
    blocks in [queue.get] once [q] is used up. *)
Fixpoint tracker_loop (n_tasks : nat) (q : list bool) (printed : list nat)
  : tracker_state :=
  match n_tasks with
  | O => AllDone printed
  | S k =>
      match q with
      | [] => Waiting n_tasks printed
      | _ :: q' => tracker_loop k q' (printed ++ [k])
      end
  end.

Definition progress_tracker (n_tasks : nat) (q : list bool) : tracker_state :=
  tracker_loop n_tasks q [n_tasks].

(** ** Driver *)

(** The workers, one task after the other; the queue collects their
    signals.  Every task is run here, which bounds the number of signals
    from above: in the pool a task that raises can in addition keep the
    later tasks of its chunk from running. *)
Fixpoint run_tasks (l : list args) (q : list bool)
  : list (result trial_result) * list bool :=
  match l with
  | [] => ([], q)
  | a :: l' =>
      let (r, q1) := one_loop a q in
      let (rs, q2) := run_tasks l' q1 in
      (r :: rs, q2)
  end.

(** [pool.map]: the results in the order of the task list, or the first
    error. *)
Fixpoint collect {A : Type} (rs : list (result A)) : result (list A) :=
  match rs with
  | [] => Ok []
  | r :: rs' => x <- r ;; xs <- collect rs' ;; Ok (x :: xs)
  end.

(** [dict(zip(config["algos"], [[] for a in config["algos"]]))] *)
Definition empty_table (algs : dict algo_spec) : table :=
  fold_left (fun d k => dict_set d k []) (map fst algs) [].

Definition list_get {A : Type} (l : list A) (k : nat) : result A :=
  match nth_error l k with
  | Some x => Ok x
  | None => Raise (ValueError "list index out of range")
  end.

(** [tables[pi][algo].append(d[algo])] *)
Definition table_append (tables : list table) (pi : nat) (name : string)
           (d : dict (list npfloat)) : result (list table) :=
  t <- list_get tables pi ;;
  rows <- dict_get t name ;;
  row <- dict_get d name ;;
  Ok (list_set tables pi (dict_set t name (rows ++ [row]))).

Fixpoint distribute_one (names : list string) (res : trial_result)
         (tabs : list table * list table) : result (list table * list table) :=
  match names with
  | [] => Ok tabs
  | name :: names' =>
      let '(pi, isr, cost) := res in
      it <- table_append (fst tabs) pi name isr ;;
      ct <- table_append (snd tabs) pi name cost ;;
      distribute_one names' res (it, ct)
  end.

Fixpoint distribute (names : list string) (results : list trial_result)
         (tabs : list table * list table) : result (list table * list table) :=
  match results with
  | [] => Ok tabs
  | res :: results' =>
      tabs' <- distribute_one names res tabs ;;
      distribute names results' tabs'
  end.

(** The main block up to the tables: generate, shuffle, run, aggregate.
    Returns the tables and the final content of the queue. *)
Definition experiment (master_seed : Z) (n_repeat : nat) (params : list scenario)
           (frames : nat) (dist : string) (algs : dict algo_spec) (g : rng)
  : result (list table * list table) * list bool :=
  let (tasks, g1) := gen_args master_seed n_repeat params frames dist algs 0%nat g in
  let (shuffled, _) := np_random_shuffle tasks g1 in
  let (rs, q) := run_tasks shuffled [] in
  (results <- collect rs ;;
   distribute (map fst algs) results
              (map (fun _ => empty_table algs) params,
               map (fun _ => empty_table algs) params),
   q).

End Experiment.

(** ** The metric on arrays in memory

    numpy arrays are mutable objects passed by reference.  To state what
    [scale_permute] and [ISR] do to the arrays they are given, the same two
    functions are written once more over a store of arrays: every
    expression that builds an array allocates, the augmented assignments
    [W /= scale] and [P /= scale] and the slice assignment
    [isr[:, r, c] = ..] write in place. *)

Inductive ndarray : Type :=
| ACplx (X : tensor)
| AZ (X : ztensor)
| AReal (S : list (list R))
| AFloat (X : list fmatrix).

Definition heap : Type := list ndarray.
Definition ref : Type := nat.

Definition Mem (A : Type) : Type := heap -> result A * heap.

Definition ret {A : Type} (a : A) : Mem A := fun h => (Ok a, h).

Definition bindM {A B : Type} (m : Mem A) (k : A -> Mem B) : Mem B :=
  fun h => match m h with
           | (Ok a, h') => k a h'
           | (Raise e, h') => (Raise e, h')
           end.

Notation "x <~ m ;; k" := (bindM m (fun x => k))
  (at level 61, m at next level, right associativity).

Definition lift {A : Type} (r : result A) : Mem A := fun h => (r, h).

Definition alloc (v : ndarray) : Mem ref := fun h => (Ok (length h), h ++ [v]).

Definition type_error {A : Type} : Mem A :=
  lift (Raise (ValueError "unexpected array type")).

Definition read (r : ref) : Mem ndarray :=
  fun h => match nth_error h r with
           | Some v => (Ok v, h)
           | None => (Raise (ValueError "dangling reference"), h)
           end.

Definition write (r : ref) (v : ndarray) : Mem unit :=
  fun h => (Ok tt, list_set h r v).

Definition read_cplx (r : ref) : Mem tensor :=
  v <~ read r ;; match v with ACplx X => ret X | _ => type_error end.

Definition read_z (r : ref) : Mem ztensor :=
  v <~ read r ;; match v with AZ X => ret X | _ => type_error end.

Definition read_real (r : ref) : Mem (list (list R)) :=
  v <~ read r ;; match v with AReal X => ret X | _ => type_error end.

Definition read_float (r : ref) : Mem (list fmatrix) :=
  v <~ read r ;; match v with AFloat X => ret X | _ => type_error end.

Fixpoint for_each {A : Type} (l : list A) (body : A -> Mem unit) : Mem unit :=
  match l with
  | [] => ret tt
  | x :: l' => _ <~ body x ;; for_each l' body
  end.

Definition scale_permute_mem (W A : ref) : Mem (ref * ref) :=
  w <~ read_cplx W ;;
  a <~ read_cplx A ;;
  (* eye = np.eye(W.shape[-1]): a constant, kept out of the store like the
     temporaries np.abs(P) and err_mat *)
  let n := last_dim w in
  (* P = W @ A *)
  P <~ alloc (ACplx (matmul w a)) ;;
  (* W = W.copy(): from here on the name W denotes the copy *)
  W1 <~ alloc (ACplx w) ;;
  (* scale = np.max(np.abs(P), axis=-1, keepdims=True) *)
  p <~ read_cplx P ;;
  scale <~ alloc (AReal (max_abs p)) ;;
  (* W /= scale *)
  s <~ read_real scale ;;
  w1 <~ read_cplx W1 ;;
  _ <~ write W1 (AZ (div_scale w1 s)) ;;
  (* P /= scale *)
  p <~ read_cplx P ;;
  _ <~ write P (AZ (div_scale p s)) ;;
  (* err_mat, linear_sum_assignment *)
  p1 <~ read_z P ;;
  rc <~ lift (linear_sum_assignment (err_mat n p1)) ;;
  let perm := snd rc in
  (* W = W[:, perm, :]; P = P[:, perm, :]: indexing with a list copies *)
  w1 <~ read_z W1 ;;
  W2 <~ alloc (AZ (take_rows perm w1)) ;;
  p1 <~ read_z P ;;
  P2 <~ alloc (AZ (take_rows perm p1)) ;;
  ret (W2, P2).

Definition ISR_mem (W A : ref) : Mem npfloat :=
  w <~ read_cplx W ;;
  let n_chan := n_rows w in
  WP <~ scale_permute_mem W A ;;
  let (W2, P2) := WP : ref * ref in
  w2 <~ read_z W2 ;;
  isr <~ alloc (AFloat (zeros_like w2)) ;;
  _ <~ for_each (seq 0 n_chan) (fun r =>
         for_each (seq 0 n_chan) (fun c =>
           if Nat.eqb r c then ret tt
           else
             p <~ read_z P2 ;;
             x <~ read_float isr ;;
             write isr (AFloat (set_slice x r c (ratio (slice p r c) (slice p r r)))))) ;;
  x <~ read_float isr ;;
  ret (fmul (Fin 10) (flog10 (fmean (concat (concat x))))).

(** The cells of [h] are still there, unchanged, in [h']. *)
Definition unchanged (h h' : heap) : Prop :=
  (length h <= length h')%nat /\
  forall k, (k < length h)%nat -> nth_error h' k = nth_error h k.

(** ** Auxiliary definitions used to state the results *)

Definition shape2 {A : Type} (n m : nat) (M : list (list A)) : Prop :=
  length M = n /\ Forall (fun row => length row = m) M.

(** Entry [(r, c)] of the ratio array for one frequency bin:
    [|P[r, c]|^2 / |P[r, r]|^2]. *)
Definition ratio_entry (Pf : list (list zfloat)) (r c : nat) : npfloat :=
  fdiv (fsquare (zabs (nth c (nth r Pf []) znan)))
       (fsquare (zabs (nth r (nth r Pf []) znan))).

(** The two loops of [ISR] seen on one frequency bin, then on one row. *)
Definition fill_row (Pf : list (list zfloat)) (r : nat) (cs : list nat)
           (row : list npfloat) : list npfloat :=
  fold_left (fun row c => if Nat.eqb r c then row
                          else list_set row c (ratio_entry Pf r c))
            cs row.

Definition fill_mat_inner (Pf : list (list zfloat)) (r : nat) (cs : list nat)
           (M : fmatrix) : fmatrix :=
  fold_left (fun M c => if Nat.eqb r c then M
                        else list_set M r (list_set (nth r M []) c (ratio_entry Pf r c)))
            cs M.

Definition fill_mat (n : nat) (Pf : list (list zfloat)) (M : fmatrix) : fmatrix :=
  fold_left (fun M r => fill_mat_inner Pf r (seq 0 n) M) (seq 0 n) M.

(** The ratio array of one frequency bin, written directly. *)
Definition isr_matrix (n : nat) (Pf : list (list zfloat)) : fmatrix :=
  map (fun r => map (fun c => if Nat.eqb r c then Fin 0 else ratio_entry Pf r c)
                    (seq 0 n)) (seq 0 n).

Definition zero_matrix (n m : nat) : fmatrix := repeat (repeat (Fin 0) m) n.

(** The off-diagonal channel pairs [(r, c)], [r <> c]. *)
Definition offdiag_pairs (n : nat) : list (nat * nat) :=
  filter (fun rc => negb (Nat.eqb (fst rc) (snd rc))) (list_prod (seq 0 n) (seq 0 n)).

(** Sum of the leakage-to-target ratios over every off-diagonal channel
    pair of every frequency bin. *)
Definition leakage_sum (n : nat) (P : ztensor) : npfloat :=
  fsum (flat_map (fun Pf => map (fun rc => ratio_entry Pf (fst rc) (snd rc))
                                (offdiag_pairs n)) P).

(** [10 * log10 (total / count)] *)
Definition to_db (total : npfloat) (count : nat) : npfloat :=
  fmul (Fin 10) (flog10 (fdiv total (Fin (INR count)))).

(** What [ISR] computes from the corrected product [P]: the sum over the
    off-diagonal pairs divided by the size [F * n * n] of the whole array. *)
Definition isr_db (F n : nat) (P : ztensor) : npfloat :=
  to_db (leakage_sum n P) (F * n * n).

(** The value the specification describes: the average over the
    off-diagonal pairs and the frequency bins alone, [F * n * (n - 1)]
    terms. *)
Definition offdiag_mean_db (F n : nat) (P : ztensor) : npfloat :=
  to_db (leakage_sum n P) (F * n * (n - 1)).

(** Values a squared magnitude, a ratio of such, or a sum of ratios can
    take: a non-negative real, [inf] or [nan]. *)
Definition nonneg_or_special (x : npfloat) : Prop :=
  match x with
  | Fin v => 0 <= v
  | PInf | NaN => True
  | NInf => False
  end.

Definition inf_or_nan (x : npfloat) : Prop := x = PInf \/ x = NaN.

(** [X[f, r, k]] of a complex array *)
Definition centry (X : tensor) (f r k : nat) : C :=
  nth k (nth r (nth f X []) []) C0.

Definition zfinite (z : zfloat) : bool := is_finite (fst z) && is_finite (snd z).

(** The first [k] values [np.random.randint(2 ** 32)] returns from state
    [g], and the state after them. *)
Fixpoint draws `{Numpy} (k : nat) (g : rng) : list Z :=
  match k with
  | O => []
  | S k' => fst (np_random_randint (2 ^ 32) g)
            :: draws k' (snd (np_random_randint (2 ^ 32) g))
  end.

Fixpoint advance `{Numpy} (k : nat) (g : rng) : rng :=
  match k with
  | O => g
  | S k' => advance k' (snd (np_random_randint (2 ^ 32) g))
  end.

Definition is_ok {A : Type} (r : result A) : bool :=
  match r with Ok _ => true | Raise _ => false end.

(** The task list [gen_args] builds for the parameter sets [ips] from
    generator state [g]: [n_repeat] tuples per parameter set, in order. *)
Fixpoint tasks_of `{Numpy} (frames : nat) (dist : string) (algs : dict algo_spec)
         (q n_repeat : nat) (ips : list (nat * scenario)) (g : rng) : list args :=
  match ips with
  | [] => []
  | ip :: ips' =>
      map (mk_args frames dist algs q ip) (draws n_repeat g)
      ++ tasks_of frames dist algs q n_repeat ips' (advance n_repeat g)
  end.

(** The outcome of a task, whatever the queue holds. *)
Definition trial `{Bss} (a : args) : result trial_result := fst (one_loop a []).

Definition pi_of (res : trial_result) : nat := fst (fst res).
Definition isr_of (res : trial_result) : dict (list npfloat) := snd (fst res).
Definition cost_of (res : trial_result) : dict (list npfloat) := snd res.

(** [tables[i][name]] *)
Definition cell (tables : list table) (i : nat) (name : string)
  : result (list (list npfloat)) :=
  dict_get (nth i tables []) name.

Definition has_key {V : Type} (d : dict V) (k : string) : Prop :=
  exists v, dict_get d k = Ok v.

(** [d[k]] when the key is there *)
Definition dict_val {V : Type} (d : dict (list V)) (k : string) : list V :=
  match dict_get d k with Ok v => v | Raise _ => [] end.

Definition mem_string (k : string) (l : list string) : bool :=
  existsb (String.eqb k) l.


(** [after] is [before] with one row appended to every cell [(pi, name)],
    [name] among [names]: the row [d[name]]. *)
Definition appended (before : list table) (pi : nat) (names : list string)
           (d : dict (list npfloat)) (after : list table) : Prop :=
  length after = length before /\
  forall i name,
    cell after i name =
    if Nat.eqb i pi && mem_string name names
    then match cell before i name with
         | Ok rows => Ok (rows ++ [dict_val d name])
         | Raise e => Raise e
         end
    else cell before i name.


(** Every cell [(i, name)], [i < n], [name] among [names], is there. *)
Definition cells_exist (n : nat) (names : list string) (T : list table) : Prop :=
  length T = n /\
  forall i name, (i < n)%nat -> In name names -> has_key (nth i T []) name.

Definition good_result (n : nat) (names : list string) (res : trial_result) : Prop :=
  (pi_of res < n)%nat /\
  forall name, In name names ->
               has_key (isr_of res) name /\ has_key (cost_of res) name.

(** The rows a cell receives from the results, in their order. *)
Definition rows_of (proj : trial_result -> dict (list npfloat)) (i : nat)
           (name : string) (results : list trial_result) : list (list npfloat) :=
  map (fun res => dict_val (proj res) name)
      (filter (fun res => Nat.eqb (pi_of res) i) results).

(** [m], started on a heap with at least [n] cells, leaves the first [n]
    cells as they are, and any value it returns satisfies [Q]. *)
Definition preserves {A : Type} (n : nat) (m : Mem A) (Q : A -> Prop) : Prop :=
  forall h, (n <= length h)%nat ->
            (n <= length (snd (m h)))%nat /\
            (forall k, (k < n)%nat -> nth_error (snd (m h)) k = nth_error h k) /\
            (forall a, fst (m h) = Ok a -> Q a).

(** [D] applied to [pi] applied to [W]: row [r] of frequency bin [f] is
    row [pi[r]] of [W[f]] multiplied by the complex number [D[f][r]]. *)
Definition apply_scale_perm (D : list (list C)) (pi : list nat) (W : tensor) : tensor :=
  map (fun p =>
         map (fun q => map (Cmul (fst q)) (snd q))
             (combine (fst p) (map (fun j => nth j (snd p) []) pi)))
      (combine D W).

(** The cost matrix has exactly one assignment of minimal total cost. *)
Definition unique_optimum (M : fmatrix) : Prop :=
  exists sigma,
    In sigma (permutations (length M)) /\
    forall tau, In tau (permutations (length M)) -> tau <> sigma ->
                assignment_cost M sigma < assignment_cost M tau.

(** Magnitudes of a row of the product after the division by its largest
    magnitude. *)
Definition abs_row (row : list C) : list npfloat :=
  map (fun z => zabs (zdiv z (row_max row))) row.

Definition row_product (Y : matrix) (xr : list C) : list C :=
  map (fun k => dot xr (column k Y)) (seq 0 (ncols Y)).

(** Magnitudes of the scale-corrected product [W @ A]. *)
Definition abs_product (W A : tensor) : list fmatrix :=
  map (fun p => map (fun xr => abs_row (row_product (snd p) xr)) (fst p)) (combine W A).

(** [err_mat] and the sum of ratios read off the magnitudes. *)
Definition err_mat_abs (n : nat) (M : list fmatrix) : fmatrix :=
  map (fun i =>
         map (fun j =>
                fmean (flat_map
                         (fun Mf =>
                            map (fun k =>
                                   fsquare (fabs (fsub (eye i k)
                                                       (nth k (nth j Mf []) NaN))))
                                (seq 0 n))
                         M))
             (seq 0 (n_rows M)))
      (seq 0 n).

Definition ratio_entry_abs (Mf : fmatrix) (r c : nat) : npfloat :=
  fdiv (fsquare (nth c (nth r Mf []) NaN)) (fsquare (nth r (nth r Mf []) NaN)).

Definition leakage_sum_abs (n : nat) (M : list fmatrix) : npfloat :=
  fsum (flat_map (fun Mf => map (fun rc => ratio_entry_abs Mf (fst rc) (snd rc))
                                (offdiag_pairs n)) M).

Definition zabs3 (P : ztensor) : list fmatrix := map (map (map zabs)) P.

(** Columns of a cost matrix reordered by [pi]. *)
Definition colperm (pi : list nat) (E : fmatrix) : fmatrix :=
  map (fun row => map (fun j => nth j row NaN) pi) E.

(** [pi] after [tau]: position [i] holds [pi[tau[i]]]. *)
Definition compose (pi tau : list nat) : list nat :=
  map (fun j => nth j pi 0%nat) tau.

Fixpoint index_of (v : nat) (l : list nat) : nat :=
  match l with
  | [] => 0%nat
  | x :: l' => if Nat.eqb x v then 0%nat else S (index_of v l')
  end.

(** The cost matrix [scale_permute] hands to the assignment solver. *)
Definition cost_matrix (W A : tensor) : fmatrix :=
  err_mat (last_dim W) (div_scale (matmul W A) (max_abs (matmul W A))).

(** ** Concrete inputs *)

(** One frequency bin, two channels: the identity filter against a mixing
    matrix with leakage 1/2. *)
Definition I2 : tensor := [[[ (1, 0); (0, 0) ]; [ (0, 0); (1, 0) ]]].
Definition A0 : tensor := [[[ (1, 0); (1/2, 0) ]; [ (1/2, 0); (1, 0) ]]].
Definition P0 : ztensor :=
  [[[ (Fin 1, Fin 0); (Fin (1/2), Fin 0) ]; [ (Fin (1/2), Fin 0); (Fin 1, Fin 0) ]]].

(** A filter whose two outputs both pick up the first source only: the
    second diagonal term of the product is zero. *)
Definition Wz : tensor := [[[ (1, 0); (0, 0) ]; [ (1, 0); (0, 0) ]]].
Definition Pz : ztensor :=
  [[[ (Fin 1, Fin 0); (Fin 0, Fin 0) ]; [ (Fin 1, Fin 0); (Fin 0, Fin 0) ]]].

(** A filter whose second row is zero. *)
Definition Wrow0 : tensor := [[[ (1, 0); (0, 0) ]; [ (0, 0); (0, 0) ]]].

Definition PI2 : ztensor :=
  [[[ (Fin 1, Fin 0); (Fin 0, Fin 0) ]; [ (Fin 0, Fin 0); (Fin 1, Fin 0) ]]].

(** ** Stand-ins for the libraries

    A generator whose state is a counter, with a shuffle that reverses, and
    a [bss] package with one algorithm, ["auxiva"], that behaves as [run]
    says, a PCA that returns the filter [Q], and mixtures whose mixing
    matrix is [I2] for generator state 0 and [A0] otherwise. *)

Definition counter_numpy : Numpy :=
  {| rng := Z;
     np_random_seed := fun s => s;
     np_random_randint := fun high g => ((g mod high)%Z, (g + 1)%Z);
     np_random_shuffle := fun A l g => (rev l, g);
     np_random_shuffle_perm := fun A l g => Permutation_rev l;
     np_linalg_slogdet := fun _ => Fin 0 |}.

Definition mix1 : tensor := [[[ (1, 0) ]; [ (0, 0) ]]].

Definition stub_bss (run : algo_run) (Q : tensor) : @Bss counter_numpy :=
  {| bss_rand_mixture := fun _ _ _ _ (g : @rng counter_numpy) =>
       (mix1, [], if Z.eqb g 0 then I2 else A0);
     bss_pca := fun X => (X, Q);
     bss_is_dual_update := [("auxiva"%string, false)];
     bss_algos := [("auxiva"%string, fun _ _ _ _ => run)] |}.

Definition run_fails : algo_run :=
  {| calls := []; outcome := Raise (AlgorithmError "singular matrix") |}.

Definition run_returns : algo_run :=
  {| calls := []; outcome := Ok ([], []) |}.

Definition one_algo : dict algo_spec :=
  [("auxiva"%string, {| algo := "auxiva"; n_iter := 2; other_kwargs := [] |})].

Definition task0 : args :=
  {| param_index := 0; n_freq := 1; n_chan := 2; use_pca := false; n_frames := 1;
     distrib := "laplace"; algos := one_algo; seed := 0; queue := 0 |}.

Definition task1 : args :=
  {| param_index := 0; n_freq := 1; n_chan := 2; use_pca := false; n_frames := 1;
     distrib := "laplace"; algos := one_algo; seed := 1; queue := 0 |}.

Definition scenario0 : scenario := {| p_n_freq := 1; p_n_chan := 2; p_pca := false |}.

(** The cost recorded for the raw mixture [mix1]. *)
Definition cost0 : npfloat :=
  @cost_value counter_numpy (transpose_201 mix1) I2.

(** The trajectories of the two repetitions under the stand-ins: the ISR
    list holds the single point recorded before the (empty) run. *)
Definition result0 : trial_result :=
  (0%nat, [("auxiva"%string, [NInf])], [("auxiva"%string, [cost0])]).

Definition result1 : trial_result :=
  (0%nat, [("auxiva"%string, [Fin (10 * (ln (1/8) / ln 10))])],
   [("auxiva"%string, [cost0])]).

(** A whitening filter for mixtures with mixing matrix [A0]: its rows lie
    along the principal axes [(1, 1)] and [(1, -1)] of [A0 A0^H]. *)
Definition Q0 : tensor := [[[ (1, 0); (1, 0) ]; [ (1, 0); (-1, 0) ]]].
Definition Q0A0 : tensor := [[[ (3/2, 0); (3/2, 0) ]; [ (1/2, 0); (-1/2, 0) ]]].
Definition PQ : ztensor :=
  [[[ (Fin 1, Fin 0); (Fin 1, Fin 0) ]; [ (Fin 1, Fin 0); (Fin (-1), Fin 0) ]]].

Definition task_pca : args :=
  {| param_index := 0; n_freq := 1; n_chan := 2; use_pca := true; n_frames := 1;
     distrib := "laplace"; algos := one_algo; seed := 1; queue := 0 |}.

(** Two frequency bins, two channels.  Against the identity mixing the two
    rows of [W4] are equally far from either target, so both assignments
    cost the same; [W4s] is [W4] with its rows exchanged. *)
Definition I22 : tensor :=
  [[[ (1, 0); (0, 0) ]; [ (0, 0); (1, 0) ]];
   [[ (1, 0); (0, 0) ]; [ (0, 0); (1, 0) ]]].
Definition W4 : tensor :=
  [[[ (1/4, 0); (1, 0) ]; [ (1/2, 0); (1, 0) ]];
   [[ (1, 0); (1/2, 0) ]; [ (1, 0); (3/4, 0) ]]].
Definition W4s : tensor :=
  [[[ (1/2, 0); (1, 0) ]; [ (1/4, 0); (1, 0) ]];
   [[ (1, 0); (3/4, 0) ]; [ (1, 0); (1/2, 0) ]]].
Definition P4 : ztensor :=
  [[[ (Fin (1/4), Fin 0); (Fin 1, Fin 0) ]; [ (Fin (1/2), Fin 0); (Fin 1, Fin 0) ]];
   [[ (Fin 1, Fin 0); (Fin (1/2), Fin 0) ]; [ (Fin 1, Fin 0); (Fin (3/4), Fin 0) ]]].
Definition P4s : ztensor :=
  [[[ (Fin (1/2), Fin 0); (Fin 1, Fin 0) ]; [ (Fin (1/4), Fin 0); (Fin 1, Fin 0) ]];
   [[ (Fin 1, Fin 0); (Fin (3/4), Fin 0) ]; [ (Fin 1, Fin 0); (Fin (1/2), Fin 0) ]]].
Definition E4 : fmatrix :=
  [[Fin (29/64); Fin (29/64)]; [Fin (21/64); Fin (21/64)]].
Definition ones22 : list (list C) := [[ (1, 0); (1, 0) ]; [ (1, 0); (1, 0) ]].

(** A scaling by [2] and by [i], for two channels. *)
Definition D2 : list (list C) := [[ (2, 0); (0, 1) ]].

(** ** Further definitions used to state results *)

(** The numbers [progress_tracker] has printed after [k] signals when it
    started from [n] tasks: [n, n-1, .., n-k]. *)
Definition countdown (n k : nat) : list nat :=
  map (fun i => (n - i)%nat) (seq 0 (S k)).

(** A task that asks for an algorithm, ["fastiva"], which the stand-in
    [bss] package does not provide. *)
Definition task_unregistered : args :=
  {| param_index := 0; n_freq := 1; n_chan := 2; use_pca := false; n_frames := 1;
     distrib := "laplace";
     algos := [("fastiva"%string, {| algo := "fastiva"; n_iter := 2; other_kwargs := [] |})];
     seed := 0; queue := 0 |}.

(** [np.eye(n)] as a complex matrix: one bin of [eye_tensor]. *)
Definition eye_matrix (n : nat) : matrix :=
  map (fun i => map (fun k => if Nat.eqb i k then C1 else C0) (seq 0 n)) (seq 0 n).

(** Every row of the product [P] has an entry that is not zero. *)
Definition rows_nonzero (F n : nat) (P : tensor) : Prop :=
  forall f r, (f < F)%nat -> (r < n)%nat ->
              exists k, (k < n)%nat /\ centry P f r k <> C0.

(** The complex number a finite complex128 stands for. *)
Definition zval (z : zfloat) : C := (toR (fst z), toR (snd z)).

Definition to_tensor (X : ztensor) : tensor := map (map (map zval)) X.

(** A finite, non-negative float. *)
Definition fin_nonneg (x : npfloat) : Prop := exists t, x = Fin t /\ 0 <= t.

(** Kronecker's delta as a real number. *)
Definition delta (i k : nat) : R := if Nat.eqb i k then 1 else 0.

(** A filter that separates the two sources of an identity mixture
    perfectly, in exchanged order and with scales [2] and [i]. *)
Definition Wswap : tensor := [[[ (0, 0); (2, 0) ]; [ (0, 1); (0, 0) ]]].

(** A [bss] package like [stub_bss] whose algorithm calls back once at
    every checkpoint it is given, with the signals [Yc] and the identity
    filter, and then returns. *)
Definition Yc : tensor := transpose_201 mix1.

Definition calling_run (cps : list Z) : algo_run :=
  {| calls := map (fun _ => (Yc, I2)) cps; outcome := Ok ([], []) |}.

Definition calling_bss : @Bss counter_numpy :=
  {| bss_rand_mixture := fun _ _ _ _ (g : @rng counter_numpy) =>
       (mix1, [], if Z.eqb g 0 then I2 else A0);
     bss_pca := fun X => (X, I2);
     bss_is_dual_update := [("auxiva"%string, false)];
     bss_algos := [("auxiva"%string, fun _ _ cps _ => calling_run cps)] |}.

(** The result of [task0] with that package: the point recorded before
    the run and one point for each of the checkpoints 1 and 2. *)
Definition result_calling : trial_result :=
  (0%nat, [("auxiva"%string, [NInf; NInf; NInf])],
   [("auxiva"%string, [cost0; @cost_value counter_numpy Yc I2;
                       @cost_value counter_numpy Yc I2])]).

(** The iterations at which a trajectory is sampled, written out: the even
    iterations [2, 4, ..] up to [iters] for a dual-update algorithm, every
    iteration [1, 2, .., iters] otherwise. *)
Definition checkpoint_iterations (dual : bool) (iters : Z) : list Z :=
  if dual then map (fun k => (2 * Z.of_nat k)%Z) (seq 1 (Z.to_nat (iters / 2)))
  else map Z.of_nat (seq 1 (Z.to_nat iters)).

(** A [bss] package whose algorithm ["auxiva"] is registered as
    dual-update and reports where it is called back: at checkpoint [k] it
    hands the callback the signals [Y_at k], which hold the iteration
    number, and the identity filter. *)
Definition Y_at (k : Z) : tensor := [[[ (IZR k, 0); (0, 0) ]]].

Definition reporting_run (cps : list Z) : algo_run :=
  {| calls := map (fun k => (Y_at k, I2)) cps; outcome := Ok ([], []) |}.

Definition dual_bss : @Bss counter_numpy :=
  {| bss_rand_mixture := fun _ _ _ _ (g : @rng counter_numpy) =>
       (mix1, [], if Z.eqb g 0 then I2 else A0);
     bss_pca := fun X => (X, I2);
     bss_is_dual_update := [("auxiva"%string, true)];
     bss_algos := [("auxiva"%string, fun _ _ cps _ => reporting_run cps)] |}.

(** A task with an odd iteration count. *)
Definition spec5 : algo_spec := {| algo := "auxiva"; n_iter := 5; other_kwargs := [] |}.

Definition task_dual5 : args :=
  {| param_index := 0; n_freq := 1; n_chan := 2; use_pca := false; n_frames := 1;
     distrib := "laplace"; algos := [("auxiva"%string, spec5)]; seed := 0; queue := 0 |}.

(** ** separation_error

    [separation_error(est, mix, ref, ref_ch=0)] matches separated signals
    with reference signals.  The arrays [est], [mix] and [ref] have axes
    (frequency, channel, frame).  As everywhere in this development an
    array is a nested list, so an array with an empty leading axis is not
    told apart from the empty list. *)

(** What [separation_error] raises: the [IndexError] of an out-of-range
    [ref_ch], or an exception of one of the library routines it calls. *)
Inductive sep_exn : Type :=
| IndexError (msg : string)
| LibraryError (e : exn).

Inductive sep_result (A : Type) : Type :=
| Done (a : A)
| Failed (e : sep_exn).
Arguments Done {A} a.
Arguments Failed {A} e.

(** An index into an axis of length [size]: negative indices count from
    the end; [None] stands for [IndexError]. *)
Definition py_index (size : nat) (i : Z) : option nat :=
  if ((0 <=? i) && (i <? Z.of_nat size))%Z then Some (Z.to_nat i)
  else if ((- Z.of_nat size <=? i) && (i <? 0))%Z then Some (Z.to_nat (Z.of_nat size + i))
  else None.

(** [X[:, ch, :].T]: entry [(t, f)] is [X[f, ch, t]]. *)
Definition channel_T (X : tensor) (ch : nat) : matrix :=
  map (fun t => map (fun Xf => nth t (nth ch Xf []) C0) X) (seq 0 (last_dim X)).

(** [Y.transpose([1, 2, 0])]: entry [(f, c, t)] is [Y[t, f, c]]. *)
Definition transpose_120 (Y : tensor) : tensor :=
  map (fun f => map (fun c => map (fun Yt => nth c (nth f Yt []) C0) Y)
                    (seq 0 (last_dim Y)))
      (seq 0 (n_rows Y)).

Definition Csub (a b : C) : C := (fst a - fst b, snd a - snd b).

(** numpy broadcasting of two axes: equal lengths, or one of them 1. *)
Definition broadcast_dim (a b : nat) : result nat :=
  if Nat.eqb a b then Ok a
  else if Nat.eqb a 1 then Ok b
  else if Nat.eqb b 1 then Ok a
  else Raise (ValueError "operands could not be broadcast together").

(** The index read along an axis of length [size] at position [i] of the
    broadcast result. *)
Definition bidx (size i : nat) : nat := if Nat.eqb size 1 then 0%nat else i.

(** [np.abs(est_hat[f, j, t] - ref[f, i, t]) ** 2] at position
    [(f, i, j, t)] of the broadcast difference. *)
Definition sq_dev (est_hat ref : tensor) (i j f t : nat) : npfloat :=
  let d := Csub (centry est_hat (bidx (length est_hat) f) j (bidx (last_dim est_hat) t))
                (centry ref (bidx (length ref) f) i (bidx (last_dim ref) t)) in
  Fin (Cabs d * Cabs d).

(** [np.mean(np.abs(est_hat[:, None, :, :] - ref[:, :, None, :]) ** 2,
             axis=(0, 3))]: one row per reference channel, one column per
    estimated channel. *)
Definition sep_err_mat (est_hat ref : tensor) : result fmatrix :=
  F <- broadcast_dim (length est_hat) (length ref) ;;
  T <- broadcast_dim (last_dim est_hat) (last_dim ref) ;;
  Ok (map (fun i =>
             map (fun j =>
                    fmean (flat_map (fun f => map (sq_dev est_hat ref i j f) (seq 0 T))
                                    (seq 0 F)))
                 (seq 0 (n_rows est_hat)))
          (seq 0 (n_rows ref))).

Section SeparationError.

(** [bss.project_back(Y, ref)], for [Y] with axes (frame, frequency,
    channel) and [ref] with axes (frame, frequency). *)
Variable bss_project_back : tensor -> matrix -> result tensor.

(** The assignment solver is modelled for a cost matrix between two sets
    of equal size (see [linear_sum_assignment]); what is proved about
    [separation_error] is for as many estimated channels as reference
    channels. *)
Definition separation_error (est mix ref : tensor) (ref_ch : Z)
  : sep_result (npfloat * list nat * tensor) :=
  match py_index (n_rows mix) ref_ch with
  | None => Failed (IndexError "index is out of bounds for axis 1")
  | Some ch =>
      (* fix scale *)
      match bss_project_back (transpose_201 est) (channel_T mix ch) with
      | Raise e => Failed (LibraryError e)
      | Ok Y =>
          let est_hat := transpose_120 Y in
          (* compute the error matrix; now find the best permutation *)
          match (E <- sep_err_mat est_hat ref ;;
                 rc <- linear_sum_assignment E ;;
                 Ok (E, rc)) with
          | Raise e => Failed (LibraryError e)
          | Ok (E, (r, c)) =>
              let error := fmean (map (fun p => entry E (fst p) (snd p)) (combine r c)) in
              Done (error, c, take_rows c est_hat)
          end
      end
  end.

End SeparationError.

(** The mean squared deviation of channel [j] of [X] from channel [i] of
    [Y], over all frequency bins and frames. *)
Definition channel_mse (X Y : tensor) (i j : nat) : npfloat :=
  fmean (flat_map (fun f => map (sq_dev X Y i j f) (seq 0 (last_dim Y))) (seq 0 (length Y))).

(** A stand-in for [bss.project_back] that leaves the signals as they
    are, two reference signals of two frames, and the same two signals in
    exchanged order. *)
Definition keep_scale (Y : tensor) (r : matrix) : result tensor := Ok Y.
Definition ref2 : tensor := [[[ (1, 0); (2, 0) ]; [ (0, 1); (3, 0) ]]].
Definition est2 : tensor := [[[ (0, 1); (3, 0) ]; [ (1, 0); (2, 0) ]]].

(** ** Evaluation of closed real expressions *)

Ltac r_step :=
  match goal with
  | |- context [sqrt ?x] =>
      first [ replace (sqrt x) with 0 by (symmetry; apply sqrt_lem_1; lra)
            | replace (sqrt x) with 1 by (symmetry; apply sqrt_lem_1; lra)
            | replace (sqrt x) with (1/2) by (symmetry; apply sqrt_lem_1; lra)
            | replace (sqrt x) with (1/4) by (symmetry; apply sqrt_lem_1; lra)
            | replace (sqrt x) with (3/4) by (symmetry; apply sqrt_lem_1; lra)
            | replace (sqrt x) with (3/2) by (symmetry; apply sqrt_lem_1; lra) ]
  | |- context [Rabs ?x] =>
      first [ rewrite (Rabs_right x) by lra | rewrite (Rabs_left x) by lra ]
  | |- context [Rmax ?x ?y] =>
      first [ rewrite (Rmax_left x y) by lra | rewrite (Rmax_right x y) by lra ]
  | |- context [Req_dec_T ?a ?b] =>
      destruct (Req_dec_T a b); [ try (exfalso; lra) | try (exfalso; lra) ]
  | |- context [Rlt_dec ?a ?b] =>
      destruct (Rlt_dec a b); [ try (exfalso; lra) | try (exfalso; lra) ]
  end.

Ltac r_eval := repeat r_step.

(** Unfolding of the solver and of the decibel value on explicit arrays. *)
Ltac lsa_eval :=
  cbv [linear_sum_assignment forallb is_finite andb length seq permutations perms_of
       flat_map map remove Nat.eq_dec app argmin_first assignment_cost combine
       fold_right entry nth toR fst snd nat_rec nat_rect eq_rec eq_rect f_equal
       sumbool_rec sumbool_rect eq_sym eq_ind_r eq_ind O_S n_Sn];
  r_eval.

Ltac db_eval :=
  cbv [isr_db offdiag_mean_db to_db leakage_sum offdiag_pairs list_prod seq filter map
       app fst snd negb Nat.eqb flat_map fsum fold_left ratio_entry nth zabs fsquare
       fmul fdiv fadd INR Nat.mul Nat.add Nat.sub Rsign_case flog10];
  r_eval.

(** * Properties *)

(** ** Lists and sums *)

Lemma fadd_0_r a : fadd a (Fin 0) = a.
Proof. destruct a; simpl; auto. f_equal; lra. Qed.

Lemma fadd_0_l a : fadd (Fin 0) a = a.
Proof. destruct a; simpl; auto. f_equal; lra. Qed.

Lemma length_list_set {A} (l : list A) k v : length (list_set l k v) = length l.
Proof. revert k; induction l; intros [|k]; simpl; auto. Qed.

Lemma nth_list_set {A} (l : list A) k v j d :
  nth j (list_set l k v) d = if Nat.eqb j k then (if Nat.ltb k (length l) then v else nth j l d) else nth j l d.
Proof.
  revert k j; induction l as [|x l IH]; intros [|k] [|j]; simpl; auto;
    try (destruct (Nat.eqb j k); reflexivity).
Qed.

Lemma list_set_same {A} (l : list A) k d : list_set l k (nth k l d) = l.
Proof. revert k; induction l; intros [|k]; simpl; auto. now rewrite IHl. Qed.

(** A loop over [range(m)] whose pass [k] only rewrites position [k]. *)
Lemma fold_set_seq_nth {A} (h : nat -> A -> A) (d : A) m : forall s l,
  let r := fold_left (fun l k => list_set l k (h k (nth k l d))) (seq s m) l in
  length r = length l /\
  forall j, nth j r d = if andb (Nat.leb s j) (andb (Nat.ltb j (s + m)) (Nat.ltb j (length l))) then h j (nth j l d) else nth j l d.
Proof.
  induction m as [|m IH]; intros s l; simpl.
  - split; auto. intros j.
    destruct (Nat.leb_spec s j), (Nat.ltb_spec j (s + 0)); simpl; auto; lia.
  - destruct (IH (S s) (list_set l s (h s (nth s l d)))) as [HL HN].
    split.
    + rewrite HL. apply length_list_set.
    + intros j. rewrite HN. rewrite length_list_set, !nth_list_set.
      destruct (Nat.leb_spec (S s) j), (Nat.leb_spec s j), (Nat.ltb_spec j (S s + m)), (Nat.ltb_spec j (s + S m)), (Nat.ltb_spec j (length l)), (Nat.eqb_spec j s); simpl; try lia; auto.
      all: subst; destruct (Nat.ltb_spec s (length l)); try lia; auto.
Qed.

Lemma list_set_twice {A} (l : list A) k x y : list_set (list_set l k x) k y = list_set l k y.
Proof. revert k; induction l; intros [|k]; simpl; auto. now rewrite IHl. Qed.

Lemma list_set_out {A} (l : list A) k x : (length l <= k)%nat -> list_set l k x = l.
Proof. revert k; induction l; intros [|k]; simpl; auto; intros; try lia. rewrite IHl; auto; lia. Qed.

Lemma nth_list_set_eq {A} (l : list A) k x d : (k < length l)%nat -> nth k (list_set l k x) d = x.
Proof.
  intros. rewrite nth_list_set, Nat.eqb_refl.
  destruct (Nat.ltb_spec k (length l)); auto; lia.
Qed.

Lemma fold_left_cons_split {X T} (g : list T -> X -> list T) (g1 : T -> X -> T)
      (g2 : list T -> X -> list T) :
  (forall x M t, g (M :: t) x = g1 M x :: g2 t x) ->
  forall xs M t, fold_left g xs (M :: t) = fold_left g1 xs M :: fold_left g2 xs t.
Proof.
  intros Hg xs; induction xs as [|x xs IH]; intros M t; simpl; auto.
  rewrite Hg. apply IH.
Qed.

Lemma fold_left_id {X T} (g : T -> X -> T) xs t :
  (forall x, g t x = t) -> fold_left g xs t = t.
Proof. intros H; induction xs; simpl; auto. rewrite H; auto. Qed.

Lemma set_slice_nil isr r c : set_slice isr r c [] = isr.
Proof. destruct isr; reflexivity. Qed.

Lemma isr_fill_nil_P n isr : isr_fill n [] isr = isr.
Proof.
  unfold isr_fill. apply fold_left_id. intros r.
  apply fold_left_id. intros c. destruct (Nat.eqb r c); auto.
  simpl. apply set_slice_nil.
Qed.

Lemma isr_fill_cons n Pf P M isr :
  isr_fill n (Pf :: P) (M :: isr) = fill_mat n Pf M :: isr_fill n P isr.
Proof.
  unfold isr_fill, fill_mat.
  apply fold_left_cons_split. intros r M' t.
  unfold fill_mat_inner.
  apply fold_left_cons_split. intros c M'' t'.
  destruct (Nat.eqb r c); reflexivity.
Qed.

Lemma isr_fill_map n : forall P isr, length isr = length P ->
  isr_fill n P isr = map (fun p => fill_mat n (fst p) (snd p)) (combine P isr).
Proof.
  induction P as [|Pf P IH]; intros [|M isr] HL; simpl in *; try discriminate.
  - apply isr_fill_nil_P.
  - rewrite isr_fill_cons, IH; auto.
Qed.

Lemma fill_mat_inner_eq Pf r cs : forall M,
  fill_mat_inner Pf r cs M = list_set M r (fill_row Pf r cs (nth r M [])).
Proof.
  unfold fill_mat_inner, fill_row.
  induction cs as [|c cs IH]; intros M; simpl.
  - symmetry; apply list_set_same.
  - destruct (Nat.eqb r c); auto.
    rewrite IH, list_set_twice.
    destruct (Nat.lt_ge_cases r (length M)) as [H|H].
    + rewrite nth_list_set_eq; auto.
    + rewrite !(list_set_out M r); auto.
Qed.

Lemma fill_row_nth Pf r n row :
  length (fill_row Pf r (seq 0 n) row) = length row /\
  forall c, nth c (fill_row Pf r (seq 0 n) row) NaN =
            if andb (Nat.ltb c n) (Nat.ltb c (length row))
            then (if Nat.eqb r c then nth c row NaN else ratio_entry Pf r c)
            else nth c row NaN.
Proof.
  unfold fill_row.
  pose (h := fun (c : nat) (x : npfloat) => if Nat.eqb r c then x else ratio_entry Pf r c).
  assert (E : forall cs row0,
             fold_left (fun row c => if Nat.eqb r c then row
                                     else list_set row c (ratio_entry Pf r c)) cs row0 =
             fold_left (fun l k => list_set l k (h k (nth k l NaN))) cs row0).
  { induction cs as [|c cs IH]; intros row0; simpl; auto.
    rewrite IH. f_equal. unfold h. destruct (Nat.eqb r c); auto.
    symmetry; apply list_set_same. }
  rewrite E.
  destruct (fold_set_seq_nth h NaN n 0%nat row) as [HL HN].
  split; [exact HL | exact HN].
Qed.

Lemma fill_mat_nth Pf n M :
  length (fill_mat n Pf M) = length M /\
  forall r, nth r (fill_mat n Pf M) [] =
            if andb (Nat.ltb r n) (Nat.ltb r (length M))
            then fill_row Pf r (seq 0 n) (nth r M [])
            else nth r M [].
Proof.
  unfold fill_mat.
  pose (h := fun (r : nat) (row : list npfloat) => fill_row Pf r (seq 0 n) row).
  assert (E : forall rs M0,
             fold_left (fun M r => fill_mat_inner Pf r (seq 0 n) M) rs M0 =
             fold_left (fun l k => list_set l k (h k (nth k l []))) rs M0).
  { induction rs as [|r rs IH]; intros M0; simpl; auto.
    rewrite IH. f_equal. apply fill_mat_inner_eq. }
  rewrite E.
  destruct (fold_set_seq_nth h [] n 0%nat M) as [HL HN].
  split; [exact HL | exact HN].
Qed.

Lemma nth_map_seq {A} (f : nat -> A) s n k d :
  (k < n)%nat -> nth k (map f (seq s n)) d = f (s + k)%nat.
Proof.
  intros H. rewrite nth_indep with (d' := f 0%nat) by (now rewrite length_map, length_seq).
  rewrite map_nth, seq_nth; auto.
Qed.

Lemma nth_repeat_lt' {A} (x d : A) n k : (k < n)%nat -> nth k (repeat x n) d = x.
Proof. revert k; induction n; intros [|k] H; simpl; auto; try lia. apply IHn; lia. Qed.

Lemma fill_mat_zero n Pf : fill_mat n Pf (zero_matrix n n) = isr_matrix n Pf.
Proof.
  destruct (fill_mat_nth Pf n (zero_matrix n n)) as [HL HN].
  unfold zero_matrix in *. rewrite repeat_length in *.
  apply nth_ext with (d := []) (d' := []).
  - unfold isr_matrix. now rewrite HL, length_map, length_seq.
  - intros r Hr. rewrite HL in Hr. rewrite HN.
    destruct (Nat.ltb_spec r n); try lia. simpl.
    unfold isr_matrix. rewrite nth_map_seq by auto. simpl.
    rewrite nth_repeat_lt' by auto.
    destruct (fill_row_nth Pf r n (repeat (Fin 0) n)) as [HL' HN'].
    rewrite repeat_length in *.
    apply nth_ext with (d := NaN) (d' := NaN).
    + now rewrite HL', length_map, length_seq.
    + intros c Hc. rewrite HL' in Hc. rewrite HN'.
      destruct (Nat.ltb_spec c n); try lia. simpl.
      rewrite nth_repeat_lt' by auto.
      rewrite nth_map_seq by auto. reflexivity.
Qed.

(** *** The candidate assignments *)

Lemma remove_perm x : forall l, NoDup l -> In x l ->
  Permutation l (x :: remove Nat.eq_dec x l).
Proof.
  induction l as [|y l IH]; intros ND Hin; [contradiction|].
  inversion ND as [|? ? Hy ND']; subst. simpl.
  destruct (Nat.eq_dec x y) as [->|Hxy].
  - rewrite notin_remove; auto.
  - destruct Hin as [->|Hin]; [congruence|].
    rewrite perm_swap. constructor. auto.
Qed.

Lemma remove_NoDup x : forall l, NoDup l -> NoDup (remove Nat.eq_dec x l).
Proof.
  induction l as [|y l IH]; intros ND; simpl; auto.
  inversion ND as [|? ? Hy ND']; subst.
  destruct (Nat.eq_dec x y); auto.
  constructor; auto. intros Hin. apply in_remove in Hin. tauto.
Qed.

Lemma perms_of_sound : forall k l sigma,
  NoDup l -> length l = k -> In sigma (perms_of k l) -> Permutation sigma l.
Proof.
  induction k as [|k IH]; intros l sigma ND HL Hin; simpl in Hin.
  - destruct Hin as [<-|[]]. destruct l; [constructor | discriminate].
  - apply in_flat_map in Hin. destruct Hin as [x [Hx Hin]].
    apply in_map_iff in Hin. destruct Hin as [s [<- Hs]].
    pose proof (remove_perm x l ND Hx) as HP.
    rewrite HP. constructor.
    apply IH; auto using remove_NoDup.
    apply Permutation_length in HP. simpl in HP. lia.
Qed.

Lemma perms_of_complete : forall sigma l,
  NoDup l -> Permutation sigma l -> In sigma (perms_of (length l) l).
Proof.
  induction sigma as [|x sigma IH]; intros l ND HP.
  - apply Permutation_nil in HP. subst. simpl. auto.
  - assert (Hx : In x l) by (eapply Permutation_in; [exact HP | left; auto]).
    pose proof (remove_perm x l ND Hx) as HP'.
    assert (HL : length l = S (length (remove Nat.eq_dec x l)))
      by (apply Permutation_length in HP'; exact HP').
    rewrite HL. simpl. apply in_flat_map. exists x. split; auto.
    apply in_map. apply IH; auto using remove_NoDup.
    apply Permutation_cons_inv with (a := x).
    rewrite HP. exact HP'.
Qed.

Lemma permutations_spec n sigma :
  In sigma (permutations n) <-> Permutation sigma (seq 0 n).
Proof.
  unfold permutations. split; intros H.
  - eapply perms_of_sound; eauto using seq_NoDup, length_seq.
  - pose proof (perms_of_complete sigma (seq 0 n) (seq_NoDup n 0) H) as H'.
    now rewrite length_seq in H'.
Qed.

Lemma argmin_first_in cost : forall l best,
  In (argmin_first cost best l) (best :: l).
Proof.
  induction l as [|s l IH]; intros best; simpl; auto.
  destruct (Rlt_dec (cost s) (cost best)).
  - destruct (IH s) as [H|H]; auto.
  - destruct (IH best) as [H|H]; auto.
Qed.

Lemma argmin_first_le cost : forall l best s,
  In s (best :: l) -> cost (argmin_first cost best l) <= cost s.
Proof.
  assert (Hb : forall l best, cost (argmin_first cost best l) <= cost best).
  { induction l as [|t l IH]; intros best; simpl; [lra|].
    destruct (Rlt_dec (cost t) (cost best)).
    - specialize (IH t). lra.
    - apply IH. }
  induction l as [|t l IH]; intros best s Hin; simpl.
  - destruct Hin as [->|[]]. lra.
  - destruct (Rlt_dec (cost t) (cost best)) as [Hlt|Hge].
    + destruct Hin as [<-|[<-|Hin]].
      * specialize (Hb l t). lra.
      * apply Hb.
      * apply IH. right; auto.
    + destruct Hin as [<-|[<-|Hin]].
      * apply Hb.
      * specialize (Hb l best). lra.
      * apply IH. right; auto.
Qed.

Lemma lsa_perm M rows perm :
  linear_sum_assignment M = Ok (rows, perm) ->
  rows = seq 0 (length M) /\ Permutation perm (seq 0 (length M)).
Proof.
  unfold linear_sum_assignment.
  destruct (forallb (forallb is_finite) M); [|discriminate].
  intros H; injection H as <- <-. split; auto.
  destruct (argmin_first_in (assignment_cost M) (permutations (length M)) (seq 0 (length M))) as [<-|H];
    [reflexivity | now apply permutations_spec].
Qed.

(** *** Shapes *)

Lemma matmul2_shape X Y n m m' k :
  shape2 n m X -> shape2 (S m') k Y -> shape2 n k (matmul2 X Y).
Proof.
  intros [HX _] [HY HYr]. unfold matmul2, shape2.
  rewrite length_map. split; auto.
  apply Forall_map, Forall_forall. intros xr _.
  rewrite length_map, length_seq.
  destruct Y as [|y Y]; simpl in *; [discriminate|].
  now inversion HYr.
Qed.

Lemma matmul_shape : forall W A F n m k,
  has_shape F n (S m) W -> has_shape F (S m) k A -> has_shape F n k (matmul W A).
Proof.
  unfold matmul.
  induction W as [|Wf W IH]; intros A F n m k [HL HW] [HL' HA].
  - simpl in *. split; auto.
  - destruct A as [|Af A]; simpl in *; [subst; discriminate|].
    inversion HW as [|? ? HWf HW']; inversion HA as [|? ? HAf HA']; subst.
    destruct (IH A (length W) n m k) as [G1 G2]; [split; auto | split; auto; lia |].
    split; simpl; [now rewrite G1|].
    constructor; auto. apply matmul2_shape with (m := S m) (m' := m); auto.
Qed.

Lemma max_abs_shape P F n m :
  has_shape F n m P ->
  length (max_abs P) = F /\ Forall (fun s => length s = n) (max_abs P).
Proof.
  intros [HL HP]. unfold max_abs. rewrite length_map. split; auto.
  apply Forall_map. eapply Forall_impl; [|exact HP].
  intros M [HM _]. now rewrite length_map.
Qed.

Lemma div_scale_shape : forall X S F n m,
  has_shape F n m X -> length S = F -> Forall (fun s => length s = n) S ->
  has_shape F n m (div_scale X S).
Proof.
  unfold div_scale.
  induction X as [|Xf X IH]; intros S0 F n m [HL HX] HS HSn.
  - simpl in *. split; auto.
  - destruct S0 as [|Sf S0]; simpl in *; [subst; discriminate|].
    inversion HX as [|? ? [HXf HXr] HX']; inversion HSn as [|? ? HSf HSn']; subst.
    destruct (IH S0 (length X) (length Xf) m) as [G1 G2]; [split; auto | lia | auto |].
    split; simpl; [now rewrite G1|].
    constructor; auto. split.
    + rewrite length_map, length_combine. lia.
    + apply Forall_map, Forall_forall. intros [row s] Hin. simpl.
      rewrite length_map. apply in_combine_l in Hin.
      rewrite Forall_forall in HXr. auto.
Qed.

Lemma take_rows_shape {A} (perm : list nat) (X : list (list (list A))) F n m :
  has_shape F n m X -> Forall (fun j => (j < n)%nat) perm ->
  has_shape F (length perm) m (take_rows perm X).
Proof.
  intros [HL HX] Hp. unfold take_rows. split; [now rewrite length_map|].
  apply Forall_map. eapply Forall_impl; [|exact HX].
  intros M [HM HMr]. split; [now rewrite length_map|].
  apply Forall_map. eapply Forall_impl; [|exact Hp].
  intros j Hj. simpl in Hj. rewrite Forall_forall in HMr. apply HMr.
  apply nth_In. lia.
Qed.

Lemma perm_seq_bound perm n :
  Permutation perm (seq 0 n) -> length perm = n /\ Forall (fun j => (j < n)%nat) perm.
Proof.
  intros HP. split.
  - apply Permutation_length in HP. now rewrite length_seq in HP.
  - apply Forall_forall. intros j Hj.
    eapply Permutation_in in Hj; [|exact HP]. apply in_seq in Hj. lia.
Qed.

Lemma err_mat_length n P : length (err_mat n P) = n.
Proof. unfold err_mat. now rewrite length_map, length_seq. Qed.

Lemma has_shape_dims {A} F n m (X : list (list (list A))) :
  has_shape (S F) n m X -> n_rows X = n /\ (n <> 0%nat -> last_dim X = m).
Proof.
  intros [HL HX]. destruct X as [|M X]; [discriminate|].
  inversion HX as [|? ? [HM HMr] _]; subst. unfold n_rows, last_dim. simpl.
  split; auto. intros Hn. destruct M as [|row M]; simpl in *; [congruence|].
  now inversion HMr.
Qed.

(** What a successful [scale_permute] returns on square inputs. *)
Lemma scale_permute_shape W A F n W' P :
  has_shape (S F) (S n) (S n) W -> has_shape (S F) (S n) (S n) A ->
  scale_permute W A = Ok (W', P) ->
  has_shape (S F) (S n) (S n) W' /\ has_shape (S F) (S n) (S n) P.
Proof.
  intros HW HA. unfold scale_permute.
  destruct (linear_sum_assignment _) as [[rows perm]|e] eqn:E; simpl; [|discriminate].
  intros H; injection H as <- <-.
  apply lsa_perm in E. destruct E as [_ HP].
  rewrite err_mat_length in HP.
  destruct (has_shape_dims _ _ _ _ HW) as [_ Hn]. rewrite Hn in HP by discriminate.
  apply perm_seq_bound in HP. destruct HP as [HLp HBp].
  pose proof (matmul_shape W A _ _ _ _ HW HA) as HPs.
  destruct (max_abs_shape _ _ _ _ HPs) as [HS1 HS2].
  split.
  - pose proof (take_rows_shape perm (div_scale W (max_abs (matmul W A))) (S F) (S n) (S n)) as H.
    rewrite HLp in H. apply H; auto. apply div_scale_shape; auto.
  - pose proof (take_rows_shape perm (div_scale (matmul W A) (max_abs (matmul W A))) (S F) (S n) (S n)) as H.
    rewrite HLp in H. apply H; auto. apply div_scale_shape; auto.
Qed.

(** *** The mean over the ratio array *)

Lemma map_const_repeat {A B} (b : B) (l : list A) m :
  length l = m -> map (fun _ => b) l = repeat b m.
Proof. intros <-. induction l; simpl; auto. now rewrite IHl. Qed.

Lemma map_all_repeat {A B} (f : A -> B) (b : B) (l : list A) m :
  length l = m -> Forall (fun x => f x = b) l -> map f l = repeat b m.
Proof.
  intros <- H. induction H; simpl; auto. now rewrite IHForall, H.
Qed.

Lemma zeros_like_shape {A} (X : list (list (list A))) F n m :
  has_shape F n m X -> zeros_like X = repeat (zero_matrix n m) F.
Proof.
  intros [HL HX]. unfold zeros_like.
  apply map_all_repeat; auto.
  eapply Forall_impl; [|exact HX]. intros M [HM HMr].
  apply map_all_repeat; auto.
  eapply Forall_impl; [|exact HMr]. intros row Hrow.
  now apply map_const_repeat.
Qed.

Lemma isr_fill_zeros n P :
  isr_fill n P (repeat (zero_matrix n n) (length P)) = map (isr_matrix n) P.
Proof.
  rewrite isr_fill_map by (now rewrite repeat_length).
  induction P as [|Pf P IH]; simpl; auto.
  rewrite IH, fill_mat_zero. reflexivity.
Qed.

Lemma concat_isr_matrix n Pf :
  concat (isr_matrix n Pf) =
  map (fun rc => if Nat.eqb (fst rc) (snd rc) then Fin 0
                 else ratio_entry Pf (fst rc) (snd rc))
      (list_prod (seq 0 n) (seq 0 n)).
Proof.
  unfold isr_matrix. generalize (seq 0 n) at 2 3. intros rs.
  induction rs as [|r rs IH]; simpl; auto.
  rewrite IH, map_app, map_map. reflexivity.
Qed.

Lemma length_concat_isr_matrix n Pf : length (concat (isr_matrix n Pf)) = (n * n)%nat.
Proof. now rewrite concat_isr_matrix, length_map, length_prod, length_seq. Qed.

Lemma length_concat_isr n P :
  length (concat (concat (map (isr_matrix n) P))) = (length P * n * n)%nat.
Proof.
  induction P as [|Pf P IH]; simpl; auto.
  rewrite concat_app, length_app, IH, length_concat_isr_matrix. lia.
Qed.

Lemma fold_fadd_skip_zero {X} (g : X -> npfloat) (keep : X -> bool) :
  (forall x, keep x = false -> g x = Fin 0) ->
  forall l acc, fold_left fadd (map g l) acc = fold_left fadd (map g (filter keep l)) acc.
Proof.
  intros Hg. induction l as [|x l IH]; intros acc; simpl; auto.
  destruct (keep x) eqn:E; simpl; auto.
  rewrite (Hg x E), fadd_0_r. auto.
Qed.

Lemma fsum_concat_isr n P :
  fsum (concat (concat (map (isr_matrix n) P))) = leakage_sum n P.
Proof.
  unfold leakage_sum, fsum. generalize (Fin 0).
  induction P as [|Pf P IH]; intros acc; simpl; auto.
  rewrite concat_app, !fold_left_app, IH. f_equal.
  rewrite concat_isr_matrix. unfold offdiag_pairs.
  rewrite (fold_fadd_skip_zero _ (fun rc => negb (Nat.eqb (fst rc) (snd rc)))).
  - f_equal. apply map_ext_in. intros rc Hin. apply filter_In in Hin.
    destruct Hin as [_ Hin]. destruct (Nat.eqb (fst rc) (snd rc)); [discriminate | reflexivity].
  - intros rc H. destruct (Nat.eqb (fst rc) (snd rc)); [reflexivity | discriminate].
Qed.

Lemma ISR_eq W A F n :
  has_shape (S F) (S n) (S n) W -> has_shape (S F) (S n) (S n) A ->
  ISR W A = (WP <- scale_permute W A ;; Ok (isr_db (S F) (S n) (snd WP))).
Proof.
  intros HW HA. unfold ISR.
  destruct (scale_permute W A) as [[W' P]|e] eqn:E; simpl; auto.
  destruct (scale_permute_shape W A F n W' P HW HA E) as [HW' HP].
  destruct (has_shape_dims _ _ _ _ HW) as [-> _].
  rewrite (zeros_like_shape W' _ _ _ HW').
  destruct HP as [HPL _]. rewrite <- HPL at 1.
  rewrite isr_fill_zeros. unfold isr_db, to_db, fmean.
  rewrite fsum_concat_isr, length_concat_isr, HPL. reflexivity.
Qed.

(** ** The value returned by [ISR] *)

Lemma I2_shape : has_shape 1 2 2 I2.
Proof. repeat constructor. Qed.

Lemma A0_shape : has_shape 1 2 2 A0.
Proof. repeat constructor. Qed.

Lemma I2_A0_matmul : matmul I2 A0 = A0.
Proof.
  cbv [matmul I2 A0 combine map matmul2 fst snd seq ncols length dot column nth
       fold_right Cadd Cmul C0].
  repeat (f_equal; try lra).
Qed.

Lemma A0_max_abs : max_abs A0 = [[1; 1]].
Proof.
  cbv [max_abs A0 map row_max fold_right Cabs fst snd].
  r_eval. reflexivity.
Qed.

Lemma A0_div_scale : div_scale A0 [[1; 1]] = P0.
Proof.
  cbv [div_scale A0 P0 map combine fst snd zdiv fdiv].
  r_eval. repeat (f_equal; try lra).
Qed.

Lemma P0_err_mat : err_mat 2 P0 = [[Fin (1/8); Fin (5/8)]; [Fin (5/8); Fin (1/8)]].
Proof.
  cbv [err_mat P0 map seq n_rows hd length flat_map app nth fmean fsum fold_left
       fsquare fabs fsub fadd fneg fmul eye Nat.eqb zabs INR fdiv].
  r_eval. repeat (f_equal; try lra).
Qed.

Lemma P0_lsa :
  linear_sum_assignment [[Fin (1/8); Fin (5/8)]; [Fin (5/8); Fin (1/8)]]
  = Ok ([0; 1], [0; 1])%nat.
Proof. lsa_eval. reflexivity. Qed.

Lemma I2_A0_scale_permute : exists W', scale_permute I2 A0 = Ok (W', P0).
Proof.
  unfold scale_permute. rewrite I2_A0_matmul, A0_max_abs, A0_div_scale.
  change (last_dim I2) with 2%nat. rewrite P0_err_mat, P0_lsa. simpl.
  eexists. reflexivity.
Qed.

Lemma P0_isr_db : isr_db 1 2 P0 = Fin (10 * (ln (1/8) / ln 10)).
Proof.
  unfold P0. db_eval. do 4 f_equal. lra.
Qed.

Lemma P0_offdiag_mean_db : offdiag_mean_db 1 2 P0 = Fin (10 * (ln (1/4) / ln 10)).
Proof.
  unfold P0. db_eval. do 4 f_equal. lra.
Qed.

Lemma I2_A0_ISR : ISR I2 A0 = Ok (Fin (10 * (ln (1/8) / ln 10))).
Proof.
  rewrite (ISR_eq I2 A0 0 1 I2_shape A0_shape).
  destruct I2_A0_scale_permute as [W' ->]. simpl. now rewrite P0_isr_db.
Qed.

Lemma ln_10_pos : 0 < ln 10.
Proof. rewrite <- ln_1. apply ln_increasing; lra. Qed.

Lemma db_lt x y : 0 < x -> x < y -> 10 * (ln x / ln 10) < 10 * (ln y / ln 10).
Proof.
  intros Hx Hxy. pose proof ln_10_pos as H10.
  pose proof (ln_increasing x y Hx Hxy) as Hln.
  apply Rmult_lt_compat_l; [lra|].
  unfold Rdiv. apply Rmult_lt_compat_r; auto.
  apply Rinv_0_lt_compat; auto.
Qed.

(** C2, as amended: for [W] and [A] with [F] frequency bins and [n]
    channels, whenever the scale and permutation correction succeeds with
    product [P], [ISR] returns [10 * log10 (S / (F * n * n))] where [S] sums
    [|P[f,r,c]|^2 / |P[f,r,r]|^2] over exactly the off-diagonal pairs
    [r <> c] and all frequency bins: the divisor is the size of the whole
    array, whose diagonal entries stay zero, not the number [F * n * (n-1)]
    of off-diagonal terms.  When the correction fails, [ISR] fails alike. *)
Theorem ISR_divides_by_whole_array_size (W A : tensor) (F n : nat) :
  (0 < F)%nat -> (0 < n)%nat ->
  has_shape F n n W -> has_shape F n n A ->
  ISR W A = (WP <- scale_permute W A ;;
             Ok (to_db (leakage_sum n (snd WP)) (F * n * n))).
Proof.
  intros HF Hn HW HA.
  destruct F as [|F]; [lia|]. destruct n as [|n]; [lia|].
  exact (ISR_eq W A F n HW HA).
Qed.

Lemma ISR_divides_by_whole_array_size_witness :
  ISR I2 A0 = (WP <- scale_permute I2 A0 ;;
               Ok (to_db (leakage_sum 2 (snd WP)) (1 * 2 * 2))).
Proof.
  apply (ISR_divides_by_whole_array_size I2 A0 1 2);
    [lia | lia | exact I2_shape | exact A0_shape].
Defined.

(** C2 as stated fails: on the identity filter against [A0] the corrected
    product is [P0], the average of the ratios over the off-diagonal pairs
    is [1/4], and [ISR] returns [10 * log10 (1/8)]. *)
Lemma ISR_not_offdiag_mean :
  (exists W', scale_permute I2 A0 = Ok (W', P0)) /\
  ISR I2 A0 <> Ok (offdiag_mean_db 1 2 P0).
Proof.
  split; [exact I2_A0_scale_permute|].
  rewrite I2_A0_ISR, P0_offdiag_mean_db. intros H. injection H as H.
  pose proof (db_lt (1/8) (1/4)). lra.
Qed.

(** ** A zero diagonal term *)

Lemma zabs_nn z : nonneg_or_special (zabs z).
Proof.
  destruct z as [[x| | |] [y| | |]]; simpl; auto. apply sqrt_pos.
Qed.

Lemma fsquare_nn a : nonneg_or_special a -> nonneg_or_special (fsquare a).
Proof.
  destruct a as [x| | |]; simpl; auto. intros H. apply Rmult_le_pos; auto.
Qed.

Lemma fdiv_nn a b :
  nonneg_or_special a -> nonneg_or_special b -> nonneg_or_special (fdiv a b).
Proof.
  destruct a as [x| | |], b as [y| | |]; simpl; auto; try lra; intros Hx Hy.
  - destruct (Req_dec_T y 0).
    + unfold Rsign_case. destruct (Rlt_dec x 0); [lra|].
      destruct (Rlt_dec 0 x); simpl; auto.
    + simpl. apply Rmult_le_pos; auto.
      apply Rlt_le, Rinv_0_lt_compat. lra.
  - destruct (Rlt_dec y 0); [lra | simpl; auto].
Qed.

Lemma ratio_entry_nn Pf r c : nonneg_or_special (ratio_entry Pf r c).
Proof. unfold ratio_entry. auto using fdiv_nn, fsquare_nn, zabs_nn. Qed.

Lemma fadd_nn a b :
  nonneg_or_special a -> nonneg_or_special b -> nonneg_or_special (fadd a b).
Proof. destruct a, b; simpl; auto; lra. Qed.

Lemma fadd_bad_l a b : inf_or_nan a -> nonneg_or_special b -> inf_or_nan (fadd a b).
Proof.
  unfold inf_or_nan. intros [->| ->] Hb; destruct b; simpl in *; auto; contradiction.
Qed.

Lemma fadd_bad_r a b : nonneg_or_special a -> inf_or_nan b -> inf_or_nan (fadd a b).
Proof.
  unfold inf_or_nan. intros Ha [->| ->]; destruct a; simpl in *; auto; contradiction.
Qed.

Lemma fold_fadd_nn l : forall acc,
  nonneg_or_special acc -> Forall nonneg_or_special l ->
  nonneg_or_special (fold_left fadd l acc).
Proof.
  induction l as [|x l IH]; intros acc Ha Hl; simpl; auto.
  inversion Hl; subst. apply IH; auto using fadd_nn.
Qed.

Lemma fold_fadd_bad_acc l : forall acc,
  inf_or_nan acc -> Forall nonneg_or_special l -> inf_or_nan (fold_left fadd l acc).
Proof.
  induction l as [|x l IH]; intros acc Ha Hl; simpl; auto.
  inversion Hl; subst. apply IH; auto using fadd_bad_l.
Qed.

Lemma fold_fadd_bad l : forall acc x,
  nonneg_or_special acc -> Forall nonneg_or_special l -> In x l -> inf_or_nan x ->
  inf_or_nan (fold_left fadd l acc).
Proof.
  induction l as [|y l IH]; intros acc x Ha Hl Hin Hx; [contradiction|].
  inversion Hl; subst. simpl. destruct Hin as [->|Hin].
  - apply fold_fadd_bad_acc; auto using fadd_bad_r.
  - apply (IH _ x); auto using fadd_nn.
Qed.

Lemma to_db_bad total count : inf_or_nan total -> inf_or_nan (to_db total count).
Proof.
  unfold to_db, inf_or_nan. intros [->| ->]; simpl; auto.
  destruct (Rlt_dec (INR count) 0) as [H|H].
  - pose proof (pos_INR count). lra.
  - simpl. unfold Rsign_case. destruct (Rlt_dec 10 0); [lra|].
    destruct (Rlt_dec 0 10); [auto | lra].
Qed.

Lemma ratio_entry_zero_diag Pf r c :
  nth r (nth r Pf []) znan = (Fin 0, Fin 0) -> inf_or_nan (ratio_entry Pf r c).
Proof.
  intros H. unfold ratio_entry. rewrite H.
  pose proof (fsquare_nn _ (zabs_nn (nth c (nth r Pf []) znan))) as Hn.
  destruct (fsquare (zabs (nth c (nth r Pf []) znan))) as [x| | |];
    unfold inf_or_nan; simpl in *; auto; try contradiction.
  - replace (0 * 0 + 0 * 0) with 0 by lra. rewrite sqrt_0.
    destruct (Req_dec_T (0 * 0) 0); [|lra].
    unfold Rsign_case. destruct (Rlt_dec x 0); [lra|].
    destruct (Rlt_dec 0 x); auto.
  - replace (0 * 0 + 0 * 0) with 0 by lra. rewrite sqrt_0.
    destruct (Rlt_dec (0 * 0) 0); [lra | auto].
Qed.

Lemma leakage_sum_zero_diag n P f r :
  (1 < n)%nat -> (f < length P)%nat -> (r < n)%nat ->
  zentry P f r r = (Fin 0, Fin 0) -> inf_or_nan (leakage_sum n P).
Proof.
  intros Hn Hf Hr Hz. unfold leakage_sum, fsum.
  pose (c := if Nat.eqb r 0 then 1%nat else 0%nat).
  apply fold_fadd_bad with (x := ratio_entry (nth f P []) r c).
  - simpl. lra.
  - apply Forall_forall. intros x Hx. apply in_flat_map in Hx.
    destruct Hx as [Pf [_ Hx]]. apply in_map_iff in Hx.
    destruct Hx as [rc [<- _]]. apply ratio_entry_nn.
  - apply in_flat_map. exists (nth f P []). split; [now apply nth_In|].
    apply in_map_iff. exists (r, c). split; auto.
    unfold offdiag_pairs. apply filter_In. split.
    + apply in_prod; apply in_seq; unfold c; destruct (Nat.eqb r 0); lia.
    + simpl. unfold c. destruct (Nat.eqb_spec r 0); subst; auto.
      destruct (Nat.eqb_spec r 0); auto; lia.
  - apply ratio_entry_zero_diag. exact Hz.
Qed.

Lemma Wz_shape : has_shape 1 2 2 Wz.
Proof. repeat constructor. Qed.

Lemma Wz_matmul : matmul Wz I2 = Wz.
Proof.
  cbv [matmul Wz I2 combine map matmul2 fst snd seq ncols length dot column nth
       fold_right Cadd Cmul C0].
  repeat (f_equal; try lra).
Qed.

Lemma Wz_max_abs : max_abs Wz = [[1; 1]].
Proof.
  cbv [max_abs Wz map row_max fold_right Cabs fst snd].
  r_eval. reflexivity.
Qed.

Lemma Wz_div_scale : div_scale Wz [[1; 1]] = Pz.
Proof.
  cbv [div_scale Wz Pz map combine fst snd zdiv fdiv].
  r_eval. repeat (f_equal; try lra).
Qed.

Lemma Pz_err_mat : err_mat 2 Pz = [[Fin 0; Fin 0]; [Fin 1; Fin 1]].
Proof.
  cbv [err_mat Pz map seq n_rows hd length flat_map app nth fmean fsum fold_left
       fsquare fabs fsub fadd fneg fmul eye Nat.eqb zabs INR fdiv].
  r_eval. repeat (f_equal; try lra).
Qed.

Lemma Pz_lsa :
  linear_sum_assignment [[Fin 0; Fin 0]; [Fin 1; Fin 1]] = Ok ([0; 1], [0; 1])%nat.
Proof. lsa_eval. reflexivity. Qed.

Lemma Wz_scale_permute : scale_permute Wz I2 = Ok (Pz, Pz).
Proof.
  unfold scale_permute. rewrite Wz_matmul, Wz_max_abs, Wz_div_scale.
  change (last_dim Wz) with 2%nat. rewrite Pz_err_mat, Pz_lsa. reflexivity.
Qed.

Lemma Pz_isr_db : isr_db 1 2 Pz = PInf.
Proof. unfold Pz. db_eval. reflexivity. Qed.

(** C3, as amended: when a diagonal term [P[f, r, r]] of the scale- and
    permutation-corrected product is exactly zero (two channels or more),
    [ISR] does not fail: it returns [inf] or [nan]. *)
Theorem ISR_zero_diagonal_returns_inf_or_nan
        (W A : tensor) (F n : nat) (W' P : ztensor) (f r : nat) :
  (1 < n)%nat ->
  has_shape F n n W -> has_shape F n n A ->
  scale_permute W A = Ok (W', P) ->
  (f < F)%nat -> (r < n)%nat ->
  zentry P f r r = (Fin 0, Fin 0) ->
  ISR W A = Ok PInf \/ ISR W A = Ok NaN.
Proof.
  intros Hn HW HA E Hf Hr Hz.
  destruct F as [|F]; [lia|]. destruct n as [|n]; [lia|].
  rewrite (ISR_eq W A F n HW HA), E. simpl.
  destruct (scale_permute_shape W A F n W' P HW HA E) as [_ [HPL _]].
  assert (H : inf_or_nan (isr_db (S F) (S n) P)).
  { apply to_db_bad. apply leakage_sum_zero_diag with (f := f) (r := r); auto; lia. }
  destruct H as [->| ->]; auto.
Qed.

Lemma ISR_zero_diagonal_returns_inf_or_nan_witness :
  ISR Wz I2 = Ok PInf \/ ISR Wz I2 = Ok NaN.
Proof.
  apply (ISR_zero_diagonal_returns_inf_or_nan Wz I2 1 2 Pz Pz 0 1);
    [lia | exact Wz_shape | exact I2_shape | exact Wz_scale_permute
     | lia | lia | reflexivity].
Defined.

(** C3 as stated fails: for [Wz] the corrected product is [Pz], whose
    diagonal term [(1, 1)] is zero, and [ISR] returns [inf] instead of
    failing. *)
Lemma ISR_zero_diagonal_no_error :
  scale_permute Wz I2 = Ok (Pz, Pz) /\
  zentry Pz 0 1 1 = (Fin 0, Fin 0) /\
  ISR Wz I2 = Ok PInf.
Proof.
  split; [exact Wz_scale_permute|]. split; [reflexivity|].
  rewrite (ISR_eq Wz I2 0 1 Wz_shape I2_shape), Wz_scale_permute. simpl.
  now rewrite Pz_isr_db.
Qed.

(** ** The division by the row maximum *)

Lemma Cabs_nonneg z : 0 <= Cabs z.
Proof. apply sqrt_pos. Qed.

Lemma Cabs_zero_iff z : Cabs z = 0 <-> z = C0.
Proof.
  destruct z as [x y]. unfold Cabs, C0. simpl. split.
  - intros H. apply sqrt_eq_0 in H; [|nra].
    assert (x = 0) by nra. assert (y = 0) by nra. subst. reflexivity.
  - intros H. injection H as -> ->.
    replace (0 * 0 + 0 * 0) with 0 by lra. apply sqrt_0.
Qed.

Lemma row_max_nonneg row : 0 <= row_max row.
Proof.
  unfold row_max. induction row as [|z row IH]; simpl; [lra|].
  eapply Rle_trans; [exact IH | apply Rmax_r].
Qed.

Lemma row_max_ge row z : In z row -> Cabs z <= row_max row.
Proof.
  unfold row_max. induction row as [|y row IH]; simpl; [contradiction|].
  intros [->|Hin].
  - apply Rmax_l.
  - eapply Rle_trans; [apply IH; auto | apply Rmax_r].
Qed.

Lemma row_max_zero row : (forall z, In z row -> z = C0) -> row_max row = 0.
Proof.
  unfold row_max. induction row as [|y row IH]; simpl; auto.
  intros H. rewrite IH by auto.
  rewrite (H y) by auto.
  replace (Cabs C0) with 0 by (symmetry; now apply Cabs_zero_iff).
  apply Rmax_left. lra.
Qed.

Lemma row_max_pos row z : In z row -> z <> C0 -> 0 < row_max row.
Proof.
  intros Hin Hz. pose proof (row_max_ge row z Hin) as H.
  pose proof (Cabs_nonneg z) as H0.
  destruct (Req_dec_T (Cabs z) 0) as [E|E]; [|lra].
  apply Cabs_zero_iff in E. contradiction.
Qed.

Lemma max_abs_nth P f r :
  nth r (nth f (max_abs P) []) 0 = row_max (nth r (nth f P []) []).
Proof.
  unfold max_abs.
  change (@nil R) with (map row_max []).
  rewrite (map_nth (map row_max) P [] f).
  change 0 with (row_max []) at 1.
  now rewrite (map_nth row_max).
Qed.

Lemma nth_map_combine {A B T} (g : A * B -> T) (l1 : list A) (l2 : list B) i d da db :
  (i < length l1)%nat -> (i < length l2)%nat ->
  nth i (map g (combine l1 l2)) d = g (nth i l1 da, nth i l2 db).
Proof.
  revert l2 i. induction l1 as [|x l1 IH]; intros [|y l2] [|i] H1 H2; simpl in *; try lia; auto.
  apply IH; lia.
Qed.

Lemma div_scale_entry (X : tensor) (Sc : list (list R)) F n f r k :
  has_shape F n n X -> length Sc = F -> Forall (fun s => length s = n) Sc ->
  (f < F)%nat -> (r < n)%nat -> (k < n)%nat ->
  zentry (div_scale X Sc) f r k = zdiv (centry X f r k) (nth r (nth f Sc []) 0).
Proof.
  intros [HL HX] HS HSn Hf Hr Hk. unfold zentry, centry, div_scale.
  assert (HXf : shape2 n n (nth f X [])).
  { rewrite Forall_forall in HX. apply HX. apply nth_In. lia. }
  assert (HSf : length (nth f Sc []) = n).
  { rewrite Forall_forall in HSn. apply HSn. apply nth_In. lia. }
  destruct HXf as [HXf HXr].
  rewrite (nth_map_combine _ X Sc f [] [] []) by lia. simpl.
  rewrite (nth_map_combine _ (nth f X []) (nth f Sc []) r [] [] 0) by lia. simpl.
  assert (Hrow : length (nth r (nth f X []) []) = n).
  { rewrite Forall_forall in HXr. apply HXr. apply nth_In. lia. }
  rewrite nth_indep with (d' := zdiv C0 (nth r (nth f Sc []) 0))
    by (rewrite length_map; lia).
  now rewrite (map_nth (fun z => zdiv z (nth r (nth f Sc []) 0))).
Qed.

Lemma zdiv_finite z s : s <> 0 -> zfinite (zdiv z s) = true.
Proof.
  intros Hs. unfold zfinite, zdiv. simpl.
  destruct (Req_dec_T s 0); [contradiction | reflexivity].
Qed.

Lemma zdiv_by_zero z : zfinite (zdiv z 0) = false.
Proof.
  unfold zfinite, zdiv. simpl.
  destruct (Req_dec_T 0 0) as [_|H]; [|lra].
  unfold Rsign_case.
  destruct (Rlt_dec (fst z) 0); auto. destruct (Rlt_dec 0 (fst z)); auto.
Qed.

Lemma zdiv_zero_by_zero : zdiv C0 0 = znan.
Proof.
  unfold zdiv, znan, C0. simpl.
  destruct (Req_dec_T 0 0) as [_|H]; [|lra].
  unfold Rsign_case.
  destruct (Rlt_dec 0 0); [lra | reflexivity].
Qed.

Lemma shape_entry_In (X : tensor) F n f r k :
  has_shape F n n X -> (f < F)%nat -> (r < n)%nat -> (k < n)%nat ->
  In (centry X f r k) (nth r (nth f X []) []).
Proof.
  intros [HL HX] Hf Hr Hk. unfold centry.
  assert (HXf : shape2 n n (nth f X [])).
  { rewrite Forall_forall in HX. apply HX. apply nth_In. lia. }
  destruct HXf as [HXf HXr].
  apply nth_In. rewrite Forall_forall in HXr.
  rewrite (HXr (nth r (nth f X []) [])); auto. apply nth_In. lia.
Qed.

Lemma shape_row_In (X : tensor) F n f r z :
  has_shape F n n X -> (f < F)%nat -> (r < n)%nat ->
  In z (nth r (nth f X []) []) -> exists k, (k < n)%nat /\ z = centry X f r k.
Proof.
  intros [HL HX] Hf Hr Hin. unfold centry.
  assert (HXf : shape2 n n (nth f X [])).
  { rewrite Forall_forall in HX. apply HX. apply nth_In. lia. }
  destruct HXf as [HXf HXr].
  apply (In_nth _ _ C0) in Hin. destruct Hin as [k [Hk <-]].
  exists k. split; auto. rewrite Forall_forall in HXr.
  rewrite (HXr (nth r (nth f X []) [])) in Hk; auto. apply nth_In. lia.
Qed.

Lemma Wrow0_matmul : matmul Wrow0 I2 = Wrow0.
Proof.
  cbv [matmul Wrow0 I2 combine map matmul2 fst snd seq ncols length dot column nth
       fold_right Cadd Cmul C0].
  repeat (f_equal; try lra).
Qed.

(** ** Task generation *)

Section GenArgs.
Context `{NP : Numpy}.

Variables (frames : nat) (dist : string) (algs : dict algo_spec) (q : nat).
Variable n_repeat : nat.

Lemma gen_inner_loop ip : forall (l : list nat) acc g,
  fold_left (gen_args_step frames dist algs q ip) l (acc, g)
  = (acc ++ map (mk_args frames dist algs q ip) (draws (length l) g),
     advance (length l) g).
Proof.
  induction l as [|x l IH]; intros acc g; cbn [fold_left length draws advance map].
  - now rewrite app_nil_r.
  - unfold gen_args_step at 2. cbn [fst snd].
    destruct (np_random_randint (2 ^ 32) g) as [s g'] eqn:E. cbn [fst snd].
    rewrite IH, <- app_assoc. reflexivity.
Qed.

Lemma draws_app a b : forall g,
  draws (a + b) g = draws a g ++ draws b (advance a g).
Proof.
  induction a as [|a IH]; intros g; cbn [Nat.add draws advance app]; auto.
  now rewrite IH.
Qed.

Lemma advance_add a b : forall g, advance (a + b) g = advance b (advance a g).
Proof. induction a as [|a IH]; intros g; cbn [Nat.add advance]; auto. Qed.

Lemma gen_outer_loop : forall (ips : list (nat * scenario)) acc g,
  fold_left (fun st ip => fold_left (gen_args_step frames dist algs q ip)
                                    (seq 0 n_repeat) st) ips (acc, g)
  = (acc ++ tasks_of frames dist algs q n_repeat ips g,
     advance (length ips * n_repeat) g).
Proof.
  induction ips as [|ip ips IH]; intros acc g;
    cbn [fold_left length Nat.mul tasks_of].
  - now rewrite app_nil_r.
  - rewrite gen_inner_loop, length_seq, IH, <- app_assoc, advance_add. reflexivity.
Qed.

Lemma tasks_of_seed : forall ips g,
  map seed (tasks_of frames dist algs q n_repeat ips g)
  = draws (length ips * n_repeat) g.
Proof.
  induction ips as [|ip ips IH]; intros g; cbn [tasks_of length Nat.mul map]; auto.
  rewrite map_app, map_map, IH, draws_app. f_equal.
  clear. generalize (draws n_repeat g). intros l.
  induction l; simpl; auto. now f_equal.
Qed.

Lemma length_draws : forall k g, length (draws k g) = k.
Proof. induction k; intros g; cbn [draws length]; auto. Qed.

Lemma tasks_of_index : forall ips g,
  map param_index (tasks_of frames dist algs q n_repeat ips g)
  = flat_map (fun ip => repeat (fst ip) n_repeat) ips.
Proof.
  induction ips as [|ip ips IH]; intros g; cbn [tasks_of flat_map map]; auto.
  rewrite map_app, map_map, IH. f_equal.
  rewrite <- (length_draws n_repeat g) at 2.
  generalize (draws n_repeat g). intros l.
  induction l; simpl; auto. now f_equal.
Qed.

Lemma tasks_of_algos : forall ips g,
  Forall (fun a => algos a = algs) (tasks_of frames dist algs q n_repeat ips g).
Proof.
  induction ips as [|ip ips IH]; intros g; cbn [tasks_of]; auto.
  apply Forall_app. split; auto.
  apply Forall_forall. intros a Ha. apply in_map_iff in Ha.
  destruct Ha as [s [<- _]]. reflexivity.
Qed.

Lemma gen_args_eq params (master_seed : Z) (g : rng) :
  gen_args master_seed n_repeat params frames dist algs q g
  = (tasks_of frames dist algs q n_repeat (enumerate params)
              (np_random_seed master_seed),
     advance (length params * n_repeat) (np_random_seed master_seed)).
Proof.
  unfold gen_args.
  rewrite gen_outer_loop. unfold enumerate.
  rewrite length_combine, length_seq, Nat.min_id. reflexivity.
Qed.

End GenArgs.

Lemma flat_map_enumerate {A B} (f : nat -> list B) (l : list A) : forall s,
  flat_map (fun ip => f (fst ip)) (combine (seq s (length l)) l)
  = flat_map f (seq s (length l)).
Proof.
  induction l as [|x l IH]; intros s; simpl; auto. now rewrite IH.
Qed.

Lemma gen_args_index `{NP : Numpy} master_seed n_repeat params frames dist algs q g :
  map param_index (fst (gen_args master_seed n_repeat params frames dist algs q g))
  = flat_map (fun i => repeat i n_repeat) (seq 0 (length params)).
Proof.
  rewrite gen_args_eq. cbn [fst]. rewrite tasks_of_index. unfold enumerate.
  apply (flat_map_enumerate (fun i => repeat i n_repeat)).
Qed.

(** C5: the task list depends on the master seed, the repeat count and the
    configuration only.  [gen_args] reseeds the process-wide generator, so
    the state it finds there ([g] or [g']) is irrelevant; no worker count
    enters.  The seeds of the tasks are, in order, the first
    [len(params) * n_repeat] draws of the one stream seeded with the master
    seed, and task number [i * n_repeat + r] belongs to parameter set [i]. *)
Theorem gen_args_reproducible `{NP : Numpy}
        (master_seed : Z) (n_repeat : nat) (params : list scenario)
        (frames : nat) (dist : string) (algs : dict algo_spec) (q : nat)
        (g g' : rng) :
  fst (gen_args master_seed n_repeat params frames dist algs q g)
  = fst (gen_args master_seed n_repeat params frames dist algs q g')
  /\ map seed (fst (gen_args master_seed n_repeat params frames dist algs q g))
     = draws (length params * n_repeat) (np_random_seed master_seed)
  /\ map param_index (fst (gen_args master_seed n_repeat params frames dist algs q g))
     = flat_map (fun i => repeat i n_repeat) (seq 0 (length params)).
Proof.
  rewrite !gen_args_eq. cbn [fst]. split; [reflexivity|]. split.
  - rewrite tasks_of_seed. unfold enumerate.
    now rewrite length_combine, length_seq, Nat.min_id.
  - rewrite <- (gen_args_index master_seed n_repeat params frames dist algs q g).
    now rewrite gen_args_eq.
Qed.

(** ** Completion signals *)

Lemma I2_I2_matmul : matmul I2 I2 = I2.
Proof.
  cbv [matmul I2 combine map matmul2 fst snd seq ncols length dot column nth
       fold_right Cadd Cmul C0].
  repeat (f_equal; try lra).
Qed.

Lemma I2_max_abs : max_abs I2 = [[1; 1]].
Proof.
  cbv [max_abs I2 map row_max fold_right Cabs fst snd].
  r_eval. reflexivity.
Qed.

Lemma I2_div_scale : div_scale I2 [[1; 1]] = PI2.
Proof.
  cbv [div_scale I2 PI2 map combine fst snd zdiv fdiv].
  r_eval. repeat (f_equal; try lra).
Qed.

Lemma PI2_err_mat : err_mat 2 PI2 = [[Fin 0; Fin 1]; [Fin 1; Fin 0]].
Proof.
  cbv [err_mat PI2 map seq n_rows hd length flat_map app nth fmean fsum fold_left
       fsquare fabs fsub fadd fneg fmul eye Nat.eqb zabs INR fdiv].
  r_eval. repeat (f_equal; try lra).
Qed.

Lemma PI2_lsa :
  linear_sum_assignment [[Fin 0; Fin 1]; [Fin 1; Fin 0]] = Ok ([0; 1], [0; 1])%nat.
Proof. lsa_eval. reflexivity. Qed.

Lemma I2_I2_scale_permute : scale_permute I2 I2 = Ok (PI2, PI2).
Proof.
  unfold scale_permute. rewrite I2_I2_matmul, I2_max_abs, I2_div_scale.
  change (last_dim I2) with 2%nat. rewrite PI2_err_mat, PI2_lsa. reflexivity.
Qed.

Lemma PI2_isr_db : isr_db 1 2 PI2 = NInf.
Proof. unfold PI2. db_eval. reflexivity. Qed.

Lemma I2_I2_ISR : ISR I2 I2 = Ok NInf.
Proof.
  rewrite (ISR_eq I2 I2 0 1 I2_shape I2_shape), I2_I2_scale_permute. simpl.
  now rewrite PI2_isr_db.
Qed.

Section Signals.
Context `{B : Bss}.

Lemma one_loop_queue (a : args) (q : list bool) :
  match one_loop a q with
  | (Ok _, q') => q' = q ++ [true]
  | (Raise _, q') => q' = q
  end.
Proof.
  unfold one_loop.
  destruct (bss_rand_mixture _ _ _ _ _) as [[mix ref_] mix_mat].
  destruct (init_state a mix _) as [Y_init demix_init].
  destruct (run_algos _ _ _ _ _ _ _ _ _) as [[isr cost]|e]; reflexivity.
Qed.

Lemma run_tasks_queue : forall (l : list args) (q : list bool),
  length (fst (run_tasks l q)) = length l /\
  length (snd (run_tasks l q)) = (length q + length (filter is_ok (fst (run_tasks l q))))%nat.
Proof.
  induction l as [|a l IH]; intros q; simpl; [lia|].
  pose proof (one_loop_queue a q) as H1.
  destruct (one_loop a q) as [r q1].
  destruct (IH q1) as [IHa IHb].
  destruct (run_tasks l q1) as [rs q2]. simpl in *.
  split; [lia|].
  destruct r; simpl; subst q1; rewrite IHb; [rewrite length_app; simpl|]; lia.
Qed.

Lemma tracker_loop_done : forall n q printed,
  (exists p, tracker_loop n q printed = AllDone p) <-> (n <= length q)%nat.
Proof.
  induction n as [|n IH]; intros q printed; simpl.
  - split; [lia | eauto].
  - destruct q as [|x q]; simpl.
    + split; [intros [p Hp]; discriminate | lia].
    + rewrite IH. lia.
Qed.

Lemma filter_all_length {A} (f : A -> bool) (l : list A) :
  length (filter f l) = length l <-> forallb f l = true.
Proof.
  induction l as [|x l IH]; simpl; [tauto|].
  pose proof (filter_length_le f l).
  destruct (f x); simpl; [rewrite <- IH; lia | split; [lia | discriminate]].
Qed.

End Signals.

(** C8, as amended: a task posts its completion signal as its last action,
    so a task that returns normally posts exactly one signal and a task
    that raises posts none.  Over a whole task list the queue thus receives
    one signal per task that returned normally, and the progress tracker,
    which waits for as many signals as there are tasks, finishes exactly
    when no task has raised. *)
Theorem completion_signal_only_on_success `{B : Bss}
        (a : args) (q : list bool) (tasks : list args) :
  match one_loop a q with
  | (Ok _, q') => q' = q ++ [true]
  | (Raise _, q') => q' = q
  end
  /\ length (snd (run_tasks tasks [])) = length (filter is_ok (fst (run_tasks tasks [])))
  /\ ((exists printed,
         progress_tracker (length tasks) (snd (run_tasks tasks [])) = AllDone printed)
      <-> forallb is_ok (fst (run_tasks tasks [])) = true).
Proof.
  split; [apply one_loop_queue|].
  destruct (run_tasks_queue tasks []) as [HL HQ]. simpl in HQ.
  split; [exact HQ|].
  unfold progress_tracker. rewrite tracker_loop_done, HQ, <- filter_all_length.
  pose proof (filter_length_le is_ok (fst (run_tasks tasks []))). lia.
Qed.

Lemma task0_fails :
  @one_loop counter_numpy (stub_bss run_fails I2) task0 []
  = (Raise (AlgorithmError "singular matrix"), []).
Proof.
  unfold one_loop. cbn [stub_bss bss_rand_mixture counter_numpy np_random_seed task0
                        seed n_freq n_chan n_frames distrib Z.eqb].
  change (eye_tensor 1 2) with I2.
  unfold init_state. cbn [task0 use_pca algos one_algo run_algos].
  unfold run_algo at 1.
  cbn [stub_bss bss_is_dual_update bss_algos algo dict_get String.eqb Ascii.eqb
       Bool.eqb bind andb].
  unfold callback at 1. rewrite I2_I2_matmul, I2_I2_ISR.
  reflexivity.
Qed.

(** C8 as stated fails: a task whose separation routine raises leaves the
    queue as it was, and the tracker waiting for that one task stays
    blocked with one task remaining. *)
Lemma failed_task_posts_no_signal :
  @one_loop counter_numpy (stub_bss run_fails I2) task0 []
  = (Raise (AlgorithmError "singular matrix"), [])
  /\ progress_tracker 1 (snd (@run_tasks counter_numpy (stub_bss run_fails I2) [task0] []))
     = Waiting 1 [1%nat].
Proof.
  split; [exact task0_fails|].
  cbn [run_tasks]. rewrite task0_fails. reflexivity.
Qed.

(** ** Checkpoints *)

Lemma arange_from_2_step_2 (n : Z) :
  arange 2 (n + 1) 2 = map (fun k => (2 * Z.of_nat k)%Z) (seq 1 (Z.to_nat (n / 2))).
Proof.
  unfold arange.
  replace (n + 1 - 2 + 2 - 1)%Z with n by lia.
  rewrite <- seq_shift, map_map. apply map_ext. intros k. lia.
Qed.

Lemma arange_from_1_step_1 (n : Z) :
  arange 1 (n + 1) 1 = map Z.of_nat (seq 1 (Z.to_nat n)).
Proof.
  unfold arange.
  replace ((n + 1 - 1 + 1 - 1) / 1)%Z with n by (rewrite Z.div_1_r; lia).
  rewrite <- seq_shift, map_map. apply map_ext. intros k. lia.
Qed.

(** The two [np.arange] calls of [one_loop], written out. *)
Lemma callback_checkpoints_closed_form (dual : bool) (iters : Z) :
  callback_checkpoints dual iters = checkpoint_iterations dual iters.
Proof.
  unfold callback_checkpoints, checkpoint_iterations. destruct dual.
  - apply arange_from_2_step_2.
  - apply arange_from_1_step_1.
Qed.

Lemma checkpoint_iterations_members (dual : bool) (iters k : Z) :
  In k (checkpoint_iterations dual iters)
  <-> if dual then (2 <= k <= iters /\ Z.even k = true)%Z else (1 <= k <= iters)%Z.
Proof.
  unfold checkpoint_iterations. destruct dual.
  - rewrite in_map_iff. split.
    + intros [j [<- Hj]]. apply in_seq in Hj.
      assert (Z.of_nat j <= iters / 2)%Z by lia.
      assert (0 <= iters / 2)%Z by lia.
      pose proof (Z.mul_div_le iters 2 ltac:(lia)).
      split; [lia|]. rewrite Z.even_mul. reflexivity.
    + intros [[H2 Hn] He]. exists (Z.to_nat (k / 2)).
      apply Z.even_spec in He. destruct He as [m ->].
      assert (E : (2 * m / 2 = m)%Z) by (rewrite Z.mul_comm; apply Z.div_mul; lia).
      rewrite E. split; [lia|].
      apply in_seq.
      assert (m <= iters / 2)%Z by (apply Z.div_le_lower_bound; lia).
      lia.
  - rewrite in_map_iff. split.
    + intros [j [<- Hj]]. apply in_seq in Hj. lia.
    + intros H. exists (Z.to_nat k). split; [lia|]. apply in_seq. lia.
Qed.

(** ** Aggregation *)

Lemma dict_get_set_same {V} (d : dict V) k v : dict_get (dict_set d k v) k = Ok v.
Proof.
  induction d as [|[k' v'] d IH]; simpl.
  - now rewrite String.eqb_refl.
  - destruct (String.eqb_spec k k') as [->|Hne]; simpl.
    + now rewrite String.eqb_refl.
    + destruct (String.eqb_spec k k'); [contradiction | exact IH].
Qed.

Lemma dict_get_set_other {V} (d : dict V) k k' v :
  k <> k' -> dict_get (dict_set d k v) k' = dict_get d k'.
Proof.
  intros Hne. induction d as [|[k0 v0] d IH]; simpl.
  - destruct (String.eqb_spec k' k); [congruence | reflexivity].
  - destruct (String.eqb_spec k k0) as [->|Hk]; simpl.
    + destruct (String.eqb_spec k' k0); [congruence | reflexivity].
    + destruct (String.eqb_spec k' k0); [reflexivity | exact IH].
Qed.

Lemma has_key_set {V} (d : dict V) k v k' :
  has_key (dict_set d k v) k' <-> k = k' \/ has_key d k'.
Proof.
  unfold has_key. destruct (string_dec k k') as [->|Hne].
  - rewrite dict_get_set_same. split; eauto.
  - rewrite dict_get_set_other by auto. split; [eauto | intros [?|?]; [contradiction | auto]].
Qed.

Lemma nth_list_set_other {A} (l : list A) k j v d :
  j <> k -> nth j (list_set l k v) d = nth j l d.
Proof.
  intros Hne. rewrite nth_list_set.
  destruct (Nat.eqb_spec j k); [contradiction | reflexivity].
Qed.

Lemma list_get_ok {A} (l : list A) k d : (k < length l)%nat -> list_get l k = Ok (nth k l d).
Proof.
  intros Hk. unfold list_get. now rewrite (nth_error_nth' l d Hk).
Qed.

(** *** [table_append] and the two loops over it *)

Lemma table_append_ok tables pi name d rows row :
  (pi < length tables)%nat ->
  cell tables pi name = Ok rows -> dict_get d name = Ok row ->
  exists tables',
    table_append tables pi name d = Ok tables' /\
    length tables' = length tables /\
    forall i name',
      cell tables' i name' =
      if Nat.eqb i pi && String.eqb name' name then Ok (rows ++ [row])
      else cell tables i name'.
Proof.
  intros Hpi Hc Hd. unfold table_append, cell in *.
  rewrite (list_get_ok tables pi []) by auto. simpl.
  rewrite Hc, Hd. simpl. eexists. split; [reflexivity|].
  split; [apply length_list_set|].
  intros i name'.
  destruct (Nat.eqb_spec i pi) as [->|Hi]; simpl.
  - rewrite nth_list_set_eq by auto.
    destruct (String.eqb_spec name' name) as [->|Hn].
    + apply dict_get_set_same.
    + apply dict_get_set_other. congruence.
  - now rewrite nth_list_set_other.
Qed.

Lemma mem_string_In k l : mem_string k l = true <-> In k l.
Proof.
  unfold mem_string. rewrite existsb_exists. split.
  - intros [x [Hin Hx]]. apply String.eqb_eq in Hx. now subst.
  - intros Hin. exists k. split; auto. apply String.eqb_refl.
Qed.

Lemma distribute_one_ok : forall names res IT CT,
  NoDup names ->
  (pi_of res < length IT)%nat -> (pi_of res < length CT)%nat ->
  (forall name, In name names ->
     has_key (nth (pi_of res) IT []) name /\ has_key (nth (pi_of res) CT []) name /\
     has_key (isr_of res) name /\ has_key (cost_of res) name) ->
  exists IT' CT',
    distribute_one names res (IT, CT) = Ok (IT', CT') /\
    appended IT (pi_of res) names (isr_of res) IT' /\
    appended CT (pi_of res) names (cost_of res) CT'.
Proof.
  induction names as [|name names IH]; intros [[pi isr] cost] IT CT ND HI HC Hk.
  - exists IT, CT. simpl. split; auto.
    split; (split; [reflexivity|]); intros i nm; now rewrite andb_false_r.
  - unfold pi_of, isr_of, cost_of in *. cbn [fst snd] in *.
    inversion ND as [|? ? Hnotin ND']; subst.
    destruct (Hk name (or_introl eq_refl)) as [[ri Hri] [[rc Hrc] [[vi Hvi] [vc Hvc]]]].
    destruct (table_append_ok IT pi name isr ri vi HI Hri Hvi) as [IT1 [E1 [L1 C1']]].
    destruct (table_append_ok CT pi name cost rc vc HC Hrc Hvc) as [CT1 [E2 [L2 C2']]].
    destruct (IH (pi, isr, cost) IT1 CT1 ND') as [IT' [CT' [E [[LA HA] [LB HB]]]]].
    + cbn [pi_of fst]. lia.
    + cbn [pi_of fst]. lia.
    + intros nm Hnm. unfold pi_of, isr_of, cost_of. cbn [fst snd].
      destruct (Hk nm (or_intror Hnm)) as [[a Ha] [[b Hb] [Hc Hd]]].
      assert (Hne : nm <> name) by (intros ->; contradiction).
      unfold has_key. fold (cell IT1 pi nm). fold (cell CT1 pi nm).
      rewrite C1', C2'. rewrite Nat.eqb_refl.
      destruct (String.eqb_spec nm name); [contradiction|]. simpl.
      unfold cell. unfold has_key in Hc, Hd. repeat split; eauto.
    + exists IT', CT'. unfold pi_of, isr_of, cost_of in *. cbn [fst snd] in *.
      split.
      { cbn [distribute_one fst snd]. rewrite E1. cbn [bind]. rewrite E2. cbn [bind]. exact E. }
      split; (split; [lia|]); intros i nm.
      * rewrite HA, C1'. cbn [mem_string existsb].
        destruct (Nat.eqb_spec i pi) as [->|Hi]; simpl; auto.
        destruct (String.eqb_spec nm name) as [->|Hn]; simpl.
        -- destruct (mem_string name names) eqn:Em.
           ++ apply mem_string_In in Em. contradiction.
           ++ unfold cell at 1. rewrite Hri. unfold dict_val. now rewrite Hvi.
        -- reflexivity.
      * rewrite HB, C2'. cbn [mem_string existsb].
        destruct (Nat.eqb_spec i pi) as [->|Hi]; simpl; auto.
        destruct (String.eqb_spec nm name) as [->|Hn]; simpl.
        -- destruct (mem_string name names) eqn:Em.
           ++ apply mem_string_In in Em. contradiction.
           ++ unfold cell at 1. rewrite Hrc. unfold dict_val. now rewrite Hvc.
        -- reflexivity.
Qed.

Lemma appended_cells_exist n names T pi d T' :
  cells_exist n names T -> appended T pi names d T' -> cells_exist n names T'.
Proof.
  intros [HL HK] [HL' HC]. split; [lia|].
  intros i name Hi Hn. specialize (HK i name Hi Hn). destruct HK as [rows Hr].
  unfold has_key. fold (cell T' i name). rewrite HC.
  unfold cell at 1 2. rewrite Hr.
  destruct (Nat.eqb i pi && mem_string name names); eauto.
Qed.

Lemma distribute_ok n names : NoDup names -> forall results IT CT,
  cells_exist n names IT -> cells_exist n names CT ->
  Forall (good_result n names) results ->
  exists IT' CT',
    distribute names results (IT, CT) = Ok (IT', CT') /\
    forall i name rows_i rows_c,
      (i < n)%nat -> In name names ->
      cell IT i name = Ok rows_i -> cell CT i name = Ok rows_c ->
      cell IT' i name = Ok (rows_i ++ rows_of isr_of i name results) /\
      cell CT' i name = Ok (rows_c ++ rows_of cost_of i name results).
Proof.
  intros ND. induction results as [|res results IH]; intros IT CT HI HC HG.
  - exists IT, CT. split; [reflexivity|]. intros i name ri rc _ _ Hi Hc.
    unfold rows_of. simpl. now rewrite !app_nil_r.
  - inversion HG as [|? ? [Hpi Hkeys] HG']; subst.
    destruct (distribute_one_ok names res IT CT ND) as [IT1 [CT1 [E [A1 A2]]]].
    + destruct HI as [-> _]. exact Hpi.
    + destruct HC as [-> _]. exact Hpi.
    + intros name Hn. destruct (Hkeys name Hn) as [K1 K2].
      destruct HI as [_ HI]. destruct HC as [_ HC]. auto.
    + destruct (IH IT1 CT1) as [IT' [CT' [E' Hcells]]];
        eauto using appended_cells_exist.
      exists IT', CT'. split.
      { cbn [distribute]. rewrite E. exact E'. }
      intros i name ri rc Hi Hn Hci Hcc.
      destruct A1 as [_ A1]. destruct A2 as [_ A2].
      specialize (A1 i name). specialize (A2 i name).
      rewrite Hci in A1. rewrite Hcc in A2.
      assert (Hm : mem_string name names = true) by (now apply mem_string_In).
      rewrite Hm, andb_true_r in A1, A2.
      unfold rows_of. cbn [filter]. rewrite (Nat.eqb_sym (pi_of res) i).
      destruct (Nat.eqb i (pi_of res)).
      * destruct (Hcells i name _ _ Hi Hn A1 A2) as [R1 R2].
        rewrite R1, R2. cbn [map]. rewrite <- !app_assoc. split; reflexivity.
      * exact (Hcells i name _ _ Hi Hn A1 A2).
Qed.

Lemma empty_table_get (algs : dict algo_spec) name :
  In name (map fst algs) -> dict_get (empty_table algs) name = Ok [].
Proof.
  unfold empty_table.
  assert (G : forall ks (d : table),
             (In name ks \/ dict_get d name = Ok []) ->
             dict_get (fold_left (fun d k => dict_set d k []) ks d) name = Ok []).
  { induction ks as [|k ks IH]; intros d Hd; simpl.
    - destruct Hd as [[]|Hd]; exact Hd.
    - apply IH. destruct (string_dec k name) as [->|Hne].
      + right. apply dict_get_set_same.
      + destruct Hd as [[Hk|Hin]|Hd]; [contradiction | auto |].
        right. now rewrite dict_get_set_other. }
  intros Hin. apply G. auto.
Qed.

Lemma empty_tables_exist (algs : dict algo_spec) (params : list scenario) :
  cells_exist (length params) (map fst algs) (map (fun _ => empty_table algs) params).
Proof.
  split; [apply length_map|]. intros i name Hi Hn.
  exists []. rewrite nth_indep with (d' := empty_table algs) by (now rewrite length_map).
  pose proof (map_nth (fun _ : scenario => empty_table algs) params
                      {| p_n_freq := 0; p_n_chan := 0; p_pca := false |} i) as E.
  cbv beta in E. rewrite E. now apply empty_table_get.
Qed.

Lemma empty_tables_cell (algs : dict algo_spec) (params : list scenario) i name :
  (i < length params)%nat -> In name (map fst algs) ->
  cell (map (fun _ => empty_table algs) params) i name = Ok [].
Proof.
  intros Hi Hn. unfold cell.
  rewrite nth_indep with (d' := empty_table algs) by (now rewrite length_map).
  pose proof (map_nth (fun _ : scenario => empty_table algs) params
                      {| p_n_freq := 0; p_n_chan := 0; p_pca := false |} i) as E.
  cbv beta in E. rewrite E. now apply empty_table_get.
Qed.

(** *** What the trials hand to the aggregation *)

Section Trials.
Context `{B : Bss}.

Lemma run_algos_keys a mix Y_init demix_init mix_mat eye_ :
  forall items isr cost isr' cost',
    run_algos a mix Y_init demix_init mix_mat eye_ items isr cost = Ok (isr', cost') ->
    forall name,
      (In name (map fst items) \/ has_key isr name -> has_key isr' name) /\
      (In name (map fst items) \/ has_key cost name -> has_key cost' name).
Proof.
  induction items as [|[k pmt] items IH]; intros isr cost isr' cost' E name; simpl in E.
  - injection E as <- <-. split; intros [[]|Hk]; exact Hk.
  - destruct (run_algo a mix Y_init demix_init mix_mat eye_ pmt) as [st|e];
      simpl in E; [|discriminate].
    destruct (IH _ _ _ _ E name) as [H1 H2].
    split; intros Hk.
    + apply H1. destruct Hk as [[Hk|Hk]|Hk]; auto;
        right; apply has_key_set; auto.
    + apply H2. destruct Hk as [[Hk|Hk]|Hk]; auto;
        right; apply has_key_set; auto.
Qed.

Lemma one_loop_result a q res q' :
  one_loop a q = (Ok res, q') ->
  pi_of res = param_index a /\
  forall name, In name (map fst (algos a)) ->
               has_key (isr_of res) name /\ has_key (cost_of res) name.
Proof.
  unfold one_loop.
  destruct (bss_rand_mixture _ _ _ _ _) as [[mix ref_] mix_mat].
  destruct (init_state a mix _) as [Y_init demix_init].
  destruct (run_algos _ _ _ _ _ _ _ _ _) as [[isr cost]|e] eqn:E; [|discriminate].
  intros Hr. injection Hr as <- <-. split; [reflexivity|].
  intros name Hn. destruct (run_algos_keys _ _ _ _ _ _ _ _ _ _ _ E name) as [H1 H2].
  unfold isr_of, cost_of. simpl. auto.
Qed.

Lemma one_loop_trial a q : fst (one_loop a q) = trial a.
Proof.
  unfold trial, one_loop.
  destruct (bss_rand_mixture _ _ _ _ _) as [[mix ref_] mix_mat].
  destruct (init_state a mix _) as [Y_init demix_init].
  destruct (run_algos _ _ _ _ _ _ _ _ _) as [[isr cost]|e]; reflexivity.
Qed.

Lemma trial_result_good a res :
  trial a = Ok res ->
  pi_of res = param_index a /\
  forall name, In name (map fst (algos a)) ->
               has_key (isr_of res) name /\ has_key (cost_of res) name.
Proof.
  unfold trial. destruct (one_loop a []) as [r q'] eqn:E. simpl.
  intros ->. eapply one_loop_result; eauto.
Qed.

Lemma collect_run_tasks : forall l q results,
  collect (fst (run_tasks l q)) = Ok results ->
  Forall2 (fun a res => trial a = Ok res) l results.
Proof.
  induction l as [|a l IH]; intros q results E; simpl in E.
  - injection E as <-. constructor.
  - pose proof (one_loop_trial a q) as Ht.
    destruct (one_loop a q) as [r q1]. simpl in Ht.
    specialize (IH q1).
    destruct (run_tasks l q1) as [rs q2]. simpl in *.
    destruct r as [res|e]; simpl in E; [|discriminate].
    destruct (collect rs) as [xs|e]; simpl in E; [|discriminate].
    injection E as <-. constructor; auto.
Qed.

Lemma collect_all_ok {A} : forall (rs : list (result A)),
  forallb is_ok rs = true -> exists xs, collect rs = Ok xs.
Proof.
  induction rs as [|r rs IH]; simpl; intros Hok; [eauto|].
  apply andb_prop in Hok. destruct Hok as [Hr Hrs].
  destruct r as [x|e]; [|discriminate]. destruct (IH Hrs) as [xs ->].
  simpl. eauto.
Qed.

End Trials.

Lemma filter_flat_repeat i R : forall n s,
  length (filter (fun j => Nat.eqb j i) (flat_map (fun j => repeat j R) (seq s n)))
  = if (s <=? i) && (i <? s + n) then R else 0%nat.
Proof.
  assert (Hrep : forall j, length (filter (fun j => Nat.eqb j i) (repeat j R))
                           = if Nat.eqb j i then R else 0%nat).
  { intros j. induction R as [|R IH]; simpl.
    - now destruct (Nat.eqb j i).
    - destruct (Nat.eqb j i) eqn:E; simpl; rewrite IH; auto. }
  induction n as [|n IH]; intros s; simpl.
  - destruct (Nat.leb_spec s i), (Nat.ltb_spec i (s + 0)); simpl; auto; lia.
  - rewrite filter_app, length_app, Hrep, IH.
    destruct (Nat.eqb_spec s i), (Nat.leb_spec (S s) i), (Nat.ltb_spec i (S s + n)),
      (Nat.leb_spec s i), (Nat.ltb_spec i (s + S n)); simpl; lia.
Qed.

Lemma filter_map_length {A B} (f : A -> B) (p : B -> bool) (l : list A) :
  length (filter (fun x => p (f x)) l) = length (filter p (map f l)).
Proof.
  induction l as [|x l IH]; simpl; auto. destruct (p (f x)); simpl; now rewrite IH.
Qed.

Lemma permutation_filter_length {A} (p : A -> bool) (l l' : list A) :
  Permutation l l' -> length (filter p l) = length (filter p l').
Proof.
  induction 1; simpl; auto.
  - destruct (p x); simpl; now rewrite IHPermutation.
  - destruct (p x), (p y); reflexivity.
  - congruence.
Qed.

Lemma dict_val_get {V} (d : dict (list V)) k :
  has_key d k -> dict_get d k = Ok (dict_val d k).
Proof. intros [v Hv]. unfold dict_val. now rewrite Hv. Qed.

Lemma rows_of_follow `{B : Bss} (proj : trial_result -> dict (list npfloat)) i name :
  forall l results,
    Forall2 (fun a res => trial a = Ok res /\ pi_of res = param_index a /\
                          has_key (proj res) name) l results ->
    Forall2 (fun a row => exists res, trial a = Ok res /\ dict_get (proj res) name = Ok row)
            (filter (fun a => Nat.eqb (param_index a) i) l)
            (rows_of proj i name results).
Proof.
  induction 1 as [|a res l results [Ht [Hpi Hk]] HF IH]; unfold rows_of in *; simpl.
  - constructor.
  - rewrite Hpi. destruct (Nat.eqb (param_index a) i); simpl; auto.
    constructor; auto. exists res. split; auto. now apply dict_val_get.
Qed.

Lemma rows_of_length `{B : Bss} (proj : trial_result -> dict (list npfloat)) i name :
  forall l results,
    Forall2 (fun a res => trial a = Ok res /\ pi_of res = param_index a /\
                          has_key (proj res) name) l results ->
    length (rows_of proj i name results)
    = length (filter (fun a => Nat.eqb (param_index a) i) l).
Proof.
  intros l results HF. apply rows_of_follow with (i := i) in HF.
  symmetry. eapply Forall2_length; eauto.
Qed.

Lemma gen_args_tasks `{NP : Numpy} master_seed n_repeat params frames dist algs q g :
  let tasks := fst (gen_args master_seed n_repeat params frames dist algs q g) in
  Forall (fun a => algos a = algs /\ (param_index a < length params)%nat) tasks /\
  forall i, (i < length params)%nat ->
            length (filter (fun a => Nat.eqb (param_index a) i) tasks) = n_repeat.
Proof.
  intros tasks.
  pose proof (gen_args_index master_seed n_repeat params frames dist algs q g) as Hidx.
  fold tasks in Hidx.
  assert (Halg : Forall (fun a => algos a = algs) tasks).
  { unfold tasks. rewrite gen_args_eq. apply tasks_of_algos. }
  split.
  - rewrite Forall_forall in *. intros a Ha. split; auto.
    assert (Hin : In (param_index a) (map param_index tasks)) by (now apply in_map).
    rewrite Hidx in Hin. apply in_flat_map in Hin. destruct Hin as [j [Hj Hr]].
    apply repeat_spec in Hr. apply in_seq in Hj. lia.
  - intros i Hi.
    rewrite (filter_map_length param_index (fun j => Nat.eqb j i) tasks), Hidx.
    rewrite filter_flat_repeat.
    destruct (Nat.leb_spec 0 i), (Nat.ltb_spec i (0 + length params)); simpl; lia.
Qed.

Lemma trials_good `{B : Bss} (algs : dict algo_spec) n : forall l results,
  Forall2 (fun a res => trial a = Ok res) l results ->
  Forall (fun a => algos a = algs /\ (param_index a < n)%nat) l ->
  Forall (good_result n (map fst algs)) results /\
  forall (proj : trial_result -> dict (list npfloat)) name,
    proj = isr_of \/ proj = cost_of -> In name (map fst algs) ->
    Forall2 (fun a res => trial a = Ok res /\ pi_of res = param_index a /\
                          has_key (proj res) name) l results.
Proof.
  induction 1 as [|a res l rs Ht HF IH]; intros Hl.
  - split; [constructor | intros; constructor].
  - inversion Hl as [|? ? [Ha Hb] Hl']; subst.
    destruct (IH Hl') as [IH1 IH2].
    destruct (trial_result_good a res Ht) as [Hpi Hkeys].
    split.
    + constructor; auto. split; [lia | exact Hkeys].
    + intros proj name Hproj Hn. constructor; auto.
      destruct (Hkeys name Hn) as [K1 K2].
      destruct Hproj as [-> | ->]; auto.
Qed.

(** C4, as amended: when every trial returns normally, the aggregation
    succeeds and every (scenario, algorithm) cell of both tables holds
    exactly [n_repeat] rows; row [k] of cell [(i, name)] is the trajectory
    of the [k]-th task of scenario [i] in the shuffled task list.
    [pool.map] returns the results in the order of the list it was given,
    whatever the order in which the trials complete, so the rows are the
    trajectories of the repetitions in the order the shuffle left them, not
    in the order of the repetition index. *)
Theorem cell_rows_follow_shuffled_task_list `{B : Bss}
        (master_seed : Z) (n_repeat : nat) (params : list scenario)
        (frames : nat) (dist : string) (algs : dict algo_spec) (g : rng) :
  let tasks := fst (gen_args master_seed n_repeat params frames dist algs 0%nat g) in
  let g1 := snd (gen_args master_seed n_repeat params frames dist algs 0%nat g) in
  let shuffled := fst (np_random_shuffle tasks g1) in
  NoDup (map fst algs) ->
  forallb is_ok (fst (run_tasks shuffled [])) = true ->
  exists isr_tables cost_tables q,
    experiment master_seed n_repeat params frames dist algs g
    = (Ok (isr_tables, cost_tables), q) /\
    forall i name,
      (i < length params)%nat -> In name (map fst algs) ->
      exists isr_rows cost_rows,
        cell isr_tables i name = Ok isr_rows /\
        cell cost_tables i name = Ok cost_rows /\
        length isr_rows = n_repeat /\
        length cost_rows = n_repeat /\
        Forall2 (fun a row => exists res,
                     trial a = Ok res /\ dict_get (isr_of res) name = Ok row)
                (filter (fun a => Nat.eqb (param_index a) i) shuffled) isr_rows /\
        Forall2 (fun a row => exists res,
                     trial a = Ok res /\ dict_get (cost_of res) name = Ok row)
                (filter (fun a => Nat.eqb (param_index a) i) shuffled) cost_rows.
Proof.
  intros tasks g1 shuffled ND Hok.
  destruct (gen_args_tasks master_seed n_repeat params frames dist algs 0%nat g)
    as [Htasks Hcount].
  fold tasks in Htasks, Hcount.
  pose proof (np_random_shuffle_perm _ tasks g1) as HP. fold shuffled in HP.
  assert (Hsh : Forall (fun a => algos a = algs /\ (param_index a < length params)%nat)
                       shuffled)
    by (eapply Permutation_Forall; eauto).
  destruct (collect_all_ok _ Hok) as [results Hres].
  pose proof (collect_run_tasks _ _ _ Hres) as HF.
  destruct (trials_good algs (length params) shuffled results HF Hsh) as [Hgood HF'].
  destruct (distribute_ok (length params) (map fst algs) ND results
              (map (fun _ => empty_table algs) params)
              (map (fun _ => empty_table algs) params)
              (empty_tables_exist algs params) (empty_tables_exist algs params) Hgood)
    as [IT [CT [Edist Hcells]]].
  exists IT, CT, (snd (run_tasks shuffled [])). split.
  - unfold experiment. fold tasks g1.
    rewrite (surjective_pairing (gen_args master_seed n_repeat params frames dist algs 0%nat g)).
    fold tasks g1.
    rewrite (surjective_pairing (np_random_shuffle tasks g1)). fold shuffled.
    rewrite (surjective_pairing (run_tasks shuffled [])).
    rewrite Hres. cbn [bind]. now rewrite Edist.
  - intros i name Hi Hn.
    destruct (Hcells i name [] [] Hi Hn
                (empty_tables_cell algs params i name Hi Hn)
                (empty_tables_cell algs params i name Hi Hn)) as [C1' C2'].
    cbn [app] in C1', C2'.
    exists (rows_of isr_of i name results), (rows_of cost_of i name results).
    assert (Hlen : length (filter (fun a => Nat.eqb (param_index a) i) shuffled) = n_repeat).
    { rewrite <- (permutation_filter_length _ _ _ HP). auto. }
    split; [exact C1'|]. split; [exact C2'|].
    split; [rewrite (rows_of_length isr_of i name shuffled results); auto|].
    split; [rewrite (rows_of_length cost_of i name shuffled results); auto|].
    split; apply rows_of_follow; auto.
Qed.

(** *** Two repetitions of one scenario under the stand-ins *)

Lemma gen_args_two g :
  @gen_args counter_numpy 0 2 [scenario0] 1 "laplace" one_algo 0 g
  = ([task0; task1], 2%Z).
Proof. reflexivity. Qed.

Lemma task0_returns q :
  @one_loop counter_numpy (stub_bss run_returns I2) task0 q = (Ok result0, q ++ [true]).
Proof.
  unfold one_loop. cbn [stub_bss bss_rand_mixture counter_numpy np_random_seed task0
                        seed n_freq n_chan n_frames distrib Z.eqb].
  change (eye_tensor 1 2) with I2.
  unfold init_state. cbn [task0 use_pca algos one_algo run_algos].
  unfold run_algo at 1.
  cbn [stub_bss bss_is_dual_update bss_algos algo dict_get String.eqb Ascii.eqb
       Bool.eqb bind andb].
  unfold callback at 1. rewrite I2_I2_matmul, I2_I2_ISR.
  reflexivity.
Qed.

Lemma task1_returns q :
  @one_loop counter_numpy (stub_bss run_returns I2) task1 q = (Ok result1, q ++ [true]).
Proof.
  unfold one_loop. cbn [stub_bss bss_rand_mixture counter_numpy np_random_seed task1
                        seed n_freq n_chan n_frames distrib Z.eqb Pos.eqb].
  change (eye_tensor 1 2) with I2.
  unfold init_state. cbn [task1 use_pca algos one_algo run_algos].
  unfold run_algo at 1.
  cbn [stub_bss bss_is_dual_update bss_algos algo dict_get String.eqb Ascii.eqb
       Bool.eqb bind andb].
  unfold callback at 1. rewrite I2_I2_matmul, I2_A0_ISR.
  reflexivity.
Qed.

Lemma experiment_two g :
  @experiment counter_numpy (stub_bss run_returns I2) 0 2 [scenario0] 1 "laplace" one_algo g
  = (Ok ([[("auxiva"%string, [[Fin (10 * (ln (1/8) / ln 10))]; [NInf]])]],
         [[("auxiva"%string, [[cost0]; [cost0]])]]),
     [true; true]).
Proof.
  unfold experiment. rewrite gen_args_two.
  cbn [counter_numpy np_random_shuffle rev app run_tasks].
  rewrite task1_returns.
  rewrite task0_returns.
  reflexivity.
Qed.

Lemma cell_rows_follow_shuffled_task_list_witness :
  exists isr_tables cost_tables q,
    @experiment counter_numpy (stub_bss run_returns I2) 0 2 [scenario0] 1 "laplace"
                one_algo 0%Z
    = (Ok (isr_tables, cost_tables), q) /\
    forall i name,
      (i < 1)%nat -> In name ["auxiva"%string] ->
      exists isr_rows cost_rows,
        cell isr_tables i name = Ok isr_rows /\
        cell cost_tables i name = Ok cost_rows /\
        length isr_rows = 2%nat /\
        length cost_rows = 2%nat /\
        Forall2 (fun a row => exists res,
                     @trial counter_numpy (stub_bss run_returns I2) a = Ok res /\
                     dict_get (isr_of res) name = Ok row)
                (filter (fun a => Nat.eqb (param_index a) i) [task1; task0]) isr_rows /\
        Forall2 (fun a row => exists res,
                     @trial counter_numpy (stub_bss run_returns I2) a = Ok res /\
                     dict_get (cost_of res) name = Ok row)
                (filter (fun a => Nat.eqb (param_index a) i) [task1; task0]) cost_rows.
Proof.
  apply (@cell_rows_follow_shuffled_task_list counter_numpy (stub_bss run_returns I2)
           0%Z 2%nat [scenario0] 1%nat "laplace"%string one_algo 0%Z).
  - repeat constructor. simpl. tauto.
  - rewrite gen_args_two. cbn [fst snd counter_numpy np_random_shuffle rev app run_tasks].
    rewrite task1_returns, task0_returns. reflexivity.
Defined.

(** C4 as stated fails: with two repetitions of one scenario and a shuffle
    that reverses the task list, repetition 0 (the first generated task)
    has the ISR trajectory [[-inf]], yet row 0 of the cell is the
    trajectory of repetition 1. *)
Lemma rows_not_in_repetition_order :
  fst (@gen_args counter_numpy 0 2 [scenario0] 1 "laplace" one_algo 0 0%Z) = [task0; task1]
  /\ @trial counter_numpy (stub_bss run_returns I2) task0 = Ok result0
  /\ isr_of result0 = [("auxiva"%string, [NInf])]
  /\ exists isr_tables cost_tables q,
       @experiment counter_numpy (stub_bss run_returns I2) 0 2 [scenario0] 1 "laplace"
                   one_algo 0%Z
       = (Ok (isr_tables, cost_tables), q)
       /\ cell isr_tables 0 "auxiva" = Ok [[Fin (10 * (ln (1/8) / ln 10))]; [NInf]].
Proof.
  split; [reflexivity|].
  split; [unfold trial; now rewrite task0_returns|].
  split; [reflexivity|].
  do 3 eexists. split; [apply experiment_two | reflexivity].
Qed.

(** ** The first trajectory point *)

Section FirstPoint.
Context `{B : Bss}.

Lemma run_callbacks_extends demix_init mix_mat : forall cs st st',
  run_callbacks demix_init mix_mat st cs = Ok st' ->
  exists r1 r2, fst st' = fst st ++ r1 /\ snd st' = snd st ++ r2.
Proof.
  induction cs as [|[Y D] cs IH]; intros st st' E; simpl in E.
  - injection E as <-. exists [], []. now rewrite !app_nil_r.
  - destruct (callback demix_init mix_mat st Y D) as [st1|e] eqn:E1; simpl in E;
      [|discriminate].
    destruct (IH _ _ E) as [r1 [r2 [H1 H2]]].
    unfold callback in E1.
    destruct (ISR (matmul D demix_init) mix_mat) as [v|e]; simpl in E1; [|discriminate].
    injection E1 as <-. simpl in *.
    exists ([v] ++ r1), ([cost_value Y D] ++ r2).
    rewrite H1, H2, <- !app_assoc. auto.
Qed.

(** The first point of both lists is recorded by the call
    [callback(mix.transpose([2, 0, 1]), eye.copy(), distrib)] made before
    the separation routine is looked up and run: the cost of the raw
    mixture, and the ISR of [eye @ demix_init], the initial filter. *)
Lemma first_point_recorded a mix Y_init demix_init mix_mat eye_ pmt isr_list cost_list :
  run_algo a mix Y_init demix_init mix_mat eye_ pmt = Ok (isr_list, cost_list) ->
  exists v rest_i rest_c,
    ISR (matmul eye_ demix_init) mix_mat = Ok v /\
    isr_list = v :: rest_i /\
    cost_list = cost_value (transpose_201 mix) eye_ :: rest_c.
Proof.
  unfold run_algo.
  destruct (dict_get bss_is_dual_update (algo pmt)) as [dual|e]; simpl; [|discriminate].
  unfold callback at 1.
  destruct (ISR (matmul eye_ demix_init) mix_mat) as [v|e]; simpl; [|discriminate].
  destruct (dict_get bss_algos (algo pmt)) as [f|e]; simpl; [|discriminate].
  destruct (run_callbacks _ _ _ _) as [st1|e] eqn:E; simpl; [|discriminate].
  destruct (outcome _) as [x|e]; simpl; [|discriminate].
  intros Hst. injection Hst as Hst. subst st1.
  destruct (run_callbacks_extends _ _ _ _ _ E) as [r1 [r2 [H1 H2]]]. simpl in *.
  exists v, r1, r2. auto.
Qed.

End FirstPoint.

Lemma I2_Q0_matmul : matmul I2 Q0 = Q0.
Proof.
  cbv [matmul I2 Q0 combine map matmul2 fst snd seq ncols length dot column nth
       fold_right Cadd Cmul C0].
  repeat (f_equal; try lra).
Qed.

Lemma Q0_A0_matmul : matmul Q0 A0 = Q0A0.
Proof.
  cbv [matmul Q0 A0 Q0A0 combine map matmul2 fst snd seq ncols length dot column nth
       fold_right Cadd Cmul C0].
  repeat (f_equal; try lra).
Qed.

Lemma Q0A0_max_abs : max_abs Q0A0 = [[3/2; 1/2]].
Proof.
  cbv [max_abs Q0A0 map row_max fold_right Cabs fst snd].
  r_eval. reflexivity.
Qed.

Lemma Q0A0_div_scale : div_scale Q0A0 [[3/2; 1/2]] = PQ.
Proof.
  cbv [div_scale Q0A0 PQ map combine fst snd zdiv fdiv].
  r_eval. repeat (f_equal; try lra).
Qed.

Lemma PQ_err_mat : err_mat 2 PQ = [[Fin (1/2); Fin (1/2)]; [Fin (1/2); Fin (1/2)]].
Proof.
  cbv [err_mat PQ map seq n_rows hd length flat_map app nth fmean fsum fold_left
       fsquare fabs fsub fadd fneg fmul eye Nat.eqb zabs INR fdiv].
  r_eval. repeat (f_equal; try lra).
Qed.

Lemma PQ_lsa :
  linear_sum_assignment [[Fin (1/2); Fin (1/2)]; [Fin (1/2); Fin (1/2)]]
  = Ok ([0; 1], [0; 1])%nat.
Proof. lsa_eval. reflexivity. Qed.

Lemma Q0_A0_scale_permute : exists W', scale_permute Q0 A0 = Ok (W', PQ).
Proof.
  unfold scale_permute. rewrite Q0_A0_matmul, Q0A0_max_abs, Q0A0_div_scale.
  change (last_dim Q0) with 2%nat. rewrite PQ_err_mat, PQ_lsa. simpl.
  eexists. reflexivity.
Qed.

Lemma PQ_isr_db : isr_db 1 2 PQ = Fin (10 * (ln (1/2) / ln 10)).
Proof.
  unfold PQ. db_eval. do 4 f_equal. lra.
Qed.

Lemma Q0_A0_ISR : ISR Q0 A0 = Ok (Fin (10 * (ln (1/2) / ln 10))).
Proof.
  assert (HQ : has_shape 1 2 2 Q0) by (repeat constructor).
  rewrite (ISR_eq Q0 A0 0 1 HQ A0_shape).
  destruct Q0_A0_scale_permute as [W' ->]. simpl. now rewrite PQ_isr_db.
Qed.

(** C7 fails on the code when PCA initialisation is on.  For a trial whose
    mixing matrix is [A0] and whose PCA filter is [Q0], the ISR trajectory
    returned by [one_loop] starts with [ISR(eye @ demix_init, mix_mat)]
    [= 10 log10 (1/2)], the ISR of the PCA filter, whereas the raw mixture
    has [ISR(eye, mix_mat) = 10 log10 (1/8)].  (The cost trajectory does
    start with the cost of the raw mixture.) *)
Theorem first_isr_point_with_pca_is_not_raw_mixture :
  @one_loop counter_numpy (stub_bss run_returns Q0) task_pca []
  = (Ok (0%nat, [("auxiva"%string, [Fin (10 * (ln (1/2) / ln 10))])],
         [("auxiva"%string, [cost0])]), [true])
  /\ ISR I2 A0 = Ok (Fin (10 * (ln (1/8) / ln 10)))
  /\ Fin (10 * (ln (1/2) / ln 10)) <> Fin (10 * (ln (1/8) / ln 10)).
Proof.
  split; [|split; [exact I2_A0_ISR|]].
  - unfold one_loop. cbn [stub_bss bss_rand_mixture counter_numpy np_random_seed task_pca
                          seed n_freq n_chan n_frames distrib Z.eqb Pos.eqb].
    change (eye_tensor 1 2) with I2.
    unfold init_state. cbn [task_pca use_pca algos one_algo run_algos stub_bss bss_pca].
    unfold run_algo at 1.
    cbn [stub_bss bss_is_dual_update bss_algos algo dict_get String.eqb Ascii.eqb
         Bool.eqb bind andb].
    unfold callback at 1. rewrite I2_Q0_matmul, Q0_A0_ISR.
    reflexivity.
  - intros H. injection H as H.
    pose proof (db_lt (1/8) (1/2)). lra.
Qed.

(** ** Arguments are left alone *)

Lemma preserves_ret {A} n (a : A) (Q : A -> Prop) : Q a -> preserves n (ret a) Q.
Proof.
  intros HQ h Hn. simpl. repeat split; auto. intros a' E. now injection E as <-.
Qed.

Lemma preserves_lift {A} n (r : result A) : preserves n (lift r) (fun _ => True).
Proof. intros h Hn. simpl. auto. Qed.

Lemma preserves_weaken {A} n (m : Mem A) (Q Q' : A -> Prop) :
  preserves n m Q -> (forall a, Q a -> Q' a) -> preserves n m Q'.
Proof.
  intros Hm HQ h Hn. destruct (Hm h Hn) as [H1 [H2 H3]]. repeat split; auto.
Qed.

Lemma preserves_bind {A B} n (m : Mem A) (k : A -> Mem B) (Q : A -> Prop) (Q' : B -> Prop) :
  preserves n m Q -> (forall a, Q a -> preserves n (k a) Q') ->
  preserves n (bindM m k) Q'.
Proof.
  intros Hm Hk h Hn. unfold bindM.
  destruct (Hm h Hn) as [H1 [H2 H3]].
  destruct (m h) as [[a|e] h1]; simpl in *.
  - destruct (Hk a (H3 a eq_refl) h1 H1) as [K1 [K2 K3]].
    repeat split; auto. intros j Hj. rewrite K2 by auto. auto.
  - repeat split; auto. intros b E. discriminate.
Qed.

Lemma preserves_alloc n v : preserves n (alloc v) (fun r => (n <= r)%nat).
Proof.
  intros h Hn. unfold alloc. simpl. rewrite length_app. simpl.
  repeat split; [lia | | ].
  - intros k Hk. apply nth_error_app1. lia.
  - intros a E. injection E as <-. exact Hn.
Qed.

Lemma preserves_read n r : preserves n (read r) (fun _ => True).
Proof.
  intros h Hn. unfold read. destruct (nth_error h r); simpl; auto.
Qed.

Lemma nth_error_list_set_other {A} (l : list A) k j v :
  j <> k -> nth_error (list_set l k v) j = nth_error l j.
Proof.
  revert k j. induction l as [|x l IH]; intros [|k] [|j] Hne; simpl; auto; try congruence.
Qed.

Lemma preserves_write n r v : (n <= r)%nat -> preserves n (write r v) (fun _ => True).
Proof.
  intros Hr h Hn. unfold write. simpl. rewrite length_list_set.
  repeat split; auto. intros k Hk. apply nth_error_list_set_other. lia.
Qed.

Lemma preserves_read_cplx n r : preserves n (read_cplx r) (fun _ => True).
Proof.
  unfold read_cplx. eapply preserves_bind; [apply preserves_read|].
  intros [X|X|X|X] _; apply preserves_lift.
Qed.

Lemma preserves_read_z n r : preserves n (read_z r) (fun _ => True).
Proof.
  unfold read_z. eapply preserves_bind; [apply preserves_read|].
  intros [X|X|X|X] _; apply preserves_lift.
Qed.

Lemma preserves_read_real n r : preserves n (read_real r) (fun _ => True).
Proof.
  unfold read_real. eapply preserves_bind; [apply preserves_read|].
  intros [X|X|X|X] _; apply preserves_lift.
Qed.

Lemma preserves_read_float n r : preserves n (read_float r) (fun _ => True).
Proof.
  unfold read_float. eapply preserves_bind; [apply preserves_read|].
  intros [X|X|X|X] _; apply preserves_lift.
Qed.

Lemma preserves_for_each {A} n (l : list A) (body : A -> Mem unit) :
  (forall x, preserves n (body x) (fun _ => True)) ->
  preserves n (for_each l body) (fun _ => True).
Proof.
  intros Hb. induction l as [|x l IH]; simpl.
  - now apply preserves_ret.
  - eapply preserves_bind; [apply Hb | intros; exact IH].
Qed.

Create HintDb frame.

#[local] Hint Resolve preserves_read_cplx preserves_read_z preserves_read_real
  preserves_read_float preserves_alloc preserves_lift : frame.

Lemma scale_permute_mem_preserves n W A :
  preserves n (scale_permute_mem W A) (fun WP => (n <= fst WP)%nat /\ (n <= snd WP)%nat).
Proof.
  unfold scale_permute_mem.
  eapply preserves_bind; [auto with frame|]. intros w _.
  eapply preserves_bind; [auto with frame|]. intros a _.
  eapply preserves_bind; [auto with frame|]. intros P HP.
  eapply preserves_bind; [auto with frame|]. intros W1 HW1.
  eapply preserves_bind; [auto with frame|]. intros p _.
  eapply preserves_bind; [auto with frame|]. intros scale _.
  eapply preserves_bind; [auto with frame|]. intros s _.
  eapply preserves_bind; [auto with frame|]. intros w1 _.
  eapply preserves_bind; [apply preserves_write; exact HW1|]. intros _ _.
  eapply preserves_bind; [auto with frame|]. intros p' _.
  eapply preserves_bind; [apply preserves_write; exact HP|]. intros _ _.
  eapply preserves_bind; [auto with frame|]. intros p1 _.
  eapply preserves_bind; [auto with frame|]. intros rc _.
  eapply preserves_bind; [auto with frame|]. intros w1' _.
  eapply preserves_bind; [auto with frame|]. intros W2 HW2.
  eapply preserves_bind; [auto with frame|]. intros p1' _.
  eapply preserves_bind; [auto with frame|]. intros P2 HP2.
  apply preserves_ret. simpl. auto.
Qed.

Lemma ISR_mem_preserves n W A : preserves n (ISR_mem W A) (fun _ => True).
Proof.
  unfold ISR_mem.
  eapply preserves_bind; [auto with frame|]. intros w _.
  eapply preserves_bind; [apply scale_permute_mem_preserves|]. intros [W2 P2] [HW2 HP2].
  eapply preserves_bind; [auto with frame|]. intros w2 _.
  eapply preserves_bind; [auto with frame|]. intros isr Hisr.
  eapply preserves_bind.
  - apply preserves_for_each. intros r. apply preserves_for_each. intros c.
    destruct (Nat.eqb r c); [now apply preserves_ret|].
    eapply preserves_bind; [auto with frame|]. intros p _.
    eapply preserves_bind; [auto with frame|]. intros x _.
    apply preserves_write. exact Hisr.
  - intros _ _.
    eapply preserves_bind; [auto with frame|]. intros x _.
    now apply preserves_ret.
Qed.

Lemma read_cplx_inv r h res h' :
  read_cplx r h = (res, h') ->
  h' = h /\ forall w, res = Ok w -> nth_error h r = Some (ACplx w).
Proof.
  unfold read_cplx, bindM, read.
  destruct (nth_error h r) as [[X|X|X|X]|]; cbn; intros E; injection E as <- <-;
    split; auto; intros w Hw; try discriminate.
  now injection Hw as <-.
Qed.

Lemma scale_permute_mem_dangling W A h :
  (length h <= W)%nat \/ (length h <= A)%nat -> snd (scale_permute_mem W A h) = h.
Proof.
  intros Hd. unfold scale_permute_mem. unfold bindM at 1.
  destruct (read_cplx W h) as [[w|e] h0] eqn:E1;
    destruct (read_cplx_inv _ _ _ _ E1) as [-> HW]; [|reflexivity].
  specialize (HW w eq_refl).
  unfold bindM at 1.
  destruct (read_cplx A h) as [[a|e] h0] eqn:E2;
    destruct (read_cplx_inv _ _ _ _ E2) as [-> HA]; [|reflexivity].
  specialize (HA a eq_refl).
  assert (W < length h)%nat by (apply nth_error_Some; congruence).
  assert (A < length h)%nat by (apply nth_error_Some; congruence).
  lia.
Qed.

Lemma ISR_mem_dangling W A h :
  (length h <= W)%nat \/ (length h <= A)%nat -> snd (ISR_mem W A h) = h.
Proof.
  intros Hd. unfold ISR_mem. unfold bindM at 1.
  destruct (read_cplx W h) as [[w|e] h0] eqn:E1;
    destruct (read_cplx_inv _ _ _ _ E1) as [-> HW]; [|reflexivity].
  specialize (HW w eq_refl).
  assert (HWlt : (W < length h)%nat) by (apply nth_error_Some; congruence).
  destruct Hd as [Hd|Hd]; [lia|].
  pose proof (scale_permute_mem_dangling W A h (or_intror Hd)) as Hs.
  unfold bindM at 1.
  destruct (scale_permute_mem W A h) as [[[W2 P2]|e] h1] eqn:E2; simpl in Hs; subst h1.
  - exfalso. revert E2. unfold scale_permute_mem. unfold bindM at 1. rewrite E1.
    unfold bindM at 1.
    destruct (read_cplx A h) as [[a|e] h0] eqn:E3;
      destruct (read_cplx_inv _ _ _ _ E3) as [-> HA]; [|discriminate].
    specialize (HA a eq_refl).
    assert (A < length h)%nat by (apply nth_error_Some; congruence). lia.
  - reflexivity.
Qed.

Lemma unchanged_at h h' r :
  unchanged h h' -> ((length h <= r)%nat -> h' = h) -> nth_error h' r = nth_error h r.
Proof.
  intros [_ Hu] Hd. destruct (Nat.lt_ge_cases r (length h)) as [Hlt|Hge]; auto.
  now rewrite Hd.
Qed.

(** C9: on any store [h] and for any two references [W] and [A],
    [scale_permute] and [ISR] leave every array of [h] as it was, the
    arrays at [W] and [A] in particular: the in-place divisions act on the
    product and on the copy of [W], the slice assignments on the array
    [ISR] has allocated itself.  The two arrays [scale_permute] returns are
    new ones. *)
Theorem metric_leaves_its_arguments_unchanged (W A : ref) (h : heap) :
  let h1 := snd (scale_permute_mem W A h) in
  let h2 := snd (ISR_mem W A h) in
  unchanged h h1
  /\ nth_error h1 W = nth_error h W /\ nth_error h1 A = nth_error h A
  /\ (forall W2 P2, fst (scale_permute_mem W A h) = Ok (W2, P2) ->
                    (length h <= W2)%nat /\ (length h <= P2)%nat)
  /\ unchanged h h2
  /\ nth_error h2 W = nth_error h W /\ nth_error h2 A = nth_error h A.
Proof.
  intros h1 h2.
  destruct (scale_permute_mem_preserves (length h) W A h (le_n _)) as [H1 [H2 H3]].
  destruct (ISR_mem_preserves (length h) W A h (le_n _)) as [K1 [K2 _]].
  assert (U1 : unchanged h h1) by (split; auto).
  assert (U2 : unchanged h h2) by (split; auto).
  split; [exact U1|].
  split; [apply unchanged_at; auto; intros; apply scale_permute_mem_dangling; auto|].
  split; [apply unchanged_at; auto; intros; apply scale_permute_mem_dangling; auto|].
  split; [intros W2 P2 E; exact (H3 (W2, P2) E)|].
  split; [exact U2|].
  split; apply unchanged_at; auto; intros; apply ISR_mem_dangling; auto.
Qed.

(** *** The store version computes what the functional version computes *)

Lemma nth_error_app_at {A} (h l : list A) (i : nat) :
  nth_error (h ++ l) (length h + i)%nat = nth_error l i.
Proof.
  rewrite nth_error_app2 by lia. f_equal. lia.
Qed.

Lemma list_set_app_at {A} (h l : list A) (i : nat) v :
  list_set (h ++ l) (length h + i)%nat v = h ++ list_set l i v.
Proof.
  induction h as [|x h IH]; simpl; auto. now rewrite IH.
Qed.

Lemma bindM_ok {A B} (m : Mem A) (k : A -> Mem B) h a h' :
  m h = (Ok a, h') -> bindM m k h = k a h'.
Proof. intros E. unfold bindM. now rewrite E. Qed.

Lemma bindM_raise {A B} (m : Mem A) (k : A -> Mem B) h e h' :
  m h = (Raise e, h') -> bindM m k h = (Raise e, h').
Proof. intros E. unfold bindM. now rewrite E. Qed.

Lemma bindM_lift_ok {A B} (a : A) (k : A -> Mem B) h :
  bindM (lift (Ok a)) k h = k a h.
Proof. reflexivity. Qed.

Lemma bindM_lift_raise {A B} (e : exn) (k : A -> Mem B) h :
  bindM (lift (Raise e)) k h = (Raise e, h).
Proof. reflexivity. Qed.

Lemma alloc_app v (h l : heap) :
  alloc v (h ++ l) = (Ok (length h + length l)%nat, h ++ (l ++ [v])).
Proof. unfold alloc. now rewrite length_app, app_assoc. Qed.

Lemma write_app v (h l : heap) (i : nat) :
  write (length h + i)%nat v (h ++ l) = (Ok tt, h ++ list_set l i v).
Proof. unfold write. now rewrite list_set_app_at. Qed.

Lemma read_cplx_old (h l : heap) r X :
  nth_error h r = Some (ACplx X) -> read_cplx r (h ++ l) = (Ok X, h ++ l).
Proof.
  intros E. unfold read_cplx, bindM, read.
  rewrite nth_error_app1 by (apply nth_error_Some; congruence).
  now rewrite E.
Qed.

Lemma read_cplx_app (h l : heap) (i : nat) X :
  nth_error l i = Some (ACplx X) -> read_cplx (length h + i)%nat (h ++ l) = (Ok X, h ++ l).
Proof.
  intros E. unfold read_cplx, bindM, read. now rewrite nth_error_app_at, E.
Qed.

Lemma read_z_app (h l : heap) (i : nat) X :
  nth_error l i = Some (AZ X) -> read_z (length h + i)%nat (h ++ l) = (Ok X, h ++ l).
Proof.
  intros E. unfold read_z, bindM, read. now rewrite nth_error_app_at, E.
Qed.

Lemma read_real_app (h l : heap) (i : nat) X :
  nth_error l i = Some (AReal X) -> read_real (length h + i)%nat (h ++ l) = (Ok X, h ++ l).
Proof.
  intros E. unfold read_real, bindM, read. now rewrite nth_error_app_at, E.
Qed.

Lemma read_float_app (h l : heap) (i : nat) X :
  nth_error l i = Some (AFloat X) -> read_float (length h + i)%nat (h ++ l) = (Ok X, h ++ l).
Proof.
  intros E. unfold read_float, bindM, read. now rewrite nth_error_app_at, E.
Qed.

Ltac mem_step :=
  first
    [ rewrite (bindM_ok _ _ _ _ _ (alloc_app _ _ _)); cbn [length app]
    | rewrite (bindM_ok _ _ _ _ _ (write_app _ _ _ _)); cbn [list_set]
    | erewrite bindM_ok; [| apply read_cplx_app; reflexivity ]
    | erewrite bindM_ok; [| apply read_z_app; reflexivity ]
    | erewrite bindM_ok; [| apply read_real_app; reflexivity ]
    | erewrite bindM_ok; [| apply read_float_app; reflexivity ] ].

Lemma scale_permute_mem_run (W A : ref) (h : heap) (w a : tensor) :
  nth_error h W = Some (ACplx w) -> nth_error h A = Some (ACplx a) ->
  let P := matmul w a in
  let scale := max_abs P in
  let W1 := div_scale w scale in
  let P1 := div_scale P scale in
  scale_permute_mem W A h =
  match scale_permute w a with
  | Ok (w', p') =>
      (Ok (length h + 3, length h + 4)%nat,
       h ++ [AZ P1; AZ W1; AReal scale; AZ w'; AZ p'])
  | Raise e => (Raise e, h ++ [AZ P1; AZ W1; AReal scale])
  end.
Proof.
  intros HW HA P scale W1 P1. unfold scale_permute_mem, scale_permute.
  fold P. fold scale. fold W1. fold P1.
  rewrite <- (app_nil_r h) at 1.
  rewrite (bindM_ok _ _ _ _ _ (read_cplx_old h [] W w HW)).
  rewrite (bindM_ok _ _ _ _ _ (read_cplx_old h [] A a HA)).
  fold P.
  do 2 mem_step.
  mem_step. fold scale. mem_step.
  do 3 mem_step. fold W1.
  do 2 mem_step. fold P1.
  mem_step.
  destruct (linear_sum_assignment (err_mat (last_dim w) P1)) as [[rows perm]|e].
  - rewrite bindM_lift_ok. cbn [snd bind].
    do 4 mem_step. reflexivity.
  - rewrite bindM_lift_raise. reflexivity.
Qed.

Lemma for_each_nil {A} (body : A -> Mem unit) h : for_each [] body h = (Ok tt, h).
Proof. reflexivity. Qed.

Lemma isr_inner_loop_run (h : heap) a0 a1 a2 a3 (p : ztensor) (r : nat) :
  forall (cs : list nat) (x : list fmatrix),
    for_each cs (fun c =>
        if Nat.eqb r c then ret tt
        else
          p' <~ read_z (length h + 4)%nat ;;
          y <~ read_float (length h + 5)%nat ;;
          write (length h + 5)%nat
                (AFloat (set_slice y r c (ratio (slice p' r c) (slice p' r r)))))
      (h ++ [a0; a1; a2; a3; AZ p; AFloat x])
    = (Ok tt,
       h ++ [a0; a1; a2; a3; AZ p;
             AFloat (fold_left
                       (fun isr c =>
                          if Nat.eqb r c then isr
                          else set_slice isr r c (ratio (slice p r c) (slice p r r)))
                       cs x)]).
Proof.
  induction cs as [|c cs IH]; intros x; [reflexivity|].
  cbn [for_each fold_left].
  destruct (Nat.eqb r c).
  - rewrite (bindM_ok _ _ _ tt _ eq_refl). apply IH.
  - erewrite bindM_ok; [apply IH|].
    do 2 mem_step. rewrite write_app. reflexivity.
Qed.

Lemma isr_outer_loop_run (h : heap) a0 a1 a2 a3 (p : ztensor) (n : nat) :
  forall (rs : list nat) (x : list fmatrix),
    for_each rs (fun r =>
        for_each (seq 0 n) (fun c =>
          if Nat.eqb r c then ret tt
          else
            p' <~ read_z (length h + 4)%nat ;;
            y <~ read_float (length h + 5)%nat ;;
            write (length h + 5)%nat
                  (AFloat (set_slice y r c (ratio (slice p' r c) (slice p' r r))))))
      (h ++ [a0; a1; a2; a3; AZ p; AFloat x])
    = (Ok tt,
       h ++ [a0; a1; a2; a3; AZ p;
             AFloat (fold_left
                       (fun isr r =>
                          fold_left
                            (fun isr c =>
                               if Nat.eqb r c then isr
                               else set_slice isr r c (ratio (slice p r c) (slice p r r)))
                            (seq 0 n) isr)
                       rs x)]).
Proof.
  induction rs as [|r rs IH]; intros x; [reflexivity|].
  cbn [for_each fold_left].
  erewrite bindM_ok; [apply IH|]. apply isr_inner_loop_run.
Qed.

(** On a store that holds the arrays [w] and [a] at [W] and [A], the store
    versions return what [scale_permute w a] and [ISR w a] return. *)
Lemma ISR_mem_run (W A : ref) (h : heap) (w a : tensor) :
  nth_error h W = Some (ACplx w) -> nth_error h A = Some (ACplx a) ->
  fst (ISR_mem W A h) = ISR w a.
Proof.
  intros HW HA. unfold ISR_mem, ISR.
  rewrite <- (app_nil_r h) at 1.
  rewrite (bindM_ok _ _ _ _ _ (read_cplx_old h [] W w HW)).
  rewrite app_nil_r.
  unfold bindM at 1. rewrite (scale_permute_mem_run W A h w a HW HA).
  destruct (scale_permute w a) as [[w' p']|e]; [|reflexivity].
  cbn [bind fst snd].
  do 2 mem_step.
  erewrite bindM_ok; [|apply isr_outer_loop_run].
  mem_step. reflexivity.
Qed.

(** ** Invariance under scaling and relabelling *)

(** *** Magnitudes of a scaled row *)

Lemma Cabs_mul d z : Cabs (Cmul d z) = Cabs d * Cabs z.
Proof.
  destruct d as [a b], z as [x y]. unfold Cabs, Cmul. simpl.
  rewrite <- sqrt_mult by nra. f_equal. ring.
Qed.

Lemma Cabs_sq z : Cabs z * Cabs z = fst z * fst z + snd z * snd z.
Proof. unfold Cabs. apply sqrt_sqrt. nra. Qed.

Lemma row_max_scale d row : row_max (map (Cmul d) row) = Cabs d * row_max row.
Proof.
  unfold row_max. induction row as [|z row IH]; simpl.
  - ring.
  - rewrite IH, Cabs_mul. apply RmaxRmult. apply Cabs_nonneg.
Qed.

Lemma zabs_zdiv_pos z s :
  0 < s ->
  zabs (zdiv z s) = Fin (sqrt ((fst z / s) * (fst z / s) + (snd z / s) * (snd z / s))).
Proof.
  intros Hs. unfold zdiv. simpl.
  destruct (Req_dec_T s 0); [lra | reflexivity].
Qed.

Lemma zabs_zdiv_scale d z s :
  d <> C0 -> (s = 0 -> z = C0) -> 0 <= s ->
  zabs (zdiv (Cmul d z) (Cabs d * s)) = zabs (zdiv z s).
Proof.
  intros Hd Hz Hs.
  assert (Hm : 0 < Cabs d).
  { pose proof (Cabs_nonneg d). destruct (Req_dec_T (Cabs d) 0) as [E|E]; [|lra].
    apply Cabs_zero_iff in E. contradiction. }
  destruct (Req_dec_T s 0) as [E|E].
  - subst s. rewrite (Hz eq_refl). rewrite Rmult_0_r.
    replace (Cmul d C0) with C0
      by (destruct d; unfold Cmul, C0; simpl; f_equal; ring).
    reflexivity.
  - assert (Hs' : 0 < s) by lra.
    rewrite !zabs_zdiv_pos by (try apply Rmult_lt_0_compat; auto).
    f_equal. f_equal.
    pose proof (Cabs_sq d) as Hsq.
    destruct d as [a b], z as [x y]. simpl in *.
    set (m := Cabs (a, b)) in *.
    assert (Hm2 : m * m <> 0) by nra.
    replace ((a * x - b * y) / (m * s) * ((a * x - b * y) / (m * s)) +
             (a * y + b * x) / (m * s) * ((a * y + b * x) / (m * s)))
      with (((a * a + b * b) * (x * x + y * y)) / ((m * m) * (s * s)))
      by (field; lra).
    rewrite <- Hsq. field. lra.
Qed.

Lemma row_max_zero_all row z : row_max row = 0 -> In z row -> z = C0.
Proof.
  intros H0 Hin. apply Cabs_zero_iff.
  pose proof (row_max_ge row z Hin). pose proof (Cabs_nonneg z). lra.
Qed.

Lemma abs_row_scale d row : d <> C0 -> abs_row (map (Cmul d) row) = abs_row row.
Proof.
  intros Hd. unfold abs_row. rewrite map_map, row_max_scale.
  apply map_ext_in. intros z Hz.
  apply zabs_zdiv_scale; auto.
  - intros H0. eapply row_max_zero_all; eauto.
  - apply row_max_nonneg.
Qed.

(** *** Products of scaled and reordered rows *)

Lemma Cmul_C0_r d : Cmul d C0 = C0.
Proof. destruct d. unfold Cmul, C0. simpl. f_equal; ring. Qed.

Lemma Cmul_Cadd d x y : Cmul d (Cadd x y) = Cadd (Cmul d x) (Cmul d y).
Proof. destruct d, x, y. unfold Cmul, Cadd. simpl. f_equal; ring. Qed.

Lemma Cmul_assoc d x y : Cmul (Cmul d x) y = Cmul d (Cmul x y).
Proof. destruct d, x, y. unfold Cmul. simpl. f_equal; ring. Qed.

Lemma dot_scale d : forall u v, dot (map (Cmul d) u) v = Cmul d (dot u v).
Proof.
  unfold dot. induction u as [|x u IH]; intros [|y v]; simpl;
    try (now rewrite Cmul_C0_r).
  rewrite IH, Cmul_Cadd, Cmul_assoc. reflexivity.
Qed.

Lemma row_product_scale Y d xr :
  row_product Y (map (Cmul d) xr) = map (Cmul d) (row_product Y xr).
Proof.
  unfold row_product. rewrite map_map. apply map_ext. intros k. apply dot_scale.
Qed.

Lemma matmul2_rows X Y : matmul2 X Y = map (row_product Y) X.
Proof. reflexivity. Qed.

Lemma map_combine_self {A B T} (g : A * B -> T) (f : A -> B) (l : list A) :
  map g (combine l (map f l)) = map (fun x => g (x, f x)) l.
Proof. induction l as [|x l IH]; simpl; auto. now rewrite IH. Qed.

Lemma map_combine_snd {A B T} (g : B -> T) : forall (l1 : list A) (l2 : list B),
  (length l2 <= length l1)%nat ->
  map (fun q => g (snd q)) (combine l1 l2) = map g l2.
Proof.
  induction l1 as [|x l1 IH]; intros [|y l2] H; simpl in *; auto; try lia.
  rewrite IH by lia. reflexivity.
Qed.

Lemma zabs3_normalized_product W A :
  zabs3 (div_scale (matmul W A) (max_abs (matmul W A))) = abs_product W A.
Proof.
  unfold zabs3, div_scale, max_abs, abs_product, matmul.
  rewrite map_combine_self, !map_map.
  apply map_ext. intros [Wf Af]. simpl.
  rewrite map_combine_self, matmul2_rows, !map_map.
  apply map_ext. intros xr. unfold abs_row. simpl. now rewrite map_map.
Qed.

Lemma nth_map_in {A T} (g : A -> T) (l : list A) j da dt :
  (j < length l)%nat -> nth j (map g l) dt = g (nth j l da).
Proof.
  intros Hj. rewrite nth_indep with (d' := g da) by (now rewrite length_map).
  apply map_nth.
Qed.

Lemma abs_rows_scale_perm (Af : matrix) (Df : list C) (pi : list nat) (Wf : matrix) :
  Forall (fun z => z <> C0) Df -> length Df = length pi ->
  Forall (fun j => (j < length Wf)%nat) pi ->
  map (fun xr => abs_row (row_product Af xr))
      (map (fun q => map (Cmul (fst q)) (snd q))
           (combine Df (map (fun j => nth j Wf []) pi)))
  = map (fun j => nth j (map (fun xr => abs_row (row_product Af xr)) Wf) []) pi.
Proof.
  intros HD HL Hpi. rewrite map_map.
  transitivity (map (fun q : C * list C => abs_row (row_product Af (snd q)))
                    (combine Df (map (fun j => nth j Wf []) pi))).
  - apply map_ext_in. intros [d row] Hin. simpl.
    rewrite row_product_scale. apply abs_row_scale.
    apply in_combine_l in Hin. rewrite Forall_forall in HD. auto.
  - rewrite (map_combine_snd (fun row => abs_row (row_product Af row)))
      by (rewrite length_map; lia).
    rewrite map_map. apply map_ext_in. intros j Hj.
    rewrite Forall_forall in Hpi.
    symmetry.
    apply (nth_map_in (fun xr => abs_row (row_product Af xr)) Wf j [] []). auto.
Qed.

Lemma abs_product_scale_perm : forall (W A : tensor) (D : list (list C)) pi F n,
  has_shape F n n W -> length A = F -> length D = F ->
  Forall (fun d => length d = n /\ Forall (fun z => z <> C0) d) D ->
  length pi = n -> Forall (fun j => (j < n)%nat) pi ->
  abs_product (apply_scale_perm D pi W) A = take_rows pi (abs_product W A).
Proof.
  unfold abs_product, apply_scale_perm, take_rows.
  induction W as [|Wf W IH]; intros A D pi F n [HL HW] HA HD HDn Hpi Hb.
  - destruct D; reflexivity.
  - destruct A as [|Af A]; [simpl in *; lia|].
    destruct D as [|Df D]; [simpl in *; lia|].
    apply Forall_cons_iff in HW. destruct HW as [[HWf HWr] HW'].
    apply Forall_cons_iff in HDn. destruct HDn as [[HDf HDz] HDn'].
    cbn [combine map fst snd]. f_equal.
    + apply abs_rows_scale_perm; auto; [lia|].
      eapply Forall_impl; [|exact Hb]. intros j Hj. simpl in Hj. lia.
    + apply (IH A D pi (length W) n); auto.
      * split; auto.
      * simpl in HA, HL. lia.
      * simpl in HD, HL. lia.
Qed.

(** *** The cost matrix and the ratios depend on the magnitudes only *)

Lemma zabs_nth (Pf : list (list zfloat)) j k :
  zabs (nth k (nth j Pf []) znan) = nth k (nth j (map (map zabs) Pf) []) NaN.
Proof.
  symmetry.
  replace (nth j (map (map zabs) Pf) []) with (map zabs (nth j Pf []))
    by (symmetry; apply (map_nth (map zabs) Pf [] j)).
  apply (map_nth zabs (nth j Pf []) znan k).
Qed.

Lemma flat_map_of_map {A B T} (f : B -> list T) (g : A -> B) (l : list A) :
  flat_map f (map g l) = flat_map (fun x => f (g x)) l.
Proof. induction l as [|x l IH]; simpl; auto. now rewrite IH. Qed.

Lemma n_rows_zabs3 P : n_rows (zabs3 P) = n_rows P.
Proof. destruct P as [|Pf P]; simpl; auto. unfold n_rows. simpl. apply length_map. Qed.

Lemma err_mat_zabs3 n P : err_mat n P = err_mat_abs n (zabs3 P).
Proof.
  unfold err_mat, err_mat_abs. rewrite n_rows_zabs3.
  apply map_ext. intros i. apply map_ext. intros j. f_equal.
  unfold zabs3. rewrite flat_map_of_map.
  apply flat_map_ext. intros Pf. apply map_ext. intros k.
  now rewrite zabs_nth.
Qed.

Lemma leakage_sum_zabs3 n P : leakage_sum n P = leakage_sum_abs n (zabs3 P).
Proof.
  unfold leakage_sum, leakage_sum_abs. f_equal.
  unfold zabs3. rewrite flat_map_of_map.
  apply flat_map_ext. intros Pf. apply map_ext. intros [r c].
  unfold ratio_entry, ratio_entry_abs. simpl. now rewrite !zabs_nth.
Qed.

Lemma zabs3_take_rows perm P : zabs3 (take_rows perm P) = take_rows perm (zabs3 P).
Proof.
  unfold zabs3, take_rows. rewrite !map_map. apply map_ext. intros Pf.
  rewrite !map_map. apply map_ext. intros j.
  symmetry. apply (map_nth (map zabs) Pf [] j).
Qed.

Lemma take_rows_compose {A} (pi tau : list nat) (X : list (list (list A))) :
  Forall (fun j => (j < length pi)%nat) tau ->
  take_rows tau (take_rows pi X) = take_rows (compose pi tau) X.
Proof.
  intros Ht. unfold take_rows, compose. rewrite map_map. apply map_ext. intros Xf.
  rewrite map_map. apply map_ext_in. intros j Hj.
  rewrite Forall_forall in Ht.
  apply (nth_map_in (fun j => nth j Xf []) pi j 0%nat []). auto.
Qed.

Lemma map_nth_seq {A} (l : list A) d : map (fun j => nth j l d) (seq 0 (length l)) = l.
Proof.
  apply nth_ext with (d := d) (d' := d).
  - now rewrite length_map, length_seq.
  - intros k Hk. rewrite length_map, length_seq in Hk.
    rewrite nth_map_seq by auto. reflexivity.
Qed.

Lemma map_via_seq {A T} (f : A -> T) (l : list A) d :
  map f l = map (fun j => f (nth j l d)) (seq 0 (length l)).
Proof. rewrite <- (map_nth_seq l d) at 1. now rewrite map_map. Qed.

Lemma err_mat_abs_take_rows n (pi : list nat) (M : list fmatrix) F :
  has_shape (S F) (length pi) n M ->
  Forall (fun j => (j < length pi)%nat) pi ->
  err_mat_abs n (take_rows pi M) = colperm pi (err_mat_abs n M).
Proof.
  intros HM Hpi. unfold err_mat_abs, colperm.
  assert (Hr1 : n_rows (take_rows pi M) = length pi).
  { destruct HM as [HL _]. destruct M as [|Mf M]; [discriminate|].
    unfold n_rows. simpl. apply length_map. }
  assert (Hr2 : n_rows M = length pi).
  { destruct HM as [HL HM]. destruct M as [|Mf M]; [discriminate|].
    unfold n_rows. simpl. inversion HM as [|? ? [H1 _] _]. exact H1. }
  rewrite Hr1, Hr2, map_map. apply map_ext. intros i.
  rewrite (map_via_seq _ pi 0%nat).
  apply map_ext_in. intros j Hj. apply in_seq in Hj.
  assert (Hpj : (nth j pi 0 < length pi)%nat).
  { rewrite Forall_forall in Hpi. apply Hpi. apply nth_In. lia. }
  rewrite nth_map_seq by auto. simpl. f_equal.
  unfold take_rows. rewrite flat_map_of_map.
  apply flat_map_ext. intros Mf. apply map_ext. intros k.
  rewrite (nth_map_in (fun j => nth j Mf []) pi j 0%nat []) by lia.
  reflexivity.
Qed.

(** *** The solver on a cost matrix with reordered columns *)

Lemma index_of_spec v : forall l,
  In v l -> (index_of v l < length l)%nat /\ nth (index_of v l) l 0%nat = v.
Proof.
  induction l as [|x l IH]; intros Hin; [contradiction|]. simpl.
  destruct (Nat.eqb_spec x v) as [->|Hne]; simpl; [split; [lia | reflexivity]|].
  destruct Hin as [->|Hin]; [congruence|].
  destruct (IH Hin). split; [lia | auto].
Qed.

Lemma compose_perm pi tau n :
  Permutation pi (seq 0 n) -> Permutation tau (seq 0 n) ->
  Permutation (compose pi tau) (seq 0 n).
Proof.
  intros Hpi Htau. unfold compose.
  rewrite (Permutation_map (fun j => nth j pi 0%nat) Htau).
  destruct (perm_seq_bound pi n Hpi) as [HL _]. rewrite <- HL at 1.
  now rewrite map_nth_seq.
Qed.

Lemma compose_id tau n : Forall (fun j => (j < n)%nat) tau -> compose (seq 0 n) tau = tau.
Proof.
  intros H. unfold compose. rewrite <- (map_id tau) at 2.
  apply map_ext_in. intros j Hj. rewrite Forall_forall in H.
  now rewrite seq_nth by auto.
Qed.

Lemma inverse_exists pi sigma n :
  Permutation pi (seq 0 n) -> Permutation sigma (seq 0 n) ->
  exists tau, Permutation tau (seq 0 n) /\ compose pi tau = sigma.
Proof.
  intros Hpi Hsig. exists (map (fun v => index_of v pi) sigma).
  assert (Hin : forall v, In v sigma -> In v pi).
  { intros v Hv. apply (Permutation_in _ Hsig) in Hv.
    apply (Permutation_in _ (Permutation_sym Hpi)). exact Hv. }
  destruct (perm_seq_bound pi n Hpi) as [HLp _].
  destruct (perm_seq_bound sigma n Hsig) as [HLs _].
  split.
  - apply NoDup_Permutation_bis.
    + apply Finite.Injective_map_NoDup_in.
      * intros x y Hx Hy E.
        destruct (index_of_spec x pi (Hin x Hx)) as [_ Ex].
        destruct (index_of_spec y pi (Hin y Hy)) as [_ Ey].
        rewrite <- Ex, <- Ey, E. reflexivity.
      * apply (Permutation_NoDup (Permutation_sym Hsig)). apply seq_NoDup.
    + rewrite length_map, length_seq. lia.
    + intros j Hj. apply in_map_iff in Hj. destruct Hj as [v [<- Hv]].
      destruct (index_of_spec v pi (Hin v Hv)) as [Hlt _].
      apply in_seq. lia.
  - unfold compose. rewrite map_map. rewrite <- (map_id sigma) at 2.
    apply map_ext_in. intros v Hv.
    now destruct (index_of_spec v pi (Hin v Hv)).
Qed.

Lemma combine_map_r {A B T} (g : B -> T) : forall (l1 : list A) (l2 : list B),
  combine l1 (map g l2) = map (fun p => (fst p, g (snd p))) (combine l1 l2).
Proof.
  induction l1 as [|x l1 IH]; intros [|y l2]; simpl; auto. now rewrite IH.
Qed.

Lemma entry_colperm pi E i t :
  (i < length E)%nat -> (t < length pi)%nat ->
  entry (colperm pi E) i t = entry E i (nth t pi 0%nat).
Proof.
  intros Hi Ht. unfold entry, colperm.
  rewrite (nth_map_in (fun row => map (fun j => nth j row NaN) pi) E i [] []) by auto.
  apply (nth_map_in (fun j => nth j (nth i E []) NaN) pi t 0%nat NaN). auto.
Qed.

Lemma assignment_cost_colperm pi E tau :
  (length tau <= length E)%nat -> Forall (fun j => (j < length pi)%nat) tau ->
  assignment_cost (colperm pi E) tau = assignment_cost E (compose pi tau).
Proof.
  intros HL Ht. unfold assignment_cost, compose.
  rewrite length_map, combine_map_r, map_map. f_equal.
  apply map_ext_in. intros [i t] Hin. simpl.
  pose proof (in_combine_l _ _ _ _ Hin) as Hi. apply in_seq in Hi.
  pose proof (in_combine_r _ _ _ _ Hin) as Htin.
  rewrite Forall_forall in Ht.
  rewrite entry_colperm; auto. lia.
Qed.

Lemma forallb_perm {A} (f : A -> bool) (l l' : list A) :
  Permutation l l' -> forallb f l = forallb f l'.
Proof.
  induction 1; simpl; auto.
  - now rewrite IHPermutation.
  - destruct (f x), (f y); reflexivity.
  - congruence.
Qed.

Lemma colperm_finite pi E n :
  Permutation pi (seq 0 n) -> Forall (fun row => length row = n) E ->
  forallb (forallb is_finite) (colperm pi E) = forallb (forallb is_finite) E.
Proof.
  intros Hpi HE. unfold colperm.
  induction HE as [|row E Hrow HE IH]; simpl; auto.
  rewrite IH. f_equal.
  rewrite (forallb_perm _ _ _ (Permutation_map (fun j => nth j row NaN) Hpi)).
  rewrite <- Hrow. now rewrite map_nth_seq.
Qed.

Lemma colperm_id E n :
  Forall (fun row => length row = n) E -> colperm (seq 0 n) E = E.
Proof.
  intros HE. unfold colperm. rewrite <- (map_id E) at 2.
  apply map_ext_in. intros row Hrow. rewrite Forall_forall in HE.
  rewrite <- (HE row Hrow). apply map_nth_seq.
Qed.

Lemma seq_in_permutations n : In (seq 0 n) (permutations n).
Proof. apply permutations_spec. reflexivity. Qed.

Lemma argmin_first_perm cost n :
  Permutation (argmin_first cost (seq 0 n) (permutations n)) (seq 0 n).
Proof.
  destruct (argmin_first_in cost (permutations n) (seq 0 n)) as [<-|H];
    [reflexivity | now apply permutations_spec].
Qed.

Lemma argmin_first_unique cost n sigma :
  In sigma (permutations n) ->
  (forall tau, In tau (permutations n) -> tau <> sigma -> cost sigma < cost tau) ->
  argmin_first cost (seq 0 n) (permutations n) = sigma.
Proof.
  intros Hs Hu.
  set (s := argmin_first cost (seq 0 n) (permutations n)).
  destruct (list_eq_dec Nat.eq_dec s sigma) as [E|E]; auto.
  assert (Hin : In s (permutations n))
    by (apply permutations_spec; apply argmin_first_perm).
  pose proof (Hu s Hin E) as Hlt.
  pose proof (argmin_first_le cost (permutations n) (seq 0 n) sigma (or_intror Hs)) as Hle.
  fold s in Hle. lra.
Qed.

(** What the solver returns on [colperm pi E], in terms of what it returns
    on [E]: the same failure, or an assignment [tau] with
    [pi[tau[i]] = sigma[i]]. *)
Lemma lsa_colperm pi E n :
  length E = n -> Forall (fun row => length row = n) E ->
  Permutation pi (seq 0 n) ->
  pi = seq 0 n \/ unique_optimum E ->
  match linear_sum_assignment E with
  | Ok (_, sigma) =>
      exists rows tau,
        linear_sum_assignment (colperm pi E) = Ok (rows, tau) /\
        Permutation tau (seq 0 n) /\ compose pi tau = sigma
  | Raise e => linear_sum_assignment (colperm pi E) = Raise e
  end.
Proof.
  intros HL HE Hpi Hcase. unfold linear_sum_assignment.
  rewrite (colperm_finite pi E n Hpi HE).
  assert (HLc : length (colperm pi E) = n) by (unfold colperm; now rewrite length_map).
  rewrite HLc, HL.
  destruct (forallb (forallb is_finite) E); [|reflexivity].
  destruct Hcase as [->|[sigma [Hs Hu]]].
  - rewrite (colperm_id E n HE).
    do 2 eexists. split; [reflexivity|].
    pose proof (argmin_first_perm (assignment_cost E) n) as HP.
    split; auto. apply compose_id. apply perm_seq_bound in HP. tauto.
  - rewrite HL in Hs, Hu.
    rewrite (argmin_first_unique (assignment_cost E) n sigma Hs Hu).
    do 2 eexists. split; [reflexivity|].
    set (t := argmin_first (assignment_cost (colperm pi E)) (seq 0 n) (permutations n)).
    assert (Ht : Permutation t (seq 0 n)) by apply argmin_first_perm.
    split; auto.
    destruct (perm_seq_bound pi n Hpi) as [HLp _].
    assert (Hcost : forall tau, Permutation tau (seq 0 n) ->
                      assignment_cost (colperm pi E) tau
                      = assignment_cost E (compose pi tau)).
    { intros tau Htau. destruct (perm_seq_bound tau n Htau) as [HLt HBt].
      apply assignment_cost_colperm; [lia | now rewrite HLp]. }
    destruct (list_eq_dec Nat.eq_dec (compose pi t) sigma) as [Eq|Ne]; auto.
    exfalso.
    assert (Hc : In (compose pi t) (permutations n))
      by (apply permutations_spec; now apply compose_perm).
    pose proof (Hu _ Hc Ne) as Hlt.
    apply permutations_spec in Hs.
    destruct (inverse_exists pi sigma n Hpi Hs) as [t0 [Ht0 Et0]].
    assert (Hin0 : In t0 (permutations n)) by (now apply permutations_spec).
    pose proof (argmin_first_le (assignment_cost (colperm pi E)) (permutations n)
                                (seq 0 n) t0 (or_intror Hin0)) as Hle.
    fold t in Hle. rewrite !Hcost in Hle by auto. rewrite Et0 in Hle. lra.
Qed.

(** *** The invariance *)

Lemma apply_scale_perm_shape : forall (W : tensor) (D : list (list C)) pi F n,
  has_shape F n n W -> length D = F -> Forall (fun d => length d = n) D ->
  length pi = n -> Forall (fun j => (j < n)%nat) pi ->
  has_shape F n n (apply_scale_perm D pi W).
Proof.
  unfold apply_scale_perm.
  induction W as [|Wf W IH]; intros D pi F n [HL HW] HD HDn Hpi Hb.
  - destruct D; split; simpl in *; auto; lia.
  - destruct D as [|Df D]; [simpl in *; lia|].
    apply Forall_cons_iff in HW. destruct HW as [[HWf HWr] HW'].
    apply Forall_cons_iff in HDn. destruct HDn as [HDf HDn'].
    destruct (IH D pi (length W) n) as [G1 G2]; auto;
      [split; auto | simpl in *; lia |].
    split; [simpl in *; rewrite G1; lia|].
    cbn [combine map fst snd]. constructor; auto.
    split.
    + rewrite length_map, length_combine, length_map. lia.
    + apply Forall_map, Forall_forall. intros [d row] Hin. simpl.
      rewrite length_map. apply in_combine_r in Hin.
      apply in_map_iff in Hin. destruct Hin as [j [<- Hj]].
      rewrite Forall_forall in HWr, Hb. apply HWr. apply nth_In.
      specialize (Hb j Hj). simpl in Hb. lia.
Qed.

Lemma err_mat_rows n P : Forall (fun row => length row = n_rows P) (err_mat n P).
Proof.
  unfold err_mat. apply Forall_map, Forall_forall. intros i _.
  now rewrite length_map, length_seq.
Qed.

Lemma zabs3_shape P F n m : has_shape F n m P -> has_shape F n m (zabs3 P).
Proof.
  intros [HL HP]. unfold zabs3. split; [now rewrite length_map|].
  apply Forall_map. eapply Forall_impl; [|exact HP].
  intros Pf [H1 H2]. split; [now rewrite length_map|].
  apply Forall_map. eapply Forall_impl; [|exact H2].
  intros row Hrow. simpl. now rewrite length_map.
Qed.

Lemma scale_permute_eq W A :
  scale_permute W A =
  match linear_sum_assignment (cost_matrix W A) with
  | Ok (_, perm) =>
      Ok (take_rows perm (div_scale W (max_abs (matmul W A))),
          take_rows perm (div_scale (matmul W A) (max_abs (matmul W A))))
  | Raise e => Raise e
  end.
Proof.
  unfold scale_permute, cost_matrix.
  destruct (linear_sum_assignment _) as [[rows perm]|e]; reflexivity.
Qed.

Lemma isr_db_zabs3 F n P P' : zabs3 P = zabs3 P' -> isr_db F n P = isr_db F n P'.
Proof.
  intros E. unfold isr_db. now rewrite !leakage_sum_zabs3, E.
Qed.

(** C1, as amended: for every demixing estimate [W], every true mixing [A],
    every per-row complex non-zero scaling [D] and every channel
    permutation [pi], [ISR] of [D] applied to [pi] applied to [W] equals
    [ISR] of [W], provided the cost matrix of [W] has a single assignment
    of minimal cost, or [pi] is the identity.  (Arbitrary scaling alone
    never changes the result; a relabelling leaves it unchanged when the
    assignment solver has no tie to break.) *)
Theorem ISR_invariant_when_assignment_unique
        (W A : tensor) (D : list (list C)) (pi : list nat) (F n : nat) :
  (0 < F)%nat -> (0 < n)%nat ->
  has_shape F n n W -> has_shape F n n A ->
  length D = F ->
  Forall (fun d => length d = n /\ Forall (fun z => z <> C0) d) D ->
  Permutation pi (seq 0 n) ->
  pi = seq 0 n \/ unique_optimum (cost_matrix W A) ->
  ISR (apply_scale_perm D pi W) A = ISR W A.
Proof.
  intros HF Hn HW HA HD HDz Hpi Hcase.
  destruct F as [|F]; [lia|]. destruct n as [|n]; [lia|].
  destruct (perm_seq_bound pi (S n) Hpi) as [HLp HBp].
  assert (HDn : Forall (fun d : list C => length d = S n) D)
    by (eapply Forall_impl; [|exact HDz]; intros d [H1 _]; exact H1).
  set (W2 := apply_scale_perm D pi W).
  assert (HW2 : has_shape (S F) (S n) (S n) W2)
    by (apply apply_scale_perm_shape; auto).
  rewrite (ISR_eq W2 A F n HW2 HA), (ISR_eq W A F n HW HA).
  rewrite (scale_permute_eq W2 A), (scale_permute_eq W A).
  set (P1 := div_scale (matmul W A) (max_abs (matmul W A))).
  set (P1' := div_scale (matmul W2 A) (max_abs (matmul W2 A))).
  assert (HP1 : has_shape (S F) (S n) (S n) P1).
  { pose proof (matmul_shape W A _ _ _ _ HW HA) as HPs.
    destruct (max_abs_shape _ _ _ _ HPs). apply div_scale_shape; auto. }
  assert (Habs : zabs3 P1' = take_rows pi (zabs3 P1)).
  { unfold P1', P1. rewrite !zabs3_normalized_product.
    apply (abs_product_scale_perm W A D pi (S F) (S n)); auto. apply HA. }
  assert (HE : cost_matrix W2 A = colperm pi (cost_matrix W A)).
  { unfold cost_matrix. fold P1 P1'.
    destruct (has_shape_dims _ _ _ _ HW) as [_ ->]; [|discriminate].
    destruct (has_shape_dims _ _ _ _ HW2) as [_ ->]; [|discriminate].
    rewrite !err_mat_zabs3, Habs.
    apply (err_mat_abs_take_rows (S n) pi (zabs3 P1) F).
    - rewrite HLp. now apply zabs3_shape.
    - now rewrite HLp. }
  assert (HEs : length (cost_matrix W A) = S n /\
                Forall (fun row => length row = S n) (cost_matrix W A)).
  { unfold cost_matrix. fold P1.
    destruct (has_shape_dims _ _ _ _ HW) as [_ ->]; [|discriminate].
    split; [apply err_mat_length|].
    destruct (has_shape_dims _ _ _ _ HP1) as [Hr _].
    pose proof (err_mat_rows (S n) P1) as Hrows. now rewrite Hr in Hrows. }
  destruct HEs as [HEl HEr].
  pose proof (lsa_colperm pi (cost_matrix W A) (S n) HEl HEr Hpi Hcase) as Hlsa.
  rewrite HE.
  destruct (linear_sum_assignment (cost_matrix W A)) as [[rows sigma]|e].
  - destruct Hlsa as [rows' [tau [-> [Htau Hcomp]]]]. cbn [bind snd]. f_equal.
    apply isr_db_zabs3.
    rewrite !zabs3_take_rows, Habs, take_rows_compose, Hcomp; auto.
    apply perm_seq_bound in Htau. rewrite HLp. tauto.
  - rewrite Hlsa. reflexivity.
Qed.

(** *** A unique assignment: [I2] against [A0] *)

Lemma I2_A0_cost_matrix :
  cost_matrix I2 A0 = [[Fin (1/8); Fin (5/8)]; [Fin (5/8); Fin (1/8)]].
Proof.
  unfold cost_matrix. rewrite I2_A0_matmul, A0_max_abs, A0_div_scale.
  change (last_dim I2) with 2%nat. apply P0_err_mat.
Qed.

Lemma I2_A0_unique_optimum : unique_optimum (cost_matrix I2 A0).
Proof.
  rewrite I2_A0_cost_matrix. exists [0; 1]%nat. split.
  - apply permutations_spec. reflexivity.
  - intros tau Hin Hne.
    assert (Htau : tau = [0; 1]%nat \/ tau = [1; 0]%nat).
    { cbv [length permutations perms_of flat_map map remove Nat.eq_dec app seq
           nat_rec nat_rect eq_rec eq_rect f_equal sumbool_rec sumbool_rect eq_sym
           eq_ind_r eq_ind O_S n_Sn] in Hin.
      simpl in Hin. intuition. }
    destruct Htau as [->| ->]; [congruence|].
    cbv [assignment_cost length seq combine map fold_right entry nth toR fst snd].
    lra.
Qed.

Lemma ISR_invariant_when_assignment_unique_witness :
  ISR (apply_scale_perm D2 [1; 0]%nat I2) A0 = ISR I2 A0.
Proof.
  apply (ISR_invariant_when_assignment_unique I2 A0 D2 [1; 0]%nat 1 2).
  - lia.
  - lia.
  - exact I2_shape.
  - exact A0_shape.
  - reflexivity.
  - repeat constructor; intros H; injection H; intros; lra.
  - apply perm_swap.
  - right. exact I2_A0_unique_optimum.
Defined.

(** *** A tie: [W4] against the identity *)

Lemma I22_shape : has_shape 2 2 2 I22.
Proof. repeat constructor. Qed.

Lemma W4_shape : has_shape 2 2 2 W4.
Proof. repeat constructor. Qed.

Lemma W4s_shape : has_shape 2 2 2 W4s.
Proof. repeat constructor. Qed.

Lemma W4_relabelled : apply_scale_perm ones22 [1; 0]%nat W4 = W4s.
Proof.
  cbv [apply_scale_perm ones22 W4 W4s combine map nth fst snd Cmul].
  repeat (f_equal; try lra).
Qed.

Lemma W4_matmul : matmul W4 I22 = W4.
Proof.
  cbv [matmul W4 I22 combine map matmul2 fst snd seq ncols length dot column nth
       fold_right Cadd Cmul C0].
  repeat (f_equal; try lra).
Qed.

Lemma W4s_matmul : matmul W4s I22 = W4s.
Proof.
  cbv [matmul W4s I22 combine map matmul2 fst snd seq ncols length dot column nth
       fold_right Cadd Cmul C0].
  repeat (f_equal; try lra).
Qed.

Lemma W4_max_abs : max_abs W4 = [[1; 1]; [1; 1]].
Proof.
  cbv [max_abs W4 map row_max fold_right Cabs fst snd].
  r_eval. reflexivity.
Qed.

Lemma W4s_max_abs : max_abs W4s = [[1; 1]; [1; 1]].
Proof.
  cbv [max_abs W4s map row_max fold_right Cabs fst snd].
  r_eval. reflexivity.
Qed.

Lemma W4_div_scale : div_scale W4 [[1; 1]; [1; 1]] = P4.
Proof.
  cbv [div_scale W4 P4 map combine fst snd zdiv fdiv].
  r_eval. repeat (f_equal; try lra).
Qed.

Lemma W4s_div_scale : div_scale W4s [[1; 1]; [1; 1]] = P4s.
Proof.
  cbv [div_scale W4s P4s map combine fst snd zdiv fdiv].
  r_eval. repeat (f_equal; try lra).
Qed.

Lemma P4_err_mat : err_mat 2 P4 = E4.
Proof.
  cbv [err_mat P4 E4 map seq n_rows hd length flat_map app nth fmean fsum fold_left
       fsquare fabs fsub fadd fneg fmul eye Nat.eqb zabs INR fdiv].
  r_eval. repeat (f_equal; try lra).
Qed.

Lemma P4s_err_mat : err_mat 2 P4s = E4.
Proof.
  cbv [err_mat P4s E4 map seq n_rows hd length flat_map app nth fmean fsum fold_left
       fsquare fabs fsub fadd fneg fmul eye Nat.eqb zabs INR fdiv].
  r_eval. repeat (f_equal; try lra).
Qed.

Lemma W4_cost_matrix : cost_matrix W4 I22 = E4.
Proof.
  unfold cost_matrix. rewrite W4_matmul, W4_max_abs, W4_div_scale.
  change (last_dim W4) with 2%nat. apply P4_err_mat.
Qed.

Lemma W4s_cost_matrix : cost_matrix W4s I22 = E4.
Proof.
  unfold cost_matrix. rewrite W4s_matmul, W4s_max_abs, W4s_div_scale.
  change (last_dim W4s) with 2%nat. apply P4s_err_mat.
Qed.

Lemma E4_lsa : linear_sum_assignment E4 = Ok ([0; 1], [0; 1])%nat.
Proof. unfold E4. lsa_eval. reflexivity. Qed.

Lemma E4_tie : assignment_cost E4 [0; 1]%nat = assignment_cost E4 [1; 0]%nat.
Proof.
  cbv [assignment_cost E4 length seq combine map fold_right entry nth toR fst snd].
  lra.
Qed.

Lemma W4_scale_permute : scale_permute W4 I22 = Ok (P4, P4).
Proof.
  rewrite scale_permute_eq, W4_cost_matrix, E4_lsa.
  rewrite W4_matmul, W4_max_abs, W4_div_scale. reflexivity.
Qed.

Lemma W4s_scale_permute : scale_permute W4s I22 = Ok (P4s, P4s).
Proof.
  rewrite scale_permute_eq, W4s_cost_matrix, E4_lsa.
  rewrite W4s_matmul, W4s_max_abs, W4s_div_scale. reflexivity.
Qed.

Lemma P4_isr_db : isr_db 2 2 P4 = Fin (10 * (ln (329/144) / ln 10)).
Proof.
  unfold P4. db_eval. do 4 f_equal. lra.
Qed.

Lemma P4s_isr_db : isr_db 2 2 P4s = Fin (10 * (ln (69/64) / ln 10)).
Proof.
  unfold P4s. db_eval. do 4 f_equal. lra.
Qed.

Lemma W4_ISR : ISR W4 I22 = Ok (Fin (10 * (ln (329/144) / ln 10))).
Proof.
  rewrite (ISR_eq W4 I22 1 1 W4_shape I22_shape), W4_scale_permute. simpl.
  now rewrite P4_isr_db.
Qed.

Lemma W4s_ISR : ISR W4s I22 = Ok (Fin (10 * (ln (69/64) / ln 10))).
Proof.
  rewrite (ISR_eq W4s I22 1 1 W4s_shape I22_shape), W4s_scale_permute. simpl.
  now rewrite P4s_isr_db.
Qed.

(** C1 as stated fails: exchanging the two rows of [W4] (with unit
    scaling) changes the value of [ISR].  Both row orders give the same
    cost matrix, in which the two assignments cost the same; the solver
    therefore returns the same assignment for both, the rows of the
    corrected products come out in different orders, and these have
    different leakage: [10 log10 (69/64)] against [10 log10 (329/144)]. *)
Lemma ISR_changes_under_relabelling_with_tie :
  Permutation [1; 0]%nat (seq 0 2)
  /\ Forall (Forall (fun z => z <> C0)) ones22
  /\ cost_matrix (apply_scale_perm ones22 [1; 0]%nat W4) I22 = cost_matrix W4 I22
  /\ ISR (apply_scale_perm ones22 [1; 0]%nat W4) I22 <> ISR W4 I22.
Proof.
  split; [apply perm_swap|]. split.
  - repeat constructor; intros H; injection H; intros; lra.
  - rewrite W4_relabelled. split.
    + now rewrite W4s_cost_matrix, W4_cost_matrix.
    + rewrite W4s_ISR, W4_ISR. intros H. injection H as H.
      pose proof (db_lt (69/64) (329/144)). lra.
Qed.

(** * Further properties of the code *)

(** ** Products with the identity *)

Lemma Cmul_C1_r z : Cmul z C1 = z.
Proof. destruct z. unfold Cmul, C1. simpl. f_equal; ring. Qed.

Lemma Cadd_C0_r z : Cadd z C0 = z.
Proof. destruct z. unfold Cadd, C0. simpl. f_equal; ring. Qed.

Lemma Cadd_C0_l z : Cadd C0 z = z.
Proof. destruct z. unfold Cadd, C0. simpl. f_equal; ring. Qed.

(** Row [i] of [np.eye(n)] as complex numbers. *)
Lemma dot_unit_column (k : nat) : forall (xr : list C) (s : nat),
  dot xr (map (fun i => if Nat.eqb i k then C1 else C0) (seq s (length xr)))
  = if (s <=? k)%nat && (k <? s + length xr)%nat then nth (k - s) xr C0 else C0.
Proof.
  unfold dot. induction xr as [|x xr IH]; intros s; cbn [length seq map combine fold_right].
  - destruct (s <=? k)%nat, (k <? s + 0)%nat; simpl; auto; now destruct (k - s)%nat.
  - rewrite IH. cbn [fst snd].
    destruct (Nat.eqb_spec s k) as [->|Hne].
    + rewrite Cmul_C1_r.
      destruct (Nat.leb_spec (S k) k); [lia|]. cbn [andb].
      rewrite Cadd_C0_r. destruct (Nat.leb_spec k k); [|lia].
      destruct (Nat.ltb_spec k (k + S (length xr))); [|lia]. cbn [andb].
      now rewrite Nat.sub_diag.
    + rewrite Cmul_C0_r, Cadd_C0_l.
      destruct (Nat.leb_spec (S s) k), (Nat.ltb_spec k (S s + length xr)),
        (Nat.leb_spec s k), (Nat.ltb_spec k (s + S (length xr))); cbn [andb];
        try lia; auto.
      replace (k - s)%nat with (S (k - S s)) by lia. reflexivity.
Qed.

Lemma eye_tensor_repeat F n : eye_tensor F n = repeat (eye_matrix n) F.
Proof. unfold eye_tensor. apply map_const_repeat. apply length_seq. Qed.

Lemma ncols_eye_matrix n : ncols (eye_matrix n) = n.
Proof. destruct n; [reflexivity|]. unfold eye_matrix. simpl. now rewrite length_map, length_seq. Qed.

Lemma column_eye_matrix n k :
  (k < n)%nat ->
  column k (eye_matrix n) = map (fun i => if Nat.eqb i k then C1 else C0) (seq 0 n).
Proof.
  intros Hk. unfold column, eye_matrix. rewrite map_map. apply map_ext. intros i.
  now rewrite nth_map_seq by auto.
Qed.

Lemma row_product_eye xr : row_product (eye_matrix (length xr)) xr = xr.
Proof.
  unfold row_product. rewrite ncols_eye_matrix.
  transitivity (map (fun k => nth k xr C0) (seq 0 (length xr))); [|apply map_nth_seq].
  apply map_ext_in. intros k Hk. apply in_seq in Hk.
  rewrite column_eye_matrix by lia. rewrite dot_unit_column.
  destruct (Nat.leb_spec 0 k), (Nat.ltb_spec k (0 + length xr)); cbn [andb]; try lia.
  now rewrite Nat.sub_0_r.
Qed.

Lemma matmul2_eye X n :
  Forall (fun row => length row = n) X -> matmul2 X (eye_matrix n) = X.
Proof.
  intros HX. rewrite matmul2_rows. rewrite <- (map_id X) at 2.
  apply map_ext_in. intros xr Hxr. rewrite Forall_forall in HX.
  rewrite <- (HX xr Hxr). apply row_product_eye.
Qed.

(** [X @ eye = X] for a stack [X] of matrices with [n] columns. *)
Lemma matmul_eye_r : forall (X : tensor) F m n,
  has_shape F m n X -> matmul X (eye_tensor F n) = X.
Proof.
  intros X F m n [HL HX]. rewrite eye_tensor_repeat. subst F. unfold matmul.
  induction HX as [|Xf X [_ HXf] HX IH]; [reflexivity|].
  cbn [length repeat combine map fst snd]. rewrite IH. f_equal.
  now apply matmul2_eye.
Qed.

Lemma eye_tensor_shape F n : has_shape F n n (eye_tensor F n).
Proof.
  unfold eye_tensor. split; [now rewrite length_map, length_seq|].
  apply Forall_map, Forall_forall. intros f _.
  split; [now rewrite length_map, length_seq|].
  apply Forall_map, Forall_forall. intros i _. now rewrite length_map, length_seq.
Qed.

Lemma Cmul_C1_l z : Cmul C1 z = z.
Proof. destruct z. unfold Cmul, C1. simpl. f_equal; ring. Qed.

Lemma Cmul_C0_l z : Cmul C0 z = C0.
Proof. destruct z. unfold Cmul, C0. simpl. f_equal; ring. Qed.

(** Row [i] of [np.eye(n)] against a vector: its [i]-th entry. *)
Lemma dot_unit_row (i : nat) : forall (v : list C) (s : nat),
  dot (map (fun k => if Nat.eqb i k then C1 else C0) (seq s (length v))) v
  = if (s <=? i)%nat && (i <? s + length v)%nat then nth (i - s) v C0 else C0.
Proof.
  unfold dot. induction v as [|x v IH]; intros s; cbn [length seq map combine fold_right].
  - destruct (s <=? i)%nat, (i <? s + 0)%nat; simpl; auto; now destruct (i - s)%nat.
  - rewrite IH. cbn [fst snd].
    destruct (Nat.eqb_spec i s) as [->|Hne].
    + rewrite Cmul_C1_l.
      destruct (Nat.leb_spec (S s) s); [lia|]. cbn [andb].
      rewrite Cadd_C0_r. destruct (Nat.leb_spec s s); [|lia].
      destruct (Nat.ltb_spec s (s + S (length v))); [|lia]. cbn [andb].
      now rewrite Nat.sub_diag.
    + rewrite Cmul_C0_l, Cadd_C0_l.
      destruct (Nat.leb_spec (S s) i), (Nat.ltb_spec i (S s + length v)),
        (Nat.leb_spec s i), (Nat.ltb_spec i (s + S (length v))); cbn [andb];
        try lia; auto.
      replace (i - s)%nat with (S (i - S s)) by lia. reflexivity.
Qed.

Lemma length_column k (M : matrix) : length (column k M) = length M.
Proof. unfold column. apply length_map. Qed.

Lemma matmul2_eye_l (D : matrix) n m :
  shape2 n m D -> matmul2 (eye_matrix n) D = D.
Proof.
  intros [HL HD]. rewrite matmul2_rows. unfold eye_matrix. rewrite map_map.
  rewrite <- HL.
  transitivity (map (fun i => nth i D []) (seq 0 (length D))); [|apply map_nth_seq].
  apply map_ext_in. intros i Hi. apply in_seq in Hi.
  assert (Hrow : length (nth i D []) = m).
  { rewrite Forall_forall in HD. apply HD. apply nth_In. lia. }
  assert (Hcols : ncols D = m).
  { destruct D as [|r D]; [simpl in Hi; lia|]. simpl. now inversion HD. }
  unfold row_product. rewrite Hcols, <- Hrow.
  transitivity (map (fun k => nth k (nth i D []) C0) (seq 0 (length (nth i D []))));
    [|apply map_nth_seq].
  apply map_ext_in. intros k Hk. apply in_seq in Hk.
  rewrite <- (length_column k D). rewrite dot_unit_row.
  rewrite length_column.
  destruct (Nat.leb_spec 0 i), (Nat.ltb_spec i (0 + length D)); cbn [andb]; try lia.
  rewrite Nat.sub_0_r. unfold column.
  apply (nth_map_in (fun row => nth k row C0) D i [] C0). lia.
Qed.

(** [eye @ D = D] for a stack [D] of matrices with [n] rows. *)
Lemma matmul_eye_l : forall (D : tensor) F n m,
  has_shape F n m D -> matmul (eye_tensor F n) D = D.
Proof.
  intros D F n m [HL HD]. rewrite eye_tensor_repeat. subst F. unfold matmul.
  induction HD as [|Df D HDf HD IH]; [reflexivity|].
  cbn [length repeat combine map fst snd]. rewrite IH. f_equal.
  now apply matmul2_eye_l with (m := m).
Qed.

(** ** The progress tracker *)

Lemma tracker_loop_eq : forall n q printed,
  tracker_loop n q printed =
  if (n <=? length q)%nat
  then AllDone (printed ++ map (fun i => (n - i)%nat) (seq 1 n))
  else Waiting (n - length q) (printed ++ map (fun i => (n - i)%nat) (seq 1 (length q))).
Proof.
  induction n as [|n IH]; intros q printed.
  - simpl. now rewrite app_nil_r.
  - destruct q as [|x q].
    + simpl. now rewrite app_nil_r.
    + cbn [tracker_loop length]. rewrite IH.
      change (S n <=? S (length q))%nat with (n <=? length q)%nat.
      assert (E : forall m, (printed ++ [n]) ++ map (fun i => (n - i)%nat) (seq 1 m)
                            = printed ++ map (fun i => (S n - i)%nat) (seq 1 (S m))).
      { intros m. rewrite <- app_assoc. f_equal. cbn [seq map app].
        f_equal; [lia|]. rewrite <- (seq_shift m 1), map_map. apply map_ext. intros; lia. }
      rewrite !E. destruct (n <=? length q)%nat; reflexivity.
Qed.

(** X1: started on [n] tasks with the signals [q] in the queue, the tracker
    prints the remaining count once at the start and once after each signal
    it takes, counting down from [n].  It finishes, having printed
    [n, n-1, .., 0], when the queue holds at least [n] signals; otherwise
    it takes them all and blocks with [n - len(q)] tasks remaining. *)
Theorem progress_tracker_counts_down (n : nat) (q : list bool) :
  progress_tracker n q =
  if (n <=? length q)%nat then AllDone (countdown n n)
  else Waiting (n - length q) (countdown n (length q)).
Proof.
  unfold progress_tracker, countdown. rewrite tracker_loop_eq.
  cbn [seq map app]. rewrite Nat.sub_0_r. reflexivity.
Qed.

(** ** The task list in closed form *)

Lemma seq_offset_map a : forall m s,
  map (fun k => (a + k)%nat) (seq s m) = seq (a + s) m.
Proof.
  induction m as [|m IH]; intros s; cbn [seq map]; auto.
  rewrite IH. f_equal. f_equal. lia.
Qed.

Lemma tasks_of_closed_form `{NP : Numpy} frames dist algs q n_repeat (d : scenario) :
  forall (ps : list scenario) (s : nat) (g : rng),
    tasks_of frames dist algs q n_repeat (combine (seq s (length ps)) ps) g
    = map (fun k => mk_args frames dist algs q
                            ((s + k / n_repeat)%nat, nth (k / n_repeat) ps d)
                            (nth k (draws (length ps * n_repeat) g) 0%Z))
          (seq 0 (length ps * n_repeat)).
Proof.
  induction ps as [|p ps IH]; intros s g; [reflexivity|].
  cbn [length seq combine tasks_of Nat.mul].
  rewrite seq_app, map_app, draws_app. f_equal.
  - rewrite (map_via_seq _ (draws n_repeat g) 0%Z), length_draws.
    apply map_ext_in. intros k Hk. apply in_seq in Hk.
    rewrite Nat.div_small by lia. rewrite Nat.add_0_r. cbn [nth].
    now rewrite app_nth1 by (rewrite length_draws; lia).
  - rewrite IH. cbn [Nat.add].
    rewrite <- (map_id (seq n_repeat _)).
    replace (seq n_repeat (length ps * n_repeat))
      with (map (fun k => (n_repeat + k)%nat) (seq 0 (length ps * n_repeat))).
    2:{ rewrite seq_offset_map. f_equal. lia. }
    rewrite !map_map. apply map_ext_in. intros k Hk. apply in_seq in Hk.
    assert (Hn : (n_repeat <> 0)%nat) by (intros ->; rewrite Nat.mul_0_r in Hk; lia).
    replace ((n_repeat + k) / n_repeat)%nat with (S (k / n_repeat)).
    2:{ replace (n_repeat + k)%nat with (k + 1 * n_repeat)%nat by lia.
        rewrite Nat.div_add by auto. lia. }
    cbn [nth]. rewrite app_nth2 by (rewrite length_draws; lia).
    rewrite length_draws. replace (n_repeat + k - n_repeat)%nat with k by lia.
    f_equal. f_equal. lia.
Qed.

(** X2: [gen_args] returns [len(params) * n_repeat] tuples; the tuple at
    position [k] belongs to parameter set [k // n_repeat], carries that
    set's [n_freq], [n_chan] and [pca], the common [n_frames], [distrib],
    [algos] and [queue], and as seed the [k]-th draw of the stream seeded
    with the master seed.  The generator is left advanced by exactly that
    many draws. *)
Theorem gen_args_closed_form `{NP : Numpy}
        (master_seed : Z) (n_repeat : nat) (params : list scenario)
        (frames : nat) (dist : string) (algs : dict algo_spec) (q : nat)
        (g : rng) (d : scenario) :
  gen_args master_seed n_repeat params frames dist algs q g
  = (map (fun k => {| param_index := (k / n_repeat)%nat;
                      n_freq := p_n_freq (nth (k / n_repeat) params d);
                      n_chan := p_n_chan (nth (k / n_repeat) params d);
                      use_pca := p_pca (nth (k / n_repeat) params d);
                      n_frames := frames;
                      distrib := dist;
                      algos := algs;
                      seed := nth k (draws (length params * n_repeat)
                                           (np_random_seed master_seed)) 0%Z;
                      queue := q |})
         (seq 0 (length params * n_repeat)),
     advance (length params * n_repeat) (np_random_seed master_seed)).
Proof.
  rewrite gen_args_eq. f_equal. unfold enumerate.
  rewrite (tasks_of_closed_form frames dist algs q n_repeat d params 0).
  apply map_ext. intros k. reflexivity.
Qed.

(** ** What a trial returns *)

Section Trajectories.
Context `{B : Bss}.

Lemma run_algos_keys_exact a mix Y_init demix_init mix_mat eye_ :
  forall items isr cost isr' cost',
    run_algos a mix Y_init demix_init mix_mat eye_ items isr cost = Ok (isr', cost') ->
    forall name,
      (has_key isr' name <-> In name (map fst items) \/ has_key isr name) /\
      (has_key cost' name <-> In name (map fst items) \/ has_key cost name).
Proof.
  induction items as [|[k pmt] items IH]; intros isr cost isr' cost' E name; simpl in E.
  - injection E as <- <-. simpl. tauto.
  - destruct (run_algo a mix Y_init demix_init mix_mat eye_ pmt) as [st|e];
      simpl in E; [|discriminate].
    destruct (IH _ _ _ _ E name) as [H1 H2].
    rewrite H1, H2, !has_key_set. simpl. tauto.
Qed.

Lemma has_key_nil {V} (name : string) : ~ has_key (@nil (string * V)) name.
Proof. intros [v Hv]. discriminate. Qed.

Lemma one_loop_inv (a : args) (q q' : list bool) (res : trial_result) :
  one_loop a q = (Ok res, q') ->
  exists mix ref_ mix_mat,
    bss_rand_mixture (n_freq a) (n_chan a) (n_frames a) (distrib a)
                     (np_random_seed (seed a)) = (mix, ref_, mix_mat) /\
    pi_of res = param_index a /\
    run_algos a mix (fst (init_state a mix (eye_tensor (n_freq a) (n_chan a))))
              (snd (init_state a mix (eye_tensor (n_freq a) (n_chan a))))
              mix_mat (eye_tensor (n_freq a) (n_chan a)) (algos a) [] []
    = Ok (isr_of res, cost_of res).
Proof.
  unfold one_loop.
  destruct (bss_rand_mixture _ _ _ _ _) as [[mix ref_] mix_mat].
  destruct (init_state a mix _) as [Y_init demix_init] eqn:Ei.
  destruct (run_algos _ _ _ _ _ _ _ _ _) as [[isr cost]|e] eqn:E; [|discriminate].
  intros Hr. injection Hr as <- _. exists mix, ref_, mix_mat.
  split; [reflexivity|]. split; [reflexivity|]. rewrite Ei. exact E.
Qed.

Lemma run_callbacks_lengths demix_init mix_mat : forall cs st st',
  run_callbacks demix_init mix_mat st cs = Ok st' ->
  length (fst st') = (length (fst st) + length cs)%nat /\
  length (snd st') = (length (snd st) + length cs)%nat.
Proof.
  induction cs as [|[Y D] cs IH]; intros st st' E; simpl in E.
  - injection E as <-. simpl. lia.
  - destruct (callback demix_init mix_mat st Y D) as [st1|e] eqn:E1; simpl in E;
      [|discriminate].
    destruct (IH _ _ E) as [H1 H2]. unfold callback in E1.
    destruct (ISR (matmul D demix_init) mix_mat) as [v|e]; simpl in E1; [|discriminate].
    injection E1 as <-. cbn [fst snd length] in *. rewrite !length_app in *.
    cbn [length] in *. lia.
Qed.

Lemma run_algo_lengths a mix Y_init demix_init mix_mat eye_ pmt li lc :
  run_algo a mix Y_init demix_init mix_mat eye_ pmt = Ok (li, lc) ->
  length li = length lc /\ (1 <= length li)%nat.
Proof.
  unfold run_algo.
  destruct (dict_get bss_is_dual_update (algo pmt)) as [dual|e]; simpl; [|discriminate].
  unfold callback at 1.
  destruct (ISR (matmul eye_ demix_init) mix_mat) as [v|e]; simpl; [|discriminate].
  destruct (dict_get bss_algos (algo pmt)) as [f|e]; simpl; [|discriminate].
  destruct (run_callbacks _ _ _ _) as [st1|e] eqn:E; simpl; [|discriminate].
  destruct (outcome _) as [x|e]; simpl; [|discriminate].
  intros Hst. injection Hst as Hst. subst st1.
  destruct (run_callbacks_lengths _ _ _ _ _ E) as [H1 H2]. cbn [fst snd length] in *. lia.
Qed.

(** An invariant [Inv] of the pair of lists recorded for one algorithm
    holds of every pair of entries the two dictionaries hold under one
    name. *)
Lemma run_algos_entries (Inv : list npfloat -> list npfloat -> Prop)
      a mix Y_init demix_init mix_mat eye_ :
  (forall pmt li lc,
      run_algo a mix Y_init demix_init mix_mat eye_ pmt = Ok (li, lc) -> Inv li lc) ->
  forall items isr cost isr' cost',
    (forall name li lc, dict_get isr name = Ok li -> dict_get cost name = Ok lc ->
                        Inv li lc) ->
    run_algos a mix Y_init demix_init mix_mat eye_ items isr cost = Ok (isr', cost') ->
    forall name li lc, dict_get isr' name = Ok li -> dict_get cost' name = Ok lc ->
                       Inv li lc.
Proof.
  intros Hrun. induction items as [|[k pmt] items IH]; intros isr cost isr' cost' H0 E;
    simpl in E.
  - injection E as <- <-. exact H0.
  - destruct (run_algo a mix Y_init demix_init mix_mat eye_ pmt) as [[li0 lc0]|e] eqn:E1;
      simpl in E; [|discriminate].
    apply (IH _ _ _ _) with (2 := E). intros name li lc.
    destruct (string_dec k name) as [->|Hne].
    + rewrite !dict_get_set_same. intros Hi Hc. injection Hi as <-. injection Hc as <-.
      eapply Hrun; eauto.
    + rewrite !dict_get_set_other by auto. apply H0.
Qed.

Lemma run_algos_registered a mix Y_init demix_init mix_mat eye_ :
  forall items isr cost isr' cost',
    run_algos a mix Y_init demix_init mix_mat eye_ items isr cost = Ok (isr', cost') ->
    forall k pmt, In (k, pmt) items ->
                  has_key bss_is_dual_update (algo pmt) /\ has_key bss_algos (algo pmt).
Proof.
  induction items as [|[k0 pmt0] items IH]; intros isr cost isr' cost' E k pmt Hin;
    [contradiction|]. simpl in E.
  destruct (run_algo a mix Y_init demix_init mix_mat eye_ pmt0) as [st|e] eqn:E1;
    simpl in E; [|discriminate].
  destruct Hin as [Hin|Hin]; [|eapply IH; eauto].
  injection Hin as -> ->. revert E1. unfold run_algo.
  destruct (dict_get bss_is_dual_update (algo pmt)) as [dual|e] eqn:Ed; simpl;
    [|discriminate].
  destruct (callback _ _ _ _ _) as [st0|e]; simpl; [|discriminate].
  destruct (dict_get bss_algos (algo pmt)) as [f|e] eqn:Ef; simpl; [|discriminate].
  intros _. split; eexists; eauto.
Qed.

End Trajectories.

(** X4: a trial that returns hands back the parameter index of its task
    and two dictionaries whose keys are exactly the configured algorithm
    names: one ISR trajectory and one cost trajectory per algorithm, and
    nothing else. *)
Theorem one_loop_returns_one_entry_per_algorithm `{B : Bss}
        (a : args) (q q' : list bool) (res : trial_result) :
  one_loop a q = (Ok res, q') ->
  pi_of res = param_index a /\
  forall name,
    (has_key (isr_of res) name <-> In name (map fst (algos a))) /\
    (has_key (cost_of res) name <-> In name (map fst (algos a))).
Proof.
  intros E. destruct (one_loop_inv a q q' res E) as [mix [ref_ [mix_mat [_ [Hpi Hrun]]]]].
  split; auto. intros name.
  destruct (run_algos_keys_exact _ _ _ _ _ _ _ _ _ _ _ Hrun name) as [H1 H2].
  rewrite H1, H2. split; split; auto; intros [K|K]; auto; now apply has_key_nil in K.
Qed.

Lemma one_loop_returns_one_entry_per_algorithm_witness :
  pi_of result0 = param_index task0 /\
  forall name,
    (has_key (isr_of result0) name <-> In name (map fst (algos task0))) /\
    (has_key (cost_of result0) name <-> In name (map fst (algos task0))).
Proof.
  exact (@one_loop_returns_one_entry_per_algorithm counter_numpy (stub_bss run_returns I2)
           task0 [] [true] result0 (task0_returns [])).
Defined.

(** X5: in the result of a trial the ISR trajectory and the cost trajectory
    of an algorithm have the same length, and hold at least the point
    recorded before the separation starts: the callback appends to both
    lists or to neither. *)
Theorem one_loop_trajectories_have_equal_length `{B : Bss}
        (a : args) (q q' : list bool) (res : trial_result)
        (name : string) (li lc : list npfloat) :
  one_loop a q = (Ok res, q') ->
  dict_get (isr_of res) name = Ok li ->
  dict_get (cost_of res) name = Ok lc ->
  length li = length lc /\ (1 <= length li)%nat.
Proof.
  intros E Hi Hc.
  destruct (one_loop_inv a q q' res E) as [mix [ref_ [mix_mat [_ [_ Hrun]]]]].
  eapply (run_algos_entries (fun li lc => length li = length lc /\ (1 <= length li)%nat));
    [ | | exact Hrun | exact Hi | exact Hc].
  - intros pmt l1 l2. apply run_algo_lengths.
  - intros nm l1 l2 K. discriminate.
Qed.

Lemma one_loop_trajectories_have_equal_length_witness :
  length [NInf] = length [cost0] /\ (1 <= length [NInf])%nat.
Proof.
  exact (@one_loop_trajectories_have_equal_length counter_numpy (stub_bss run_returns I2)
           task0 [] [true] result0 "auxiva" [NInf] [cost0]
           (task0_returns []) eq_refl eq_refl).
Defined.

(** X6: if one of the configured algorithms is missing from
    [bss.is_dual_update] or from [bss.algos], the trial raises, whatever
    the other algorithms do, and posts no completion signal. *)
Theorem one_loop_raises_on_unregistered_algorithm `{B : Bss}
        (a : args) (q : list bool) (key : string) (pmt : algo_spec) :
  In (key, pmt) (algos a) ->
  ~ has_key bss_is_dual_update (algo pmt) \/ ~ has_key bss_algos (algo pmt) ->
  exists e, one_loop a q = (Raise e, q).
Proof.
  intros Hin Hno. pose proof (one_loop_queue a q) as Hq.
  destruct (one_loop a q) as [[res|e] q'] eqn:E.
  - exfalso.
    destruct (one_loop_inv a q q' res E) as [mix [ref_ [mix_mat [_ [_ Hrun]]]]].
    destruct (run_algos_registered _ _ _ _ _ _ _ _ _ _ _ Hrun key pmt Hin) as [H1 H2].
    tauto.
  - subst q'. eauto.
Qed.

Lemma one_loop_raises_on_unregistered_algorithm_witness :
  exists e, @one_loop counter_numpy (stub_bss run_returns I2) task_unregistered []
            = (Raise e, []).
Proof.
  apply (@one_loop_raises_on_unregistered_algorithm counter_numpy (stub_bss run_returns I2)
           task_unregistered []
           "fastiva" {| algo := "fastiva"; n_iter := 2; other_kwargs := [] |}).
  - left. reflexivity.
  - left. intros [v Hv]. discriminate.
Defined.

(** *** The first point of every trajectory *)

Lemma run_algos_first_point `{B : Bss} a mix Y_init demix_init mix_mat eye_ isr cost :
  run_algos a mix Y_init demix_init mix_mat eye_ (algos a) [] [] = Ok (isr, cost) ->
  forall name li lc,
    dict_get isr name = Ok li -> dict_get cost name = Ok lc ->
    exists v rest_i rest_c,
      ISR (matmul eye_ demix_init) mix_mat = Ok v /\
      li = v :: rest_i /\
      lc = cost_value (transpose_201 mix) eye_ :: rest_c.
Proof.
  intros Hrun name li lc Hi Hc.
  eapply (run_algos_entries
            (fun li lc => exists v rest_i rest_c,
                 ISR (matmul eye_ demix_init) mix_mat = Ok v /\
                 li = v :: rest_i /\
                 lc = cost_value (transpose_201 mix) eye_ :: rest_c));
    [ | | exact Hrun | exact Hi | exact Hc].
  - intros pmt l1 l2. apply first_point_recorded.
  - intros nm l1 l2 K. discriminate.
Qed.

(** X7: without PCA initialisation, every ISR trajectory a trial returns
    starts with [ISR(eye, mix_mat)], the ISR of the raw mixture, and every
    cost trajectory with the cost of the raw mixture: the first point is
    the same for all algorithms. *)
Theorem one_loop_first_point_without_pca `{B : Bss}
        (a : args) (q q' : list bool) (res : trial_result)
        (name : string) (li lc : list npfloat) :
  use_pca a = false ->
  one_loop a q = (Ok res, q') ->
  dict_get (isr_of res) name = Ok li ->
  dict_get (cost_of res) name = Ok lc ->
  let eye_ := eye_tensor (n_freq a) (n_chan a) in
  let mixture := bss_rand_mixture (n_freq a) (n_chan a) (n_frames a) (distrib a)
                                  (np_random_seed (seed a)) in
  exists v rest_i rest_c,
    ISR eye_ (snd mixture) = Ok v /\
    li = v :: rest_i /\
    lc = cost_value (transpose_201 (fst (fst mixture))) eye_ :: rest_c.
Proof.
  intros Hpca E Hi Hc eye_ mixture.
  destruct (one_loop_inv a q q' res E) as [mix [ref_ [mix_mat [Hmix [_ Hrun]]]]].
  fold mixture in Hmix. rewrite Hmix. cbn [fst snd].
  unfold init_state in Hrun. rewrite Hpca in Hrun. cbn [fst snd] in Hrun.
  fold eye_ in Hrun.
  destruct (run_algos_first_point _ _ _ _ _ _ _ _ Hrun name li lc Hi Hc)
    as [v [ri [rc [Hv [H1 H2]]]]].
  exists v, ri, rc. split; auto.
  rewrite <- Hv. f_equal. symmetry.
  apply (matmul_eye_r eye_ (n_freq a) (n_chan a) (n_chan a)). apply eye_tensor_shape.
Qed.

Lemma one_loop_first_point_without_pca_witness :
  exists v rest_i rest_c,
    ISR (eye_tensor 1 2) I2 = Ok v /\
    [NInf] = v :: rest_i /\
    [cost0] = @cost_value counter_numpy (transpose_201 mix1) (eye_tensor 1 2) :: rest_c.
Proof.
  exact (@one_loop_first_point_without_pca counter_numpy (stub_bss run_returns I2)
           task0 [] [true] result0 "auxiva" [NInf] [cost0]
           eq_refl (task0_returns []) eq_refl eq_refl).
Defined.

(** X8: with PCA initialisation, every ISR trajectory a trial returns
    starts with [ISR(demix_init, mix_mat)], the ISR of the PCA filter
    (given that this filter has one matrix of [n_chan] rows per frequency
    bin); the cost trajectory still starts with the cost of the raw mixture
    and the identity filter. *)
Theorem one_loop_first_point_with_pca `{B : Bss}
        (a : args) (q q' : list bool) (res : trial_result)
        (name : string) (li lc : list npfloat) (m : nat) :
  use_pca a = true ->
  one_loop a q = (Ok res, q') ->
  dict_get (isr_of res) name = Ok li ->
  dict_get (cost_of res) name = Ok lc ->
  let eye_ := eye_tensor (n_freq a) (n_chan a) in
  let mixture := bss_rand_mixture (n_freq a) (n_chan a) (n_frames a) (distrib a)
                                  (np_random_seed (seed a)) in
  let demix_init := snd (bss_pca (transpose_201 (fst (fst mixture)))) in
  has_shape (n_freq a) (n_chan a) m demix_init ->
  exists v rest_i rest_c,
    ISR demix_init (snd mixture) = Ok v /\
    li = v :: rest_i /\
    lc = cost_value (transpose_201 (fst (fst mixture))) eye_ :: rest_c.
Proof.
  intros Hpca E Hi Hc eye_ mixture demix_init Hshape.
  destruct (one_loop_inv a q q' res E) as [mix [ref_ [mix_mat [Hmix [_ Hrun]]]]].
  fold mixture in Hmix. unfold demix_init in *. rewrite Hmix in *. cbn [fst snd] in *.
  unfold init_state in Hrun. rewrite Hpca in Hrun. cbv iota in Hrun. fold eye_ in Hrun.
  destruct (bss_pca (transpose_201 mix)) as [Y_init D] eqn:Epca. cbn [fst snd] in *.
  destruct (run_algos_first_point _ _ _ _ _ _ _ _ Hrun name li lc Hi Hc)
    as [v [ri [rc [Hv [H1 H2]]]]].
  exists v, ri, rc. split; auto.
  rewrite <- Hv. f_equal. symmetry.
  apply (matmul_eye_l D (n_freq a) (n_chan a) m Hshape).
Qed.

Lemma task_pca_returns q :
  @one_loop counter_numpy (stub_bss run_returns Q0) task_pca q
  = (Ok (0%nat, [("auxiva"%string, [Fin (10 * (ln (1/2) / ln 10))])],
         [("auxiva"%string, [cost0])]), q ++ [true]).
Proof.
  unfold one_loop. cbn [stub_bss bss_rand_mixture counter_numpy np_random_seed task_pca
                        seed n_freq n_chan n_frames distrib Z.eqb Pos.eqb].
  change (eye_tensor 1 2) with I2.
  unfold init_state. cbn [task_pca use_pca algos one_algo run_algos stub_bss bss_pca].
  unfold run_algo at 1.
  cbn [stub_bss bss_is_dual_update bss_algos algo dict_get String.eqb Ascii.eqb
       Bool.eqb bind andb].
  unfold callback at 1. rewrite I2_Q0_matmul, Q0_A0_ISR.
  reflexivity.
Qed.

Lemma one_loop_first_point_with_pca_witness :
  exists v rest_i rest_c,
    ISR Q0 A0 = Ok v /\
    [Fin (10 * (ln (1/2) / ln 10))] = v :: rest_i /\
    [cost0] = @cost_value counter_numpy (transpose_201 mix1) (eye_tensor 1 2) :: rest_c.
Proof.
  apply (@one_loop_first_point_with_pca counter_numpy (stub_bss run_returns Q0)
           task_pca [] [true]
           (0%nat, [("auxiva"%string, [Fin (10 * (ln (1/2) / ln 10))])],
            [("auxiva"%string, [cost0])])
           "auxiva" [Fin (10 * (ln (1/2) / ln 10))] [cost0] 2%nat).
  - reflexivity.
  - exact (task_pca_returns []).
  - reflexivity.
  - reflexivity.
  - repeat constructor.
Defined.

(** *** One point per checkpoint *)

Section Points.
Context `{B : Bss}.

Lemma run_algo_points a mix Y_init demix_init mix_mat eye_ pmt li lc :
  run_algo a mix Y_init demix_init mix_mat eye_ pmt = Ok (li, lc) ->
  exists dual f,
    dict_get bss_is_dual_update (algo pmt) = Ok dual /\
    dict_get bss_algos (algo pmt) = Ok f /\
    length li = S (length (calls (f Y_init (distrib a)
                                    (callback_checkpoints dual (n_iter pmt)) pmt))) /\
    length lc = length li.
Proof.
  unfold run_algo.
  destruct (dict_get bss_is_dual_update (algo pmt)) as [dual|e]; simpl; [|discriminate].
  unfold callback at 1.
  destruct (ISR (matmul eye_ demix_init) mix_mat) as [v|e]; simpl; [|discriminate].
  destruct (dict_get bss_algos (algo pmt)) as [f|e]; simpl; [|discriminate].
  destruct (run_callbacks _ _ _ _) as [st1|e] eqn:E; simpl; [|discriminate].
  destruct (outcome _) as [x|e]; simpl; [|discriminate].
  intros Hst. injection Hst as Hst. subst st1.
  destruct (run_callbacks_lengths _ _ _ _ _ E) as [H1 H2]. cbn [fst snd length] in *.
  exists dual, f. repeat split; auto; lia.
Qed.

(** An invariant [Inv] of the entries recorded under a name holds of the
    entries of the final dictionaries when every configured algorithm
    establishes it under its own name. *)
Lemma run_algos_entries_named (Inv : string -> list npfloat -> list npfloat -> Prop)
      a mix Y_init demix_init mix_mat eye_ :
  forall items isr cost isr' cost',
    (forall k pmt li lc,
        In (k, pmt) items ->
        run_algo a mix Y_init demix_init mix_mat eye_ pmt = Ok (li, lc) -> Inv k li lc) ->
    (forall name li lc, dict_get isr name = Ok li -> dict_get cost name = Ok lc ->
                        Inv name li lc) ->
    run_algos a mix Y_init demix_init mix_mat eye_ items isr cost = Ok (isr', cost') ->
    forall name li lc, dict_get isr' name = Ok li -> dict_get cost' name = Ok lc ->
                       Inv name li lc.
Proof.
  induction items as [|[k pmt] items IH]; intros isr cost isr' cost' Hrun H0 E;
    simpl in E.
  - injection E as <- <-. exact H0.
  - destruct (run_algo a mix Y_init demix_init mix_mat eye_ pmt) as [[li0 lc0]|e] eqn:E1;
      simpl in E; [|discriminate].
    apply (IH _ _ _ _) with (3 := E).
    + intros k' pmt' li lc Hin. apply Hrun. right; auto.
    + intros name li lc.
      destruct (string_dec k name) as [->|Hne].
      * rewrite !dict_get_set_same. intros Hi Hc. injection Hi as <-. injection Hc as <-.
        apply (Hrun name pmt); auto. left; auto.
      * rewrite !dict_get_set_other by auto. apply H0.
Qed.

Lemma NoDup_keys_unique {V} (d : dict V) k v v' :
  NoDup (map fst d) -> In (k, v) d -> In (k, v') d -> v = v'.
Proof.
  induction d as [|[k0 v0] d IH]; intros ND H1 H2; [contradiction|].
  simpl in ND. inversion ND as [|? ? Hnotin ND']; subst.
  destruct H1 as [E1|H1], H2 as [E2|H2].
  - congruence.
  - injection E1 as -> ->. exfalso. apply Hnotin.
    apply in_map_iff. exists (k, v'). auto.
  - injection E2 as -> ->. exfalso. apply Hnotin.
    apply in_map_iff. exists (k, v). auto.
  - auto.
Qed.

Lemma trial_trajectory_length (a : args) (res : trial_result)
      (name : string) (pmt : algo_spec) (dual : bool) (li lc : list npfloat) :
  NoDup (map fst (algos a)) ->
  (forall nm f Y d cps p, dict_get bss_algos nm = Ok f ->
                          length (calls (f Y d cps p)) = length cps) ->
  trial a = Ok res ->
  In (name, pmt) (algos a) ->
  dict_get bss_is_dual_update (algo pmt) = Ok dual ->
  dict_get (isr_of res) name = Ok li ->
  dict_get (cost_of res) name = Ok lc ->
  length li = S (length (callback_checkpoints dual (n_iter pmt))) /\
  length lc = S (length (callback_checkpoints dual (n_iter pmt))).
Proof.
  intros ND Hcalls Ht Hin Hdual Hi Hc.
  unfold trial in Ht.
  assert (E : one_loop a [] = (Ok res, snd (one_loop a [])))
    by (rewrite <- Ht; apply surjective_pairing).
  destruct (one_loop_inv a [] _ res E) as [mix [ref_ [mix_mat [_ [_ Hrun]]]]].
  assert (G : exists p, In (name, p) (algos a) /\
                exists du f, dict_get bss_is_dual_update (algo p) = Ok du /\
                             dict_get bss_algos (algo p) = Ok f /\
                             length li = S (length (callback_checkpoints du (n_iter p))) /\
                             length lc = length li).
  { eapply (run_algos_entries_named
              (fun k li lc => exists p, In (k, p) (algos a) /\
                 exists du f, dict_get bss_is_dual_update (algo p) = Ok du /\
                              dict_get bss_algos (algo p) = Ok f /\
                              length li = S (length (callback_checkpoints du (n_iter p))) /\
                              length lc = length li));
      [ | | exact Hrun | exact Hi | exact Hc].
    - intros k p l1 l2 Hk Hr. exists p. split; auto.
      destruct (run_algo_points _ _ _ _ _ _ _ _ _ Hr) as [du [f [H1 [H2 [H3 H4]]]]].
      exists du, f. rewrite (Hcalls _ _ _ _ _ _ H2) in H3. auto.
    - intros nm l1 l2 K. discriminate. }
  destruct G as [p [Hp [du [f [Hdu [Hf [HL1 HL2]]]]]]].
  assert (p = pmt) by (eapply NoDup_keys_unique; eauto). subst p.
  rewrite Hdual in Hdu. injection Hdu as <-. split; lia.
Qed.

End Points.

Lemma length_callback_checkpoints (dual : bool) (iters : Z) :
  length (callback_checkpoints dual iters)
  = Z.to_nat (if dual then iters / 2 else iters).
Proof.
  unfold callback_checkpoints. destruct dual.
  - now rewrite arange_from_2_step_2, length_map, length_seq.
  - now rewrite arange_from_1_step_1, length_map, length_seq.
Qed.

(** X9: when the algorithm names are distinct and every separation
    routine invokes the callback exactly once per checkpoint it is given,
    the two trajectories a trial returns for an algorithm have
    [1 + n_iter // 2] points if the algorithm is dual-update and
    [1 + n_iter] points otherwise. *)
Theorem one_loop_records_one_point_per_checkpoint `{B : Bss}
        (a : args) (q q' : list bool) (res : trial_result)
        (name : string) (pmt : algo_spec) (dual : bool) (li lc : list npfloat) :
  NoDup (map fst (algos a)) ->
  (forall nm f Y d cps p, dict_get bss_algos nm = Ok f ->
                          length (calls (f Y d cps p)) = length cps) ->
  one_loop a q = (Ok res, q') ->
  In (name, pmt) (algos a) ->
  dict_get bss_is_dual_update (algo pmt) = Ok dual ->
  dict_get (isr_of res) name = Ok li ->
  dict_get (cost_of res) name = Ok lc ->
  length li = S (Z.to_nat (if dual then n_iter pmt / 2 else n_iter pmt)) /\
  length lc = S (Z.to_nat (if dual then n_iter pmt / 2 else n_iter pmt)).
Proof.
  intros ND Hcalls E Hin Hdual Hi Hc.
  rewrite <- length_callback_checkpoints.
  apply (trial_trajectory_length a res name pmt dual li lc); auto.
  rewrite <- (one_loop_trial a q), E. reflexivity.
Qed.

Lemma calling_bss_calls nm f Y d cps p :
  dict_get (@bss_algos counter_numpy calling_bss) nm = Ok f ->
  length (calls (f Y d cps p)) = length cps.
Proof.
  cbn [calling_bss bss_algos dict_get].
  destruct (String.eqb nm "auxiva"); [|discriminate].
  intros E. injection E as <-. cbn [calling_run calls]. apply length_map.
Qed.

Lemma task0_calling q :
  @one_loop counter_numpy calling_bss task0 q = (Ok result_calling, q ++ [true]).
Proof.
  unfold one_loop. cbn [calling_bss bss_rand_mixture counter_numpy np_random_seed task0
                        seed n_freq n_chan n_frames distrib Z.eqb].
  change (eye_tensor 1 2) with I2.
  unfold init_state. cbn [task0 use_pca algos one_algo run_algos].
  unfold run_algo at 1.
  cbn [calling_bss bss_is_dual_update bss_algos algo dict_get String.eqb Ascii.eqb
       Bool.eqb bind andb].
  unfold callback at 1. rewrite I2_I2_matmul, I2_I2_ISR. cbn [bind fst snd app].
  change (callback_checkpoints false (n_iter {| algo := "auxiva"; n_iter := 2;
                                               other_kwargs := [] |}))
    with [1%Z; 2%Z].
  cbn [calling_run calls map run_callbacks outcome].
  unfold callback. rewrite I2_I2_matmul, I2_I2_ISR. cbn [bind fst snd app].
  reflexivity.
Qed.

Lemma one_loop_records_one_point_per_checkpoint_witness :
  length [NInf; NInf; NInf] = S (Z.to_nat (if false then 2 / 2 else 2)) /\
  length [cost0; @cost_value counter_numpy Yc I2; @cost_value counter_numpy Yc I2]
  = S (Z.to_nat (if false then 2 / 2 else 2)).
Proof.
  apply (@one_loop_records_one_point_per_checkpoint counter_numpy calling_bss
           task0 [] [true] result_calling "auxiva"
           {| algo := "auxiva"; n_iter := 2; other_kwargs := [] |} false
           [NInf; NInf; NInf]
           [cost0; @cost_value counter_numpy Yc I2; @cost_value counter_numpy Yc I2]).
  - repeat constructor. simpl. tauto.
  - exact calling_bss_calls.
  - exact (task0_calling []).
  - left. reflexivity.
  - reflexivity.
  - reflexivity.
  - reflexivity.
Defined.

(** *** The checkpoints of a trajectory *)

Section CheckpointTrajectory.
Context `{B : Bss}.

(** Every callback appends one point to each list: the ISR of the filter
    it is given, composed with the initial filter, and the cost. *)
Lemma run_callbacks_points demix_init mix_mat : forall cs st st',
  run_callbacks demix_init mix_mat st cs = Ok st' ->
  map (@Ok npfloat) (fst st')
  = map (@Ok npfloat) (fst st)
    ++ map (fun c => ISR (matmul (snd c) demix_init) mix_mat) cs /\
  snd st' = snd st ++ map (fun c => cost_value (fst c) (snd c)) cs.
Proof.
  induction cs as [|[Y D] cs IH]; intros st st' E; simpl in E.
  - injection E as <-. simpl. now rewrite !app_nil_r.
  - destruct (callback demix_init mix_mat st Y D) as [st1|e] eqn:E1; simpl in E;
      [|discriminate].
    destruct (IH _ _ E) as [H1 H2]. unfold callback in E1.
    destruct (ISR (matmul D demix_init) mix_mat) as [v|e] eqn:Ev; simpl in E1;
      [|discriminate].
    injection E1 as <-. cbn [fst snd] in *.
    rewrite H1, H2, map_app. cbn [map fst snd]. rewrite Ev, <- !app_assoc.
    split; reflexivity.
Qed.

Lemma run_algo_eq a mix Y_init demix_init mix_mat eye_ pmt dual f :
  dict_get bss_is_dual_update (algo pmt) = Ok dual ->
  dict_get bss_algos (algo pmt) = Ok f ->
  run_algo a mix Y_init demix_init mix_mat eye_ pmt
  = (st0 <- callback demix_init mix_mat ([], []) (transpose_201 mix) eye_ ;;
     st1 <- run_callbacks demix_init mix_mat st0
              (calls (f Y_init (distrib a)
                        (checkpoint_iterations dual (n_iter pmt)) pmt)) ;;
     _ <- outcome (f Y_init (distrib a) (checkpoint_iterations dual (n_iter pmt)) pmt) ;;
     Ok st1).
Proof.
  intros Hdual Hf. unfold run_algo. rewrite Hdual. cbn [bind].
  rewrite callback_checkpoints_closed_form.
  destruct (callback demix_init mix_mat ([], []) (transpose_201 mix) eye_) as [st0|e];
    cbn [bind]; [|reflexivity].
  rewrite Hf. reflexivity.
Qed.

Lemma run_algo_trajectory a mix Y_init demix_init mix_mat eye_ pmt li lc :
  run_algo a mix Y_init demix_init mix_mat eye_ pmt = Ok (li, lc) ->
  exists dual f v0,
    dict_get bss_is_dual_update (algo pmt) = Ok dual /\
    dict_get bss_algos (algo pmt) = Ok f /\
    map (@Ok npfloat) li
    = Ok v0 :: map (fun c => ISR (matmul (snd c) demix_init) mix_mat)
                   (calls (f Y_init (distrib a)
                             (checkpoint_iterations dual (n_iter pmt)) pmt)) /\
    lc = cost_value (transpose_201 mix) eye_
         :: map (fun c => cost_value (fst c) (snd c))
                (calls (f Y_init (distrib a)
                          (checkpoint_iterations dual (n_iter pmt)) pmt)).
Proof.
  intros E.
  destruct (dict_get bss_is_dual_update (algo pmt)) as [dual|e] eqn:Hdual.
  2:{ unfold run_algo in E. rewrite Hdual in E. discriminate. }
  destruct (dict_get bss_algos (algo pmt)) as [f|e] eqn:Hf.
  2:{ unfold run_algo in E. rewrite Hdual, Hf in E. cbn [bind] in E.
      destruct (callback _ _ _ _ _); discriminate. }
  rewrite (run_algo_eq _ _ _ _ _ _ _ dual f Hdual Hf) in E.
  unfold callback at 1 in E.
  destruct (ISR (matmul eye_ demix_init) mix_mat) as [v0|e]; simpl in E; [|discriminate].
  destruct (run_callbacks _ _ _ _) as [st1|e] eqn:E1; simpl in E; [|discriminate].
  destruct (outcome _) as [x|e]; simpl in E; [|discriminate].
  injection E as E. subst st1.
  destruct (run_callbacks_points _ _ _ _ _ E1) as [H1 H2]. cbn [fst snd map app] in *.
  exists dual, f, v0. auto.
Qed.

End CheckpointTrajectory.

(** C6, as amended: for an algorithm with iteration count [n_iter],
    [one_loop] looks the algorithm up in the registry [bss.is_dual_update]
    and hands the separation routine [bss.algos[algo_name]] a list of
    checkpoints: the even iterations [2, 4, ..] up to [n_iter] when the flag
    is set (the last one is [2 * (n_iter // 2)], which is [n_iter] only when
    [n_iter] is even), and [1, 2, .., n_iter] otherwise.  So [k] is a
    checkpoint iff [2 <= k <= n_iter] and [k] is even, respectively iff
    [1 <= k <= n_iter].  The body of the loop over the algorithms is the
    first callback followed by the routine run on that list, and the two
    trajectories a trial returns for the algorithm are the point recorded
    before the routine starts followed by one point for every callback the
    routine makes when it is given that list. *)
Theorem trial_executor_checkpoints `{B : Bss}
        (a : args) (pmt : algo_spec) (dual : bool)
        (f : tensor -> string -> list Z -> algo_spec -> algo_run) :
  dict_get bss_is_dual_update (algo pmt) = Ok dual ->
  dict_get bss_algos (algo pmt) = Ok f ->
  let cps := checkpoint_iterations dual (n_iter pmt) in
  (* the checkpoints *)
  (forall k : Z,
      In k cps <-> if dual then (2 <= k <= n_iter pmt /\ Z.even k = true)%Z
                   else (1 <= k <= n_iter pmt)%Z)
  /\ (In (n_iter pmt) cps
      <-> if dual then (2 <= n_iter pmt /\ Z.even (n_iter pmt) = true)%Z
          else (1 <= n_iter pmt)%Z)
  (* the body of the loop over the algorithms hands them to the routine *)
  /\ (forall mix Y_init demix_init mix_mat eye_ : tensor,
         let run := f Y_init (distrib a) cps pmt in
         run_algo a mix Y_init demix_init mix_mat eye_ pmt
         = (st0 <- callback demix_init mix_mat ([], []) (transpose_201 mix) eye_ ;;
            st1 <- run_callbacks demix_init mix_mat st0 (calls run) ;;
            _ <- outcome run ;;
            Ok st1))
  (* the trajectories of a trial *)
  /\ (forall (q q' : list bool) (res : trial_result) (name : string)
             (li lc : list npfloat),
         NoDup (map fst (algos a)) ->
         In (name, pmt) (algos a) ->
         one_loop a q = (Ok res, q') ->
         dict_get (isr_of res) name = Ok li ->
         dict_get (cost_of res) name = Ok lc ->
         let eye_ := eye_tensor (n_freq a) (n_chan a) in
         let mixture := bss_rand_mixture (n_freq a) (n_chan a) (n_frames a) (distrib a)
                                         (np_random_seed (seed a)) in
         let mix := fst (fst mixture) in
         let init := init_state a mix eye_ in
         let run := f (fst init) (distrib a) cps pmt in
         exists v0,
           map (@Ok npfloat) li
           = Ok v0 :: map (fun c => ISR (matmul (snd c) (snd init)) (snd mixture))
                          (calls run) /\
           lc = cost_value (transpose_201 mix) eye_
                :: map (fun c => cost_value (fst c) (snd c)) (calls run)).
Proof.
  intros Hdual Hf cps. split; [|split; [|split]].
  - intros k. apply checkpoint_iterations_members.
  - unfold cps. rewrite checkpoint_iterations_members. destruct dual; intuition lia.
  - intros mix Y_init demix_init mix_mat eye_ run. now apply run_algo_eq.
  - intros q q' res name li lc ND Hin E Hi Hc eye_ mixture mix init run.
    destruct (one_loop_inv a q q' res E) as [mix0 [ref_ [mix_mat [Hmix [_ Hrun]]]]].
    fold mixture in Hmix. unfold run, init, mix. rewrite Hmix. cbn [fst snd].
    fold eye_ in Hrun.
    set (Y_init := fst (init_state a mix0 eye_)) in *.
    set (demix_init := snd (init_state a mix0 eye_)) in *.
    assert (G : exists p, In (name, p) (algos a) /\
              exists du g v0,
                dict_get bss_is_dual_update (algo p) = Ok du /\
                dict_get bss_algos (algo p) = Ok g /\
                map (@Ok npfloat) li
                = Ok v0 :: map (fun c => ISR (matmul (snd c) demix_init) mix_mat)
                               (calls (g Y_init (distrib a)
                                         (checkpoint_iterations du (n_iter p)) p)) /\
                lc = cost_value (transpose_201 mix0) eye_
                     :: map (fun c => cost_value (fst c) (snd c))
                            (calls (g Y_init (distrib a)
                                      (checkpoint_iterations du (n_iter p)) p))).
    { eapply (run_algos_entries_named
                (fun k li lc => exists p, In (k, p) (algos a) /\
                   exists du g v0,
                     dict_get bss_is_dual_update (algo p) = Ok du /\
                     dict_get bss_algos (algo p) = Ok g /\
                     map (@Ok npfloat) li
                     = Ok v0 :: map (fun c => ISR (matmul (snd c) demix_init) mix_mat)
                                    (calls (g Y_init (distrib a)
                                              (checkpoint_iterations du (n_iter p)) p)) /\
                     lc = cost_value (transpose_201 mix0) eye_
                          :: map (fun c => cost_value (fst c) (snd c))
                                 (calls (g Y_init (distrib a)
                                           (checkpoint_iterations du (n_iter p)) p))));
        [ | | exact Hrun | exact Hi | exact Hc].
      - intros k p l1 l2 Hk Hr. exists p. split; auto.
        now apply run_algo_trajectory.
      - intros nm l1 l2 K. discriminate. }
    destruct G as [p [Hp [du [g [v0 [Hdu [Hg [HL1 HL2]]]]]]]].
    assert (p = pmt) by (eapply NoDup_keys_unique; eauto). subst p.
    rewrite Hdual in Hdu. injection Hdu as <-.
    rewrite Hf in Hg. injection Hg as <-.
    exists v0. auto.
Qed.

Lemma task_dual5_returns q :
  @one_loop counter_numpy dual_bss task_dual5 q
  = (Ok (0%nat,
         [("auxiva"%string, [NInf; NInf; NInf])],
         [("auxiva"%string, [cost0; @cost_value counter_numpy (Y_at 2) I2;
                             @cost_value counter_numpy (Y_at 4) I2])]),
     q ++ [true]).
Proof.
  unfold one_loop. cbn [dual_bss bss_rand_mixture counter_numpy np_random_seed task_dual5
                        seed n_freq n_chan n_frames distrib Z.eqb].
  change (eye_tensor 1 2) with I2.
  unfold init_state. cbn [task_dual5 use_pca algos run_algos].
  unfold run_algo at 1.
  cbn [dual_bss bss_is_dual_update bss_algos algo spec5 dict_get String.eqb Ascii.eqb
       Bool.eqb bind andb].
  unfold callback at 1. rewrite I2_I2_matmul, I2_I2_ISR. cbn [bind fst snd app].
  change (callback_checkpoints true (n_iter spec5)) with [2%Z; 4%Z].
  cbn [reporting_run calls map run_callbacks outcome].
  unfold callback. rewrite I2_I2_matmul, I2_I2_ISR. cbn [bind fst snd app].
  reflexivity.
Qed.

Lemma trial_executor_checkpoints_witness :
  (forall k : Z,
      In k (checkpoint_iterations true 5) <-> (2 <= k <= 5 /\ Z.even k = true)%Z)
  /\ (In 5%Z (checkpoint_iterations true 5) <-> (2 <= 5 /\ Z.even 5 = true)%Z)
  /\ (forall mix Y_init demix_init mix_mat eye_ : tensor,
         @run_algo counter_numpy dual_bss task_dual5 mix Y_init demix_init mix_mat eye_
                   spec5
         = (st0 <- @callback counter_numpy demix_init mix_mat ([], [])
                     (transpose_201 mix) eye_ ;;
            st1 <- @run_callbacks counter_numpy demix_init mix_mat st0
                     (calls (reporting_run (checkpoint_iterations true 5))) ;;
            _ <- outcome (reporting_run (checkpoint_iterations true 5)) ;;
            Ok st1))
  /\ (exists v0,
         map (@Ok npfloat) [NInf; NInf; NInf]
         = Ok v0 :: map (fun c => ISR (matmul (snd c) I2) I2)
                        (calls (reporting_run (checkpoint_iterations true 5))) /\
         [cost0; @cost_value counter_numpy (Y_at 2) I2; @cost_value counter_numpy (Y_at 4) I2]
         = @cost_value counter_numpy (transpose_201 mix1) I2
           :: map (fun c => @cost_value counter_numpy (fst c) (snd c))
                  (calls (reporting_run (checkpoint_iterations true 5)))).
Proof.
  destruct (@trial_executor_checkpoints counter_numpy dual_bss task_dual5 spec5 true
              (fun _ _ cps _ => reporting_run cps) eq_refl eq_refl)
    as [H1 [H2 [H3 H4]]].
  split; [exact H1|]. split; [exact H2|]. split; [exact H3|].
  apply (H4 [] [true]
            (0%nat,
             [("auxiva"%string, [NInf; NInf; NInf])],
             [("auxiva"%string, [cost0; @cost_value counter_numpy (Y_at 2) I2;
                                 @cost_value counter_numpy (Y_at 4) I2])])
            "auxiva"%string [NInf; NInf; NInf]
            [cost0; @cost_value counter_numpy (Y_at 2) I2;
             @cost_value counter_numpy (Y_at 4) I2]).
  - repeat constructor. simpl. tauto.
  - left. reflexivity.
  - exact (task_dual5_returns []).
  - reflexivity.
  - reflexivity.
Defined.

(** C6 as stated fails: with an odd iteration count the last checkpoint of
    a dual-update algorithm is [n_iter - 1], not [n_iter].  For
    [n_iter = 5] the routine is called back at the iterations 2 and 4, and
    the trajectory of the trial holds three points, for the iterations 0, 2
    and 4; iteration 5 is not sampled. *)
Lemma dual_checkpoints_end_before_odd_n_iter :
  dict_get (@bss_is_dual_update counter_numpy dual_bss) (algo spec5) = Ok true /\
  callback_checkpoints true (n_iter spec5) = [2; 4]%Z /\
  ~ In (n_iter spec5) (callback_checkpoints true (n_iter spec5)) /\
  @one_loop counter_numpy dual_bss task_dual5 []
  = (Ok (0%nat,
         [("auxiva"%string, [NInf; NInf; NInf])],
         [("auxiva"%string, [cost0; @cost_value counter_numpy (Y_at 2) I2;
                             @cost_value counter_numpy (Y_at 4) I2])]),
     [true]).
Proof.
  split; [reflexivity|]. split; [reflexivity|]. split.
  - change (callback_checkpoints true (n_iter spec5)) with [2%Z; 4%Z].
    cbn [n_iter spec5]. intros [H|[H|[]]]; discriminate.
  - exact (task_dual5_returns []).
Qed.

(** ** The experiment as a whole *)

Lemma run_tasks_trials `{B : Bss} : forall (l : list args) (q : list bool),
  fst (run_tasks l q) = map trial l.
Proof.
  induction l as [|a l IH]; intros q; [reflexivity|]. cbn [run_tasks map].
  pose proof (one_loop_trial a q) as Ht.
  destruct (one_loop a q) as [r q1]. specialize (IH q1).
  destruct (run_tasks l q1) as [rs q2]. cbn [fst] in *. now rewrite Ht, IH.
Qed.

Lemma collect_raises {A} : forall (rs : list (result A)),
  forallb is_ok rs = false -> exists e, collect rs = Raise e.
Proof.
  induction rs as [|r rs IH]; simpl; intros Hno; [discriminate|].
  destruct r as [x|e]; simpl in *; [|eauto].
  destruct (IH Hno) as [e ->]. simpl. eauto.
Qed.

(** X10: the experiment yields its two tables exactly when every generated
    task returns a result; one trial that raises makes the whole run fail,
    and no table is built from the trials that did return. *)
Theorem experiment_returns_tables_iff_every_trial_returns `{B : Bss}
        (master_seed : Z) (n_repeat : nat) (params : list scenario)
        (frames : nat) (dist : string) (algs : dict algo_spec) (g : rng) :
  NoDup (map fst algs) ->
  is_ok (fst (experiment master_seed n_repeat params frames dist algs g))
  = forallb (fun a => is_ok (trial a))
            (fst (gen_args master_seed n_repeat params frames dist algs 0%nat g)).
Proof.
  intros ND.
  set (tasks := fst (gen_args master_seed n_repeat params frames dist algs 0%nat g)).
  set (g1 := snd (gen_args master_seed n_repeat params frames dist algs 0%nat g)).
  set (shuffled := fst (np_random_shuffle tasks g1)).
  pose proof (np_random_shuffle_perm _ tasks g1) as HP. fold shuffled in HP.
  rewrite (forallb_perm _ _ _ HP).
  assert (Hrs : forallb is_ok (fst (run_tasks shuffled []))
                = forallb (fun a => is_ok (trial a)) shuffled).
  { rewrite run_tasks_trials. generalize shuffled as l.
    induction l as [|x l IHl]; simpl; auto. now rewrite IHl. }
  rewrite <- Hrs.
  assert (Hexp : fst (experiment master_seed n_repeat params frames dist algs g)
                 = (results <- collect (fst (run_tasks shuffled [])) ;;
                    distribute (map fst algs) results
                               (map (fun _ => empty_table algs) params,
                                map (fun _ => empty_table algs) params))).
  { unfold experiment.
    rewrite (surjective_pairing (gen_args master_seed n_repeat params frames dist algs 0%nat g)).
    fold tasks g1.
    rewrite (surjective_pairing (np_random_shuffle tasks g1)). fold shuffled.
    rewrite (surjective_pairing (run_tasks shuffled [])). reflexivity. }
  rewrite Hexp.
  destruct (forallb is_ok (fst (run_tasks shuffled []))) eqn:Hok.
  - destruct (gen_args_tasks master_seed n_repeat params frames dist algs 0%nat g)
      as [Htasks _].
    fold tasks in Htasks.
    assert (Hsh : Forall (fun a => algos a = algs /\ (param_index a < length params)%nat)
                         shuffled)
      by (eapply Permutation_Forall; eauto).
    destruct (collect_all_ok _ Hok) as [results Hres].
    pose proof (collect_run_tasks _ _ _ Hres) as HF.
    destruct (trials_good algs (length params) shuffled results HF Hsh) as [Hgood _].
    destruct (distribute_ok (length params) (map fst algs) ND results
                (map (fun _ => empty_table algs) params)
                (map (fun _ => empty_table algs) params)
                (empty_tables_exist algs params) (empty_tables_exist algs params) Hgood)
      as [IT [CT [Edist _]]].
    rewrite Hres. cbn [bind]. now rewrite Edist.
  - destruct (collect_raises _ Hok) as [e ->]. reflexivity.
Qed.

Lemma experiment_returns_tables_iff_every_trial_returns_witness :
  is_ok (fst (@experiment counter_numpy (stub_bss run_fails I2) 0 2 [scenario0] 1
                          "laplace" one_algo 0%Z))
  = forallb (fun a => is_ok (@trial counter_numpy (stub_bss run_fails I2) a))
            (fst (@gen_args counter_numpy 0 2 [scenario0] 1 "laplace" one_algo 0 0%Z)).
Proof.
  apply (@experiment_returns_tables_iff_every_trial_returns
           counter_numpy (stub_bss run_fails I2) 0%Z 2%nat [scenario0] 1%nat
           "laplace"%string one_algo 0%Z).
  repeat constructor. simpl. tauto.
Defined.

(** *** The shape of the tables *)

Lemma Forall2_In_r {A B} (R : A -> B -> Prop) : forall l l' y,
  Forall2 R l l' -> In y l' -> exists x, In x l /\ R x y.
Proof.
  induction 1 as [|x y' l l' HR HF IH]; intros Hin; [contradiction|].
  destruct Hin as [->|Hin].
  - exists x. split; [left; auto | auto].
  - destruct (IH Hin) as [x' [Hx' HR']]. exists x'. split; [right; auto | auto].
Qed.

Lemma experiment_inv `{B : Bss}
      (master_seed : Z) (n_repeat : nat) (params : list scenario)
      (frames : nat) (dist : string) (algs : dict algo_spec) (g : rng)
      (IT CT : list table) (q : list bool) :
  NoDup (map fst algs) ->
  experiment master_seed n_repeat params frames dist algs g = (Ok (IT, CT), q) ->
  exists shuffled results,
    Forall (fun a => algos a = algs /\ (param_index a < length params)%nat) shuffled /\
    (forall i, (i < length params)%nat ->
               length (filter (fun a => Nat.eqb (param_index a) i) shuffled) = n_repeat) /\
    Forall2 (fun a res => trial a = Ok res) shuffled results /\
    forall i name, (i < length params)%nat -> In name (map fst algs) ->
                   cell IT i name = Ok (rows_of isr_of i name results) /\
                   cell CT i name = Ok (rows_of cost_of i name results).
Proof.
  intros ND Hexp.
  set (tasks := fst (gen_args master_seed n_repeat params frames dist algs 0%nat g)).
  set (g1 := snd (gen_args master_seed n_repeat params frames dist algs 0%nat g)).
  set (shuffled := fst (np_random_shuffle tasks g1)).
  pose proof (np_random_shuffle_perm _ tasks g1) as HP. fold shuffled in HP.
  destruct (gen_args_tasks master_seed n_repeat params frames dist algs 0%nat g)
    as [Htasks Hcount].
  fold tasks in Htasks, Hcount.
  assert (Hsh : Forall (fun a => algos a = algs /\ (param_index a < length params)%nat)
                       shuffled)
    by (eapply Permutation_Forall; eauto).
  unfold experiment in Hexp.
  rewrite (surjective_pairing (gen_args master_seed n_repeat params frames dist algs 0%nat g))
    in Hexp.
  fold tasks g1 in Hexp.
  rewrite (surjective_pairing (np_random_shuffle tasks g1)) in Hexp. fold shuffled in Hexp.
  rewrite (surjective_pairing (run_tasks shuffled [])) in Hexp.
  injection Hexp as Hexp _.
  destruct (collect (fst (run_tasks shuffled []))) as [results|e] eqn:Hres;
    [|discriminate].
  cbn [bind] in Hexp.
  pose proof (collect_run_tasks _ _ _ Hres) as HF.
  destruct (trials_good algs (length params) shuffled results HF Hsh) as [Hgood _].
  destruct (distribute_ok (length params) (map fst algs) ND results
              (map (fun _ => empty_table algs) params)
              (map (fun _ => empty_table algs) params)
              (empty_tables_exist algs params) (empty_tables_exist algs params) Hgood)
    as [IT' [CT' [Edist Hcells]]].
  rewrite Edist in Hexp. injection Hexp as -> ->.
  exists shuffled, results. split; auto. split.
  { intros i Hi. rewrite <- (permutation_filter_length _ _ _ HP). auto. }
  split; auto.
  intros i name Hi Hn.
  destruct (Hcells i name [] [] Hi Hn
              (empty_tables_cell algs params i name Hi Hn)
              (empty_tables_cell algs params i name Hi Hn)) as [C1' C2'].
  cbn [app] in C1', C2'. auto.
Qed.

(** X11: when the algorithm names are distinct and every separation
    routine invokes the callback exactly once per checkpoint, the tables
    the main block builds are rectangular: the cell of a scenario and an
    algorithm holds [n_repeat] rows in either table, each with
    [1 + n_iter // 2] entries for a dual-update algorithm and
    [1 + n_iter] entries otherwise. *)
Theorem tables_hold_one_column_per_checkpoint `{B : Bss}
        (master_seed : Z) (n_repeat : nat) (params : list scenario)
        (frames : nat) (dist : string) (algs : dict algo_spec) (g : rng)
        (IT CT : list table) (q : list bool)
        (i : nat) (name : string) (pmt : algo_spec) (dual : bool)
        (rows_i rows_c : list (list npfloat)) :
  NoDup (map fst algs) ->
  (forall nm f Y d cps p, dict_get bss_algos nm = Ok f ->
                          length (calls (f Y d cps p)) = length cps) ->
  experiment master_seed n_repeat params frames dist algs g = (Ok (IT, CT), q) ->
  (i < length params)%nat ->
  In (name, pmt) algs ->
  dict_get bss_is_dual_update (algo pmt) = Ok dual ->
  cell IT i name = Ok rows_i ->
  cell CT i name = Ok rows_c ->
  let points := S (Z.to_nat (if dual then n_iter pmt / 2 else n_iter pmt)) in
  length rows_i = n_repeat /\ length rows_c = n_repeat /\
  Forall (fun row => length row = points) rows_i /\
  Forall (fun row => length row = points) rows_c.
Proof.
  intros ND Hcalls Hexp Hi Hin Hdual Hci Hcc points.
  destruct (experiment_inv master_seed n_repeat params frames dist algs g IT CT q ND Hexp)
    as [shuffled [results [Hsh [Hcount [HF Hcells]]]]].
  assert (Hn : In name (map fst algs)).
  { apply in_map_iff. exists (name, pmt). auto. }
  destruct (Hcells i name Hi Hn) as [C1' C2'].
  rewrite Hci in C1'. rewrite Hcc in C2'. injection C1' as ->. injection C2' as ->.
  destruct (trials_good algs (length params) shuffled results HF Hsh) as [_ HF'].
  assert (Hrow : forall res, In res results ->
            length (dict_val (isr_of res) name) = points /\
            length (dict_val (cost_of res) name) = points).
  { intros res Hres. destruct (Forall2_In_r _ _ _ _ HF Hres) as [a [Ha Ht]].
    rewrite Forall_forall in Hsh. destruct (Hsh a Ha) as [Halg _].
    destruct (trial_result_good a res Ht) as [_ Hkeys].
    rewrite Halg in Hkeys. destruct (Hkeys name Hn) as [K1 K2].
    unfold points. rewrite <- length_callback_checkpoints.
    apply (trial_trajectory_length a res name pmt dual); auto.
    - now rewrite Halg.
    - now rewrite Halg.
    - now apply dict_val_get.
    - now apply dict_val_get. }
  split; [|split; [|split]].
  - rewrite (rows_of_length isr_of i name shuffled results); auto.
  - rewrite (rows_of_length cost_of i name shuffled results); auto.
  - unfold rows_of. apply Forall_map, Forall_forall. intros res Hres.
    apply filter_In in Hres. apply Hrow. tauto.
  - unfold rows_of. apply Forall_map, Forall_forall. intros res Hres.
    apply filter_In in Hres. apply Hrow. tauto.
Qed.

Lemma task1_calling q :
  @one_loop counter_numpy calling_bss task1 q
  = (Ok (0%nat,
         [("auxiva"%string, [Fin (10 * (ln (1/8) / ln 10)); Fin (10 * (ln (1/8) / ln 10));
                             Fin (10 * (ln (1/8) / ln 10))])],
         [("auxiva"%string, [cost0; @cost_value counter_numpy Yc I2;
                             @cost_value counter_numpy Yc I2])]),
     q ++ [true]).
Proof.
  unfold one_loop. cbn [calling_bss bss_rand_mixture counter_numpy np_random_seed task1
                        seed n_freq n_chan n_frames distrib Z.eqb Pos.eqb].
  change (eye_tensor 1 2) with I2.
  unfold init_state. cbn [task1 use_pca algos one_algo run_algos].
  unfold run_algo at 1.
  cbn [calling_bss bss_is_dual_update bss_algos algo dict_get String.eqb Ascii.eqb
       Bool.eqb bind andb].
  unfold callback at 1. rewrite I2_I2_matmul, I2_A0_ISR. cbn [bind fst snd app].
  change (callback_checkpoints false (n_iter {| algo := "auxiva"; n_iter := 2;
                                               other_kwargs := [] |}))
    with [1%Z; 2%Z].
  cbn [calling_run calls map run_callbacks outcome].
  unfold callback. rewrite I2_I2_matmul, I2_A0_ISR. cbn [bind fst snd app].
  reflexivity.
Qed.

Lemma experiment_calling :
  @experiment counter_numpy calling_bss 0 2 [scenario0] 1 "laplace" one_algo 0%Z
  = (Ok ([[("auxiva"%string,
            [[Fin (10 * (ln (1/8) / ln 10)); Fin (10 * (ln (1/8) / ln 10));
              Fin (10 * (ln (1/8) / ln 10))];
             [NInf; NInf; NInf]])]],
         [[("auxiva"%string,
            [[cost0; @cost_value counter_numpy Yc I2; @cost_value counter_numpy Yc I2];
             [cost0; @cost_value counter_numpy Yc I2; @cost_value counter_numpy Yc I2]])]]),
     [true; true]).
Proof.
  unfold experiment. rewrite gen_args_two.
  cbn [counter_numpy np_random_shuffle rev app run_tasks].
  rewrite task1_calling.
  rewrite task0_calling.
  reflexivity.
Qed.

Lemma tables_hold_one_column_per_checkpoint_witness :
  length [[Fin (10 * (ln (1/8) / ln 10)); Fin (10 * (ln (1/8) / ln 10));
           Fin (10 * (ln (1/8) / ln 10))]; [NInf; NInf; NInf]] = 2%nat /\
  length [[cost0; @cost_value counter_numpy Yc I2; @cost_value counter_numpy Yc I2];
          [cost0; @cost_value counter_numpy Yc I2; @cost_value counter_numpy Yc I2]]
  = 2%nat /\
  Forall (fun row => length row = 3%nat)
         [[Fin (10 * (ln (1/8) / ln 10)); Fin (10 * (ln (1/8) / ln 10));
           Fin (10 * (ln (1/8) / ln 10))]; [NInf; NInf; NInf]] /\
  Forall (fun row => length row = 3%nat)
         [[cost0; @cost_value counter_numpy Yc I2; @cost_value counter_numpy Yc I2];
          [cost0; @cost_value counter_numpy Yc I2; @cost_value counter_numpy Yc I2]].
Proof.
  apply (@tables_hold_one_column_per_checkpoint counter_numpy calling_bss
           0%Z 2%nat [scenario0] 1%nat "laplace"%string one_algo 0%Z
           _ _ _ 0%nat "auxiva"%string
           {| algo := "auxiva"; n_iter := 2; other_kwargs := [] |} false
           _ _
           ltac:(repeat constructor; simpl; tauto)
           calling_bss_calls experiment_calling
           ltac:(simpl; lia) (or_introl eq_refl) eq_refl eq_refl eq_refl).
Defined.

(** ** Rows of the arrays [scale_permute] builds *)

Lemma nth_shape {A} F n m (X : list (list (list A))) f :
  has_shape F n m X -> (f < F)%nat -> shape2 n m (nth f X []).
Proof.
  intros [HL HX] Hf. rewrite Forall_forall in HX. apply HX. apply nth_In. lia.
Qed.

Lemma nth_shape_row {A} F n m (X : list (list (list A))) f r :
  has_shape F n m X -> (f < F)%nat -> (r < n)%nat ->
  length (nth r (nth f X []) []) = m.
Proof.
  intros HX Hf Hr. destruct (nth_shape F n m X f HX Hf) as [H1 H2].
  rewrite Forall_forall in H2. apply H2. apply nth_In. lia.
Qed.

Lemma matmul_row (W A : tensor) F n m f r :
  has_shape F n m W -> length A = F -> (f < F)%nat -> (r < n)%nat ->
  nth r (nth f (matmul W A) []) []
  = row_product (nth f A []) (nth r (nth f W []) []).
Proof.
  intros HW HA Hf Hr. destruct (nth_shape F n m W f HW Hf) as [H1 _].
  destruct HW as [HL _]. unfold matmul.
  rewrite (nth_map_combine _ W A f [] [] []) by lia. cbn [fst snd].
  rewrite matmul2_rows.
  apply (nth_map_in (row_product (nth f A [])) (nth f W []) r [] []). lia.
Qed.

Lemma div_scale_row (X : tensor) (Sc : list (list R)) F n m f r :
  has_shape F n m X -> length Sc = F -> Forall (fun s => length s = n) Sc ->
  (f < F)%nat -> (r < n)%nat ->
  nth r (nth f (div_scale X Sc) []) []
  = map (fun z => zdiv z (nth r (nth f Sc []) 0)) (nth r (nth f X []) []).
Proof.
  intros HX HS HSn Hf Hr. destruct (nth_shape F n m X f HX Hf) as [H1 _].
  destruct HX as [HL _].
  assert (HSf : length (nth f Sc []) = n).
  { rewrite Forall_forall in HSn. apply HSn. apply nth_In. lia. }
  unfold div_scale.
  rewrite (nth_map_combine _ X Sc f [] [] []) by lia. cbn [fst snd].
  rewrite (nth_map_combine _ (nth f X []) (nth f Sc []) r [] [] 0) by lia.
  reflexivity.
Qed.

Lemma take_rows_row {A} (perm : list nat) (X : list (list (list A))) f r :
  (f < length X)%nat -> (r < length perm)%nat ->
  nth r (nth f (take_rows perm X) []) [] = nth (nth r perm 0%nat) (nth f X []) [].
Proof.
  intros Hf Hr. unfold take_rows.
  rewrite (nth_map_in (fun Xf => map (fun j => nth j Xf []) perm) X f [] []) by auto.
  apply (nth_map_in (fun j => nth j (nth f X []) []) perm r 0%nat []). auto.
Qed.

(** Rows [(f, r)] of [W /= scale] and of [P /= scale]. *)
Lemma scaled_rows (W A : tensor) F m n f r :
  has_shape F m (S n) W -> has_shape F (S n) (S n) A -> (f < F)%nat -> (r < m)%nat ->
  let P := matmul W A in
  let prow := row_product (nth f A []) (nth r (nth f W []) []) in
  nth r (nth f P []) [] = prow /\
  nth r (nth f (div_scale W (max_abs P)) []) []
  = map (fun z => zdiv z (row_max prow)) (nth r (nth f W []) []) /\
  nth r (nth f (div_scale P (max_abs P)) []) []
  = map (fun z => zdiv z (row_max prow)) prow.
Proof.
  intros HW HA Hf Hr P prow.
  assert (HP : has_shape F m (S n) P) by (apply matmul_shape with (m := n); auto).
  destruct (max_abs_shape _ _ _ _ HP) as [HS1 HS2].
  assert (Hrow : nth r (nth f P []) [] = prow)
    by (apply (matmul_row W A F m (S n)); auto; apply HA).
  split; auto.
  rewrite (div_scale_row W _ F m (S n)), (div_scale_row P _ F m (S n)) by auto.
  now rewrite max_abs_nth, Hrow.
Qed.

Lemma row_product_length Y xr : length (row_product Y xr) = ncols Y.
Proof. unfold row_product. now rewrite length_map, length_seq. Qed.

(** *** Finite sums and means *)

Lemma fold_fadd_finite : forall l a,
  Forall (fun x => is_finite x = true) l ->
  is_finite (fold_left fadd l (Fin a)) = true.
Proof.
  induction l as [|x l IH]; intros a Hl; [reflexivity|].
  inversion Hl as [|? ? Hx Hl']; subst. destruct x; try discriminate.
  simpl. apply IH; auto.
Qed.

Lemma INR_pos_length {A} (l : list A) : l <> [] -> INR (length l) <> 0.
Proof.
  intros Hl. destruct l as [|x l]; [congruence|].
  apply not_0_INR. discriminate.
Qed.

Lemma fmean_finite l :
  l <> [] -> Forall (fun x => is_finite x = true) l -> is_finite (fmean l) = true.
Proof.
  intros Hne Hl. unfold fmean, fsum.
  pose proof (fold_fadd_finite l 0 Hl) as Hs.
  destruct (fold_left fadd l (Fin 0)); try discriminate.
  simpl. destruct (Req_dec_T (INR (length l)) 0) as [E|E]; [|reflexivity].
  now apply INR_pos_length in E.
Qed.

Lemma err_term_finite i k z :
  zfinite z = true -> is_finite (fsquare (fabs (fsub (eye i k) (zabs z)))) = true.
Proof.
  destruct z as [[x| | |] [y| | |]]; simpl; try discriminate.
  intros _. unfold eye. destruct (Nat.eqb i k); reflexivity.
Qed.

Lemma err_mat_finite n (P1 : ztensor) :
  (0 < n)%nat -> P1 <> [] ->
  (forall Pf j k, In Pf P1 -> (j < n_rows P1)%nat -> (k < n)%nat ->
                  zfinite (nth k (nth j Pf []) znan) = true) ->
  forallb (forallb is_finite) (err_mat n P1) = true.
Proof.
  intros Hn Hne Hfin. apply forallb_forall. intros row Hrow.
  apply forallb_forall. intros x Hx.
  unfold err_mat in Hrow. apply in_map_iff in Hrow. destruct Hrow as [i [<- Hi]].
  apply in_map_iff in Hx. destruct Hx as [j [<- Hj]]. apply in_seq in Hj.
  apply fmean_finite.
  - destruct P1 as [|Pf P1]; [congruence|]. destruct n; [lia|]. discriminate.
  - apply Forall_forall. intros y Hy. apply in_flat_map in Hy.
    destruct Hy as [Pf [HPf Hy]]. apply in_map_iff in Hy. destruct Hy as [k [<- Hk]].
    apply in_seq in Hk. apply err_term_finite. apply Hfin; auto; lia.
Qed.

Lemma normalised_finite (W A : tensor) F n :
  has_shape (S F) (S n) (S n) W -> has_shape (S F) (S n) (S n) A ->
  rows_nonzero (S F) (S n) (matmul W A) ->
  forall f r k, (f < S F)%nat -> (r < S n)%nat -> (k < S n)%nat ->
    zfinite (zentry (div_scale W (max_abs (matmul W A))) f r k) = true /\
    zfinite (zentry (div_scale (matmul W A) (max_abs (matmul W A))) f r k) = true.
Proof.
  intros HW HA Hnz f r k Hf Hr Hk.
  assert (HP : has_shape (S F) (S n) (S n) (matmul W A))
    by (apply matmul_shape with (m := n); auto).
  destruct (max_abs_shape _ _ _ _ HP) as [HS1 HS2].
  destruct (Hnz f r Hf Hr) as [k0 [Hk0 Hz]].
  assert (Hpos : 0 < nth r (nth f (max_abs (matmul W A)) []) 0).
  { rewrite max_abs_nth. apply row_max_pos with (z := centry (matmul W A) f r k0); auto.
    apply shape_entry_In with (F := S F) (n := S n); auto. }
  rewrite !(div_scale_entry _ _ (S F) (S n)) by auto.
  split; apply zdiv_finite; lra.
Qed.

Lemma cost_matrix_finite (W A : tensor) F n :
  has_shape (S F) (S n) (S n) W -> has_shape (S F) (S n) (S n) A ->
  rows_nonzero (S F) (S n) (matmul W A) ->
  forallb (forallb is_finite) (cost_matrix W A) = true.
Proof.
  intros HW HA Hnz. unfold cost_matrix.
  assert (HP : has_shape (S F) (S n) (S n) (matmul W A))
    by (apply matmul_shape with (m := n); auto).
  destruct (max_abs_shape _ _ _ _ HP) as [HS1 HS2].
  assert (HP1 : has_shape (S F) (S n) (S n)
                          (div_scale (matmul W A) (max_abs (matmul W A))))
    by (apply div_scale_shape; auto).
  destruct (has_shape_dims _ _ _ _ HW) as [_ ->]; [|discriminate].
  apply err_mat_finite; [lia | |].
  - destruct HP1 as [HL _]. intros E. rewrite E in HL. discriminate.
  - intros Pf j k HPf Hj Hk.
    destruct (has_shape_dims _ _ _ _ HP1) as [Hrows _]. rewrite Hrows in Hj.
    apply (In_nth _ _ []) in HPf. destruct HPf as [f [Hf <-]].
    destruct HP1 as [HL1 _]. rewrite HL1 in Hf.
    apply (normalised_finite W A F n HW HA Hnz f j k); auto.
Qed.

(** *** Success and failure *)

(** X12: when every row of [W @ A] has a non-zero entry, [scale_permute]
    succeeds: it returns the rows of [W] and of [W @ A], each divided by
    the largest magnitude in that row of [W @ A], reordered by one and the
    same permutation of the channels in every frequency bin.  Both results
    have the shape of [W] and, in exact arithmetic, only finite entries: no
    divisor is zero.  (The quotients are exact here; the overflow of a
    float64 quotient, as for a huge entry of [W] over a tiny divisor, is
    not modelled.) *)
Theorem scale_permute_succeeds_on_nonzero_rows (W A : tensor) (F n : nat) :
  (0 < F)%nat -> (0 < n)%nat ->
  has_shape F n n W -> has_shape F n n A ->
  rows_nonzero F n (matmul W A) ->
  exists perm,
    Permutation perm (seq 0 n) /\
    scale_permute W A
    = Ok (take_rows perm (div_scale W (max_abs (matmul W A))),
          take_rows perm (div_scale (matmul W A) (max_abs (matmul W A)))) /\
    forall W' P', scale_permute W A = Ok (W', P') ->
      has_shape F n n W' /\ has_shape F n n P' /\
      forall f r k, (f < F)%nat -> (r < n)%nat -> (k < n)%nat ->
                    zfinite (zentry W' f r k) = true /\ zfinite (zentry P' f r k) = true.
Proof.
  intros HF Hn HW HA Hnz.
  destruct F as [|F]; [lia|]. destruct n as [|n]; [lia|].
  pose proof (cost_matrix_finite W A F n HW HA Hnz) as Hfin.
  destruct (linear_sum_assignment (cost_matrix W A)) as [[rows perm]|e] eqn:E.
  2:{ unfold linear_sum_assignment in E. rewrite Hfin in E. discriminate. }
  pose proof (lsa_perm _ _ _ E) as [_ Hperm].
  assert (HL : length (cost_matrix W A) = S n).
  { unfold cost_matrix. destruct (has_shape_dims _ _ _ _ HW) as [_ ->]; [|discriminate].
    apply err_mat_length. }
  rewrite HL in Hperm.
  assert (Hsp : scale_permute W A
                = Ok (take_rows perm (div_scale W (max_abs (matmul W A))),
                      take_rows perm (div_scale (matmul W A) (max_abs (matmul W A)))))
    by (now rewrite scale_permute_eq, E).
  exists perm. split; auto. split; auto.
  intros W' P' HWP.
  destruct (scale_permute_shape W A F n W' P' HW HA HWP) as [HW' HP'].
  split; auto. split; auto.
  rewrite Hsp in HWP. injection HWP as <- <-.
  destruct (perm_seq_bound perm (S n) Hperm) as [HLp HBp].
  assert (HP : has_shape (S F) (S n) (S n) (matmul W A))
    by (apply matmul_shape with (m := n); auto).
  destruct (max_abs_shape _ _ _ _ HP) as [HS1 HS2].
  assert (HW1 : has_shape (S F) (S n) (S n) (div_scale W (max_abs (matmul W A))))
    by (apply div_scale_shape; auto).
  assert (HP1 : has_shape (S F) (S n) (S n)
                          (div_scale (matmul W A) (max_abs (matmul W A))))
    by (apply div_scale_shape; auto).
  intros f r k Hf Hr Hk. unfold zentry.
  destruct HW1 as [HL1 _]. destruct HP1 as [HL2 _].
  rewrite !take_rows_row by lia.
  assert (Hj : (nth r perm 0 < S n)%nat).
  { rewrite Forall_forall in HBp. apply HBp. apply nth_In. lia. }
  apply (normalised_finite W A F n HW HA Hnz f (nth r perm 0%nat) k); auto.
Qed.

Lemma I2_A0_rows_nonzero : rows_nonzero 1 2 (matmul I2 A0).
Proof.
  rewrite I2_A0_matmul. intros f r Hf Hr. exists 0%nat. split; [lia|].
  assert (f = 0%nat) by lia. subst f.
  destruct r as [|[|r]]; [| |lia]; unfold centry, A0, C0; simpl;
    intros H; injection H; intros; lra.
Qed.

Lemma scale_permute_succeeds_on_nonzero_rows_witness :
  exists perm,
    Permutation perm (seq 0 2) /\
    scale_permute I2 A0
    = Ok (take_rows perm (div_scale I2 (max_abs (matmul I2 A0))),
          take_rows perm (div_scale (matmul I2 A0) (max_abs (matmul I2 A0)))) /\
    forall W' P', scale_permute I2 A0 = Ok (W', P') ->
      has_shape 1 2 2 W' /\ has_shape 1 2 2 P' /\
      forall f r k, (f < 1)%nat -> (r < 2)%nat -> (k < 2)%nat ->
                    zfinite (zentry W' f r k) = true /\ zfinite (zentry P' f r k) = true.
Proof.
  apply (scale_permute_succeeds_on_nonzero_rows I2 A0 1 2).
  - lia.
  - lia.
  - exact I2_shape.
  - exact A0_shape.
  - exact I2_A0_rows_nonzero.
Defined.

Lemma fold_fadd_nan : forall l, fold_left fadd l NaN = NaN.
Proof. induction l as [|x l IH]; simpl; auto. Qed.

Lemma fsum_nan : forall l a, In NaN l -> fold_left fadd l a = NaN.
Proof.
  induction l as [|x l IH]; intros a Hin; [contradiction|]. simpl.
  destruct Hin as [->|Hin]; [|now apply IH].
  replace (fadd a NaN) with NaN by (now destruct a). apply fold_fadd_nan.
Qed.

Lemma fmean_nan l : In NaN l -> fmean l = NaN.
Proof. intros Hin. unfold fmean, fsum. now rewrite fsum_nan. Qed.

Lemma cost_matrix_zero_row (W A : tensor) F n f r :
  has_shape (S F) (S n) (S n) W -> has_shape (S F) (S n) (S n) A ->
  (f < S F)%nat -> (r < S n)%nat ->
  (forall k, (k < S n)%nat -> centry (matmul W A) f r k = C0) ->
  forallb (forallb is_finite) (cost_matrix W A) = false.
Proof.
  intros HW HA Hf Hr Hz.
  assert (HP : has_shape (S F) (S n) (S n) (matmul W A))
    by (apply matmul_shape with (m := n); auto).
  destruct (max_abs_shape _ _ _ _ HP) as [HS1 HS2].
  set (P1 := div_scale (matmul W A) (max_abs (matmul W A))).
  assert (HP1 : has_shape (S F) (S n) (S n) P1) by (apply div_scale_shape; auto).
  assert (Hnan : zentry P1 f r 0 = znan).
  { unfold P1. rewrite (div_scale_entry _ _ (S F) (S n)) by (auto; lia).
    rewrite max_abs_nth, (Hz 0%nat) by lia.
    rewrite row_max_zero; [apply zdiv_zero_by_zero|].
    intros z Hin.
    destruct (shape_row_In (matmul W A) (S F) (S n) f r z HP Hf Hr Hin) as [k [Hk ->]].
    auto. }
  unfold cost_matrix. fold P1.
  destruct (has_shape_dims _ _ _ _ HW) as [_ ->]; [|discriminate].
  destruct (has_shape_dims _ _ _ _ HP1) as [Hrows _].
  destruct (forallb (forallb is_finite) (err_mat (S n) P1)) eqn:E; [|reflexivity].
  exfalso. rewrite forallb_forall in E.
  set (x := fmean (flat_map
                     (fun Pf => map (fun k => fsquare (fabs (fsub (eye 0 k)
                                                 (zabs (nth k (nth r Pf []) znan)))))
                                    (seq 0 (S n))) P1)).
  assert (Hx : x = NaN).
  { apply fmean_nan. apply in_flat_map. exists (nth f P1 []). split.
    - apply nth_In. destruct HP1 as [-> _]. exact Hf.
    - apply in_map_iff. exists 0%nat. split; [|apply in_seq; lia].
      fold (zentry P1 f r 0). rewrite Hnan. reflexivity. }
  assert (Hrow : In (map (fun j => fmean (flat_map
                     (fun Pf => map (fun k => fsquare (fabs (fsub (eye 0 k)
                                                 (zabs (nth k (nth j Pf []) znan)))))
                                    (seq 0 (S n))) P1)) (seq 0 (n_rows P1)))
                    (err_mat (S n) P1)).
  { unfold err_mat. apply in_map_iff. exists 0%nat. split; [reflexivity|].
    apply in_seq. lia. }
  specialize (E _ Hrow). rewrite forallb_forall in E.
  assert (Hin : In x (map (fun j => fmean (flat_map
                     (fun Pf => map (fun k => fsquare (fabs (fsub (eye 0 k)
                                                 (zabs (nth k (nth j Pf []) znan)))))
                                    (seq 0 (S n))) P1)) (seq 0 (n_rows P1)))).
  { apply in_map_iff. exists r. split; [reflexivity|]. apply in_seq. lia. }
  specialize (E _ Hin). rewrite Hx in E. discriminate.
Qed.

(** X13: when some row of [W @ A] is entirely zero, the division by its
    maximum puts [nan] into the cost matrix and the assignment solver
    rejects it: [scale_permute], and with it [ISR], raises [ValueError]
    instead of returning a value. *)
Theorem ISR_raises_on_zero_row (W A : tensor) (F n f r : nat) :
  (0 < F)%nat -> (0 < n)%nat ->
  has_shape F n n W -> has_shape F n n A ->
  (f < F)%nat -> (r < n)%nat ->
  (forall k, (k < n)%nat -> centry (matmul W A) f r k = C0) ->
  scale_permute W A = Raise (ValueError "matrix contains invalid numeric entries") /\
  ISR W A = Raise (ValueError "matrix contains invalid numeric entries").
Proof.
  intros HF Hn HW HA Hf Hr Hz.
  destruct F as [|F]; [lia|]. destruct n as [|n]; [lia|].
  pose proof (cost_matrix_zero_row W A F n f r HW HA Hf Hr Hz) as Hbad.
  assert (Hsp : scale_permute W A
                = Raise (ValueError "matrix contains invalid numeric entries")).
  { rewrite scale_permute_eq. unfold linear_sum_assignment. now rewrite Hbad. }
  split; auto. unfold ISR. now rewrite Hsp.
Qed.

Lemma ISR_raises_on_zero_row_witness :
  scale_permute Wrow0 I2 = Raise (ValueError "matrix contains invalid numeric entries") /\
  ISR Wrow0 I2 = Raise (ValueError "matrix contains invalid numeric entries").
Proof.
  apply (ISR_raises_on_zero_row Wrow0 I2 1 2 0 1).
  - lia.
  - lia.
  - repeat constructor.
  - exact I2_shape.
  - lia.
  - lia.
  - intros k Hk. rewrite Wrow0_matmul. destruct k as [|[|k]]; [reflexivity | reflexivity | lia].
Defined.

(** *** What a successful call has done *)

Lemma C_eq_C0_dec (z : C) : {z = C0} + {z <> C0}.
Proof.
  destruct z as [x y]. destruct (Req_dec_T x 0) as [->|Hx].
  - destruct (Req_dec_T y 0) as [->|Hy]; [left; reflexivity|].
    right. intros H. injection H. auto.
  - right. intros H. injection H. auto.
Qed.

Lemma row_zero_or_not (row : list C) :
  (forall z, In z row -> z = C0) \/ (exists z, In z row /\ z <> C0).
Proof.
  induction row as [|y row [IH|[z [Hin Hz]]]].
  - left. intros z [].
  - destruct (C_eq_C0_dec y) as [->|Hy].
    + left. intros z [<-|Hin]; auto.
    + right. exists y. split; [left; auto | auto].
  - right. exists z. split; [right; auto | auto].
Qed.

Lemma scale_permute_inv (W A : tensor) F n W' P' :
  has_shape (S F) (S n) (S n) W -> has_shape (S F) (S n) (S n) A ->
  scale_permute W A = Ok (W', P') ->
  rows_nonzero (S F) (S n) (matmul W A) /\
  exists perm,
    Permutation perm (seq 0 (S n)) /\
    linear_sum_assignment (cost_matrix W A) = Ok (seq 0 (S n), perm) /\
    W' = take_rows perm (div_scale W (max_abs (matmul W A))) /\
    P' = take_rows perm (div_scale (matmul W A) (max_abs (matmul W A))).
Proof.
  intros HW HA Hsp.
  assert (HP : has_shape (S F) (S n) (S n) (matmul W A))
    by (apply matmul_shape with (m := n); auto).
  assert (HL : length (cost_matrix W A) = S n).
  { unfold cost_matrix. destruct (has_shape_dims _ _ _ _ HW) as [_ ->]; [|discriminate].
    apply err_mat_length. }
  split.
  - intros f r Hf Hr.
    destruct (row_zero_or_not (nth r (nth f (matmul W A) []) [])) as [Hz|[z [Hin Hz]]].
    + exfalso.
      assert (Hbad : forallb (forallb is_finite) (cost_matrix W A) = false).
      { apply (cost_matrix_zero_row W A F n f r); auto.
        intros k Hk. apply Hz. apply shape_entry_In with (F := S F) (n := S n); auto. }
      rewrite scale_permute_eq in Hsp. unfold linear_sum_assignment in Hsp.
      rewrite Hbad in Hsp. discriminate.
    + destruct (shape_row_In (matmul W A) (S F) (S n) f r z HP Hf Hr Hin) as [k [Hk ->]].
      eauto.
  - rewrite scale_permute_eq in Hsp.
    destruct (linear_sum_assignment (cost_matrix W A)) as [[rows perm]|e] eqn:E;
      [|discriminate].
    injection Hsp as <- <-.
    destruct (lsa_perm _ _ _ E) as [-> Hperm]. rewrite HL in *.
    exists perm. auto.
Qed.

Lemma Cabs_zdiv z s : 0 < s -> zabs (zdiv z s) = Fin (Cabs z / s).
Proof.
  intros Hs. rewrite zabs_zdiv_pos by auto. f_equal.
  apply sqrt_lem_1.
  - nra.
  - apply Rmult_le_pos; [apply Cabs_nonneg | left; now apply Rinv_0_lt_compat].
  - pose proof (Cabs_sq z) as Hsq.
    replace (Cabs z / s * (Cabs z / s)) with ((Cabs z * Cabs z) / (s * s)) by (field; lra).
    rewrite Hsq. field. lra.
Qed.

Lemma row_max_attained (row : list C) :
  row <> [] -> exists z, In z row /\ Cabs z = row_max row.
Proof.
  induction row as [|y row IH]; [congruence|]. intros _.
  destruct row as [|y' row].
  - exists y. split; [left; auto|]. unfold row_max. simpl.
    rewrite Rmax_left; auto. apply Cabs_nonneg.
  - destruct IH as [z [Hin Hz]]; [discriminate|].
    change (row_max (y :: y' :: row)) with (Rmax (Cabs y) (row_max (y' :: row))).
    destruct (Rle_dec (row_max (y' :: row)) (Cabs y)) as [Hle|Hgt].
    + exists y. split; [left; auto|]. now rewrite Rmax_left.
    + exists z. split; [right; auto|]. rewrite Rmax_right; [auto | lra].
Qed.

(** Magnitudes of the entries of [P /= scale]. *)
Lemma normalised_abs (W A : tensor) F n f r k :
  has_shape (S F) (S n) (S n) W -> has_shape (S F) (S n) (S n) A ->
  rows_nonzero (S F) (S n) (matmul W A) ->
  (f < S F)%nat -> (r < S n)%nat -> (k < S n)%nat ->
  let P := matmul W A in
  0 < row_max (nth r (nth f P []) []) /\
  zabs (zentry (div_scale P (max_abs P)) f r k)
  = Fin (Cabs (centry P f r k) / row_max (nth r (nth f P []) [])).
Proof.
  intros HW HA Hnz Hf Hr Hk P.
  assert (HP : has_shape (S F) (S n) (S n) P)
    by (apply matmul_shape with (m := n); auto).
  destruct (max_abs_shape _ _ _ _ HP) as [HS1 HS2].
  destruct (Hnz f r Hf Hr) as [k0 [Hk0 Hz]].
  assert (Hpos : 0 < row_max (nth r (nth f P []) [])).
  { apply row_max_pos with (z := centry P f r k0); auto.
    apply shape_entry_In with (F := S F) (n := S n); auto. }
  split; auto.
  rewrite (div_scale_entry _ _ (S F) (S n)) by auto.
  rewrite max_abs_nth. now apply Cabs_zdiv.
Qed.

Lemma take_rows_entry (perm : list nat) (X : ztensor) f r k :
  (f < length X)%nat -> (r < length perm)%nat ->
  zentry (take_rows perm X) f r k = zentry X f (nth r perm 0%nat) k.
Proof. intros Hf Hr. unfold zentry. now rewrite take_rows_row. Qed.

(** X14: in the product [scale_permute] returns, the largest magnitude in
    every row is exactly one: every entry has magnitude at most 1 and some
    entry of the row has magnitude 1. *)
Theorem scale_permute_rows_have_unit_maximum
        (W A : tensor) (F n : nat) (W' P' : ztensor) :
  (0 < F)%nat -> (0 < n)%nat ->
  has_shape F n n W -> has_shape F n n A ->
  scale_permute W A = Ok (W', P') ->
  forall f r, (f < F)%nat -> (r < n)%nat ->
    (forall k, (k < n)%nat ->
               exists v, zabs (zentry P' f r k) = Fin v /\ 0 <= v <= 1) /\
    (exists k, (k < n)%nat /\ zabs (zentry P' f r k) = Fin 1).
Proof.
  intros HF Hn HW HA Hsp f r Hf Hr.
  destruct F as [|F]; [lia|]. destruct n as [|n]; [lia|].
  destruct (scale_permute_inv W A F n W' P' HW HA Hsp)
    as [Hnz [perm [Hperm [_ [_ ->]]]]].
  destruct (perm_seq_bound perm (S n) Hperm) as [HLp HBp].
  assert (HP : has_shape (S F) (S n) (S n) (matmul W A))
    by (apply matmul_shape with (m := n); auto).
  destruct (max_abs_shape _ _ _ _ HP) as [HS1 HS2].
  assert (HP1 : has_shape (S F) (S n) (S n)
                          (div_scale (matmul W A) (max_abs (matmul W A))))
    by (apply div_scale_shape; auto).
  destruct HP1 as [HL1 _].
  set (j := nth r perm 0%nat).
  assert (Hj : (j < S n)%nat).
  { rewrite Forall_forall in HBp. apply HBp. apply nth_In. lia. }
  set (row := nth j (nth f (matmul W A) []) []).
  split.
  - intros k Hk. rewrite take_rows_entry by lia. fold j.
    destruct (normalised_abs W A F n f j k HW HA Hnz Hf Hj Hk) as [Hpos ->].
    fold row in Hpos |- *.
    exists (Cabs (centry (matmul W A) f j k) / row_max row). split; auto.
    assert (Hle : Cabs (centry (matmul W A) f j k) <= row_max row).
    { apply row_max_ge. apply shape_entry_In with (F := S F) (n := S n); auto. }
    pose proof (Cabs_nonneg (centry (matmul W A) f j k)) as H0.
    split.
    + apply Rmult_le_pos; auto. left. now apply Rinv_0_lt_compat.
    + apply Rmult_le_reg_r with (r := row_max row); auto.
      replace (Cabs (centry (matmul W A) f j k) / row_max row * row_max row)
        with (Cabs (centry (matmul W A) f j k)) by (field; lra).
      lra.
  - destruct (row_max_attained row) as [z [Hin Hz]].
    { intros E. pose proof (nth_shape_row (S F) (S n) (S n) (matmul W A) f j HP Hf Hj) as Hlen.
      fold row in Hlen. rewrite E in Hlen. discriminate. }
    destruct (shape_row_In (matmul W A) (S F) (S n) f j z HP Hf Hj Hin) as [k [Hk ->]].
    exists k. split; auto. rewrite take_rows_entry by lia. fold j.
    destruct (normalised_abs W A F n f j k HW HA Hnz Hf Hj Hk) as [Hpos ->].
    fold row in Hpos |- *. rewrite Hz. f_equal. field. lra.
Qed.

Lemma scale_permute_rows_have_unit_maximum_witness :
  (forall k, (k < 2)%nat ->
             exists v, zabs (zentry P0 0 1 k) = Fin v /\ 0 <= v <= 1) /\
  (exists k, (k < 2)%nat /\ zabs (zentry P0 0 1 k) = Fin 1).
Proof.
  destruct I2_A0_scale_permute as [W' Hsp].
  apply (scale_permute_rows_have_unit_maximum I2 A0 1 2 W' P0).
  - lia.
  - lia.
  - exact I2_shape.
  - exact A0_shape.
  - exact Hsp.
  - lia.
  - lia.
Defined.

(** *** The two results fit together *)

Lemma zval_zdiv z s : s <> 0 -> zval (zdiv z s) = Cmul (/ s, 0) z.
Proof.
  intros Hs. destruct z as [x y]. unfold zval, zdiv, Cmul. simpl.
  destruct (Req_dec_T s 0); [contradiction|]. simpl. f_equal; field; auto.
Qed.

Lemma to_tensor_row (X : ztensor) f r :
  nth r (nth f (to_tensor X) []) [] = map zval (nth r (nth f X []) []).
Proof.
  unfold to_tensor.
  change (@nil (list C)) with (map (map zval) []) at 1.
  rewrite (map_nth (map (map zval)) X [] f).
  change (@nil C) with (map zval []) at 1.
  now rewrite (map_nth (map zval)).
Qed.

Lemma to_tensor_shape X F n m : has_shape F n m X -> has_shape F n m (to_tensor X).
Proof.
  intros [HL HP]. unfold to_tensor. split; [now rewrite length_map|].
  apply Forall_map. eapply Forall_impl; [|exact HP].
  intros Pf [H1 H2]. split; [now rewrite length_map|].
  apply Forall_map. eapply Forall_impl; [|exact H2].
  intros row Hrow. simpl. now rewrite length_map.
Qed.

(** Two arrays of one shape with the same rows are equal. *)
Lemma tensor_rows_ext {A} F n m (X Y : list (list (list A))) :
  has_shape F n m X -> has_shape F n m Y ->
  (forall f r, (f < F)%nat -> (r < n)%nat ->
               nth r (nth f X []) [] = nth r (nth f Y []) []) ->
  X = Y.
Proof.
  intros HX HY Hrows.
  apply nth_ext with (d := []) (d' := []).
  - destruct HX as [-> _]. destruct HY as [-> _]. reflexivity.
  - intros f Hf. destruct HX as [HLX HX']. rewrite HLX in Hf.
    assert (HX : has_shape F n m X) by (split; auto).
    destruct (nth_shape F n m X f HX Hf) as [H1 _].
    destruct (nth_shape F n m Y f HY Hf) as [H2 _].
    apply nth_ext with (d := []) (d' := []); [lia|].
    intros r Hr. apply Hrows; auto. lia.
Qed.

(** X15: the two arrays [scale_permute] returns are finite and fit
    together: the second is the product of the first with [A], just as
    the product [P] of the arguments is [W @ A]. *)
Theorem scale_permute_results_fit_together
        (W A : tensor) (F n : nat) (W' P' : ztensor) :
  (0 < F)%nat -> (0 < n)%nat ->
  has_shape F n n W -> has_shape F n n A ->
  scale_permute W A = Ok (W', P') ->
  (forall f r k, (f < F)%nat -> (r < n)%nat -> (k < n)%nat ->
                 zfinite (zentry W' f r k) = true /\ zfinite (zentry P' f r k) = true) /\
  matmul (to_tensor W') A = to_tensor P'.
Proof.
  intros HF Hn HW HA Hsp.
  destruct F as [|F]; [lia|]. destruct n as [|n]; [lia|].
  split.
  { destruct (scale_permute_inv W A F n W' P' HW HA Hsp)
      as [Hnz [perm [Hperm [_ [-> ->]]]]].
    destruct (perm_seq_bound perm (S n) Hperm) as [HLp HBp].
    assert (HP : has_shape (S F) (S n) (S n) (matmul W A))
      by (apply matmul_shape with (m := n); auto).
    destruct (max_abs_shape _ _ _ _ HP) as [HS1 HS2].
    assert (HL1 : length (div_scale W (max_abs (matmul W A))) = S F)
      by (apply div_scale_shape with (n := S n) (m := S n); auto).
    assert (HL2 : length (div_scale (matmul W A) (max_abs (matmul W A))) = S F)
      by (apply div_scale_shape with (n := S n) (m := S n); auto).
    intros f r k Hf Hr Hk. rewrite !take_rows_entry by lia.
    apply (normalised_finite W A F n HW HA Hnz); auto.
    rewrite Forall_forall in HBp. apply HBp. apply nth_In. lia. }
  destruct (scale_permute_shape W A F n W' P' HW HA Hsp) as [HW' HP'].
  destruct (scale_permute_inv W A F n W' P' HW HA Hsp)
    as [Hnz [perm [Hperm [_ [EW EP]]]]].
  destruct (perm_seq_bound perm (S n) Hperm) as [HLp HBp].
  assert (HP : has_shape (S F) (S n) (S n) (matmul W A))
    by (apply matmul_shape with (m := n); auto).
  destruct (max_abs_shape _ _ _ _ HP) as [HS1 HS2].
  assert (HW1 : has_shape (S F) (S n) (S n) (div_scale W (max_abs (matmul W A))))
    by (apply div_scale_shape; auto).
  assert (HP1 : has_shape (S F) (S n) (S n)
                          (div_scale (matmul W A) (max_abs (matmul W A))))
    by (apply div_scale_shape; auto).
  pose proof (to_tensor_shape _ _ _ _ HW') as HTW.
  pose proof (to_tensor_shape _ _ _ _ HP') as HTP.
  apply (tensor_rows_ext (S F) (S n) (S n)); auto.
  - apply matmul_shape with (m := n); auto.
  - intros f r Hf Hr.
    rewrite (matmul_row (to_tensor W') A (S F) (S n) (S n)) by (auto; apply HA).
    rewrite !to_tensor_row. subst W' P'.
    destruct HW1 as [HL1 _]. destruct HP1 as [HL2 _].
    rewrite !take_rows_row by lia.
    set (j := nth r perm 0%nat).
    assert (Hj : (j < S n)%nat).
    { rewrite Forall_forall in HBp. apply HBp. apply nth_In. lia. }
    destruct (scaled_rows W A (S F) (S n) n f j HW HA Hf Hj) as [Hrow [-> ->]].
    destruct (Hnz f j Hf Hj) as [k0 [Hk0 Hz]].
    assert (Hpos : 0 < row_max (nth j (nth f (matmul W A) []) [])).
    { apply row_max_pos with (z := centry (matmul W A) f j k0); auto.
      apply shape_entry_In with (F := S F) (n := S n); auto. }
    rewrite Hrow in Hpos.
    set (prow := row_product (nth f A []) (nth j (nth f W []) [])) in *.
    rewrite !map_map.
    rewrite (map_ext _ (Cmul (/ row_max prow, 0)))
      by (intros z; apply zval_zdiv; lra).
    rewrite (map_ext (fun z => zval (zdiv z (row_max prow))) (Cmul (/ row_max prow, 0)))
      by (intros z; apply zval_zdiv; lra).
    apply row_product_scale.
Qed.

Lemma scale_permute_results_fit_together_witness :
  (forall f r k, (f < 1)%nat -> (r < 2)%nat -> (k < 2)%nat ->
                 zfinite (zentry PI2 f r k) = true /\ zfinite (zentry PI2 f r k) = true) /\
  matmul (to_tensor PI2) I2 = to_tensor PI2.
Proof.
  apply (scale_permute_results_fit_together I2 I2 1 2 PI2 PI2).
  - lia.
  - lia.
  - exact I2_shape.
  - exact I2_shape.
  - exact I2_I2_scale_permute.
Defined.

(** *** The metric sees the product only *)

Lemma ISR_of_product (W A : tensor) (F n : nat) :
  has_shape (S F) (S n) (S n) W -> has_shape (S F) (S n) (S n) A ->
  ISR W A
  = match linear_sum_assignment
            (err_mat (S n) (div_scale (matmul W A) (max_abs (matmul W A)))) with
    | Ok (_, perm) =>
        Ok (isr_db (S F) (S n)
                   (take_rows perm (div_scale (matmul W A) (max_abs (matmul W A)))))
    | Raise e => Raise e
    end.
Proof.
  intros HW HA. rewrite (ISR_eq W A F n HW HA), scale_permute_eq. unfold cost_matrix.
  destruct (has_shape_dims _ _ _ _ HW) as [_ ->]; [|discriminate].
  destruct (linear_sum_assignment _) as [[rows perm]|e]; reflexivity.
Qed.

(** X16: [ISR(W, A)] is a function of the product [W @ A]: two pairs of
    square arrays with the same product have the same ISR (or fail
    alike), and [ISR(W, A)] equals [ISR(W @ A, eye)]. *)
Theorem ISR_depends_on_product_only (W A W2 A2 : tensor) (F n : nat) :
  (0 < F)%nat -> (0 < n)%nat ->
  has_shape F n n W -> has_shape F n n A ->
  has_shape F n n W2 -> has_shape F n n A2 ->
  (matmul W A = matmul W2 A2 -> ISR W A = ISR W2 A2) /\
  ISR W A = ISR (matmul W A) (eye_tensor F n).
Proof.
  intros HF Hn HW HA HW2 HA2.
  destruct F as [|F]; [lia|]. destruct n as [|n]; [lia|].
  assert (HP : has_shape (S F) (S n) (S n) (matmul W A))
    by (apply matmul_shape with (m := n); auto).
  split.
  - intros E. rewrite (ISR_of_product W A F n HW HA), (ISR_of_product W2 A2 F n HW2 HA2).
    now rewrite E.
  - rewrite (ISR_of_product W A F n HW HA).
    rewrite (ISR_of_product (matmul W A) (eye_tensor (S F) (S n)) F n HP
                            (eye_tensor_shape _ _)).
    now rewrite (matmul_eye_r (matmul W A) (S F) (S n) (S n) HP).
Qed.

Lemma ISR_depends_on_product_only_witness :
  ISR I2 A0 = ISR A0 I2 /\
  ISR I2 A0 = ISR (matmul I2 A0) (eye_tensor 1 2).
Proof.
  destruct (ISR_depends_on_product_only I2 A0 A0 I2 1 2) as [H1 H2];
    try lia; try exact I2_shape; try exact A0_shape.
  split; [apply H1 | exact H2].
  rewrite I2_A0_matmul. symmetry. change I2 with (eye_tensor 1 2).
  apply (matmul_eye_r A0 1 2 2 A0_shape).
Defined.

(** ** The division by the row maximum inside [scale_permute] *)

(** C10: [scale_permute] divides row [(f, r)] of [W] and of [P = W @ A] by
    [scale[f, r]], the largest magnitude in that row of [P], with no test
    for zero.  When every row of [P] has a non-zero entry every divisor is
    positive, the cost matrix is in order and [scale_permute] returns the two
    quotient arrays, their rows reordered by one permutation.  When a row of
    [P] is entirely zero its divisor is zero and the division goes ahead all
    the same: no quotient in that row of [W] is finite, every quotient in
    that row of [P] is [nan], and what stops [scale_permute] is not a guard
    but the assignment solver, which is handed a cost matrix with a [nan].
    The quotients are exact here: whether the float64 quotient of a large
    entry of [W] by a tiny positive divisor overflows is not modelled, and
    nothing is stated about it. *)
Theorem scale_division_has_no_zero_guard (W A : tensor) (F n : nat) :
  (0 < F)%nat -> (0 < n)%nat ->
  has_shape F n n W -> has_shape F n n A ->
  let P := matmul W A in
  let scale := max_abs P in
  (* the divisor of a row and its quotients *)
  (forall f r, (f < F)%nat -> (r < n)%nat ->
     (forall k, (k < n)%nat -> Cabs (centry P f r k) <= nth r (nth f scale []) 0) /\
     (exists k, (k < n)%nat /\ Cabs (centry P f r k) = nth r (nth f scale []) 0) /\
     (forall k, (k < n)%nat ->
        zentry (div_scale W scale) f r k
        = zdiv (centry W f r k) (nth r (nth f scale []) 0) /\
        zentry (div_scale P scale) f r k
        = zdiv (centry P f r k) (nth r (nth f scale []) 0)))
  /\
  (* every row of the product has a non-zero entry *)
  (rows_nonzero F n P ->
   (forall f r, (f < F)%nat -> (r < n)%nat -> 0 < nth r (nth f scale []) 0) /\
   exists perm,
     Permutation perm (seq 0 n) /\
     scale_permute W A
     = Ok (take_rows perm (div_scale W scale), take_rows perm (div_scale P scale)))
  /\
  (* some row of the product is zero *)
  (forall f r, (f < F)%nat -> (r < n)%nat ->
     (forall k, (k < n)%nat -> centry P f r k = C0) ->
     nth r (nth f scale []) 0 = 0 /\
     (forall k, (k < n)%nat ->
        zfinite (zentry (div_scale W scale) f r k) = false /\
        zentry (div_scale P scale) f r k = znan) /\
     scale_permute W A = Raise (ValueError "matrix contains invalid numeric entries")).
Proof.
  intros HF Hn HW HA P scale.
  destruct F as [|F]; [lia|]. destruct n as [|n]; [lia|].
  assert (HP : has_shape (S F) (S n) (S n) P) by (apply matmul_shape with (m := n); auto).
  destruct (max_abs_shape _ _ _ _ HP) as [HS1 HS2]. fold scale in HS1, HS2.
  assert (Hscale : forall f r, nth r (nth f scale []) 0 = row_max (nth r (nth f P []) []))
    by (intros f r; apply max_abs_nth).
  split; [|split].
  - intros f r Hf Hr. rewrite Hscale. split; [|split].
    + intros k Hk. apply row_max_ge.
      apply shape_entry_In with (F := S F) (n := S n); auto.
    + destruct (row_max_attained (nth r (nth f P []) [])) as [z [Hin Hz]].
      { intros E. pose proof (nth_shape_row (S F) (S n) (S n) P f r HP Hf Hr) as Hlen.
        rewrite E in Hlen. discriminate. }
      destruct (shape_row_In P (S F) (S n) f r z HP Hf Hr Hin) as [k [Hk ->]].
      exists k. auto.
    + intros k Hk. rewrite <- Hscale.
      now rewrite !(div_scale_entry _ scale (S F) (S n)) by auto.
  - intros Hnz. split.
    + intros f r Hf Hr. destruct (Hnz f r Hf Hr) as [k [Hk Hz]].
      rewrite Hscale. apply row_max_pos with (z := centry P f r k); auto.
      apply shape_entry_In with (F := S F) (n := S n); auto.
    + pose proof (cost_matrix_finite W A F n HW HA Hnz) as Hfin.
      destruct (linear_sum_assignment (cost_matrix W A)) as [[rows perm]|e] eqn:E.
      2:{ unfold linear_sum_assignment in E. rewrite Hfin in E. discriminate. }
      pose proof (lsa_perm _ _ _ E) as [_ Hperm].
      assert (HL : length (cost_matrix W A) = S n).
      { unfold cost_matrix. destruct (has_shape_dims _ _ _ _ HW) as [_ ->]; [|discriminate].
        apply err_mat_length. }
      rewrite HL in Hperm. exists perm. split; auto.
      now rewrite scale_permute_eq, E.
  - intros f r Hf Hr Hz.
    assert (H0 : nth r (nth f scale []) 0 = 0).
    { rewrite Hscale. apply row_max_zero. intros z Hin.
      destruct (shape_row_In P (S F) (S n) f r z HP Hf Hr Hin) as [k [Hk ->]]. auto. }
    split; auto. split.
    + intros k Hk. rewrite !(div_scale_entry _ scale (S F) (S n)) by auto.
      rewrite H0, (Hz k Hk). split; [apply zdiv_by_zero | apply zdiv_zero_by_zero].
    + pose proof (cost_matrix_zero_row W A F n f r HW HA Hf Hr Hz) as Hbad.
      rewrite scale_permute_eq. unfold linear_sum_assignment. now rewrite Hbad.
Qed.

Lemma scale_division_has_no_zero_guard_witness :
  ((forall f r, (f < 1)%nat -> (r < 2)%nat ->
      0 < nth r (nth f (max_abs (matmul I2 A0)) []) 0) /\
   exists perm,
     Permutation perm (seq 0 2) /\
     scale_permute I2 A0
     = Ok (take_rows perm (div_scale I2 (max_abs (matmul I2 A0))),
           take_rows perm (div_scale (matmul I2 A0) (max_abs (matmul I2 A0)))))
  /\
  (nth 1 (nth 0 (max_abs (matmul Wrow0 I2)) []) 0 = 0 /\
   (forall k, (k < 2)%nat ->
      zfinite (zentry (div_scale Wrow0 (max_abs (matmul Wrow0 I2))) 0 1 k) = false /\
      zentry (div_scale (matmul Wrow0 I2) (max_abs (matmul Wrow0 I2))) 0 1 k = znan) /\
   scale_permute Wrow0 I2 = Raise (ValueError "matrix contains invalid numeric entries")).
Proof.
  assert (HW : has_shape 1 2 2 Wrow0) by (repeat constructor).
  split.
  - apply (proj1 (proj2 (scale_division_has_no_zero_guard I2 A0 1 2
                           ltac:(lia) ltac:(lia) I2_shape A0_shape))).
    exact I2_A0_rows_nonzero.
  - apply (proj2 (proj2 (scale_division_has_no_zero_guard Wrow0 I2 1 2
                           ltac:(lia) ltac:(lia) HW I2_shape)) 0%nat 1%nat).
    + lia.
    + lia.
    + intros k Hk. rewrite Wrow0_matmul.
      destruct k as [|[|k]]; [reflexivity | reflexivity | lia].
Defined.

(** ** Perfect separation *)

(** *** Sums of finite non-negative terms *)

Lemma fold_fadd_fin_nonneg : forall l a,
  Forall fin_nonneg l -> exists s, fold_left fadd l (Fin a) = Fin s /\ a <= s.
Proof.
  induction l as [|x l IH]; intros a Hl.
  - exists a. split; [reflexivity | lra].
  - inversion Hl as [|? ? [t [-> Ht]] Hl']; subst. simpl.
    destruct (IH (a + t) Hl') as [s [Hs Hle]]. exists s. split; auto. lra.
Qed.

Lemma fold_fadd_zeros : forall l a,
  Forall (fun x => x = Fin 0) l -> fold_left fadd l (Fin a) = Fin a.
Proof.
  induction l as [|x l IH]; intros a Hl; [reflexivity|].
  inversion Hl as [|? ? -> Hl']; subst. simpl.
  replace (a + 0) with a by lra. auto.
Qed.

Lemma fold_fadd_positive : forall l a,
  Forall fin_nonneg l -> (exists t, In (Fin t) l /\ 0 < t) ->
  exists s, fold_left fadd l (Fin a) = Fin s /\ a < s.
Proof.
  induction l as [|x l IH]; intros a Hl [t [Hin Ht]]; [contradiction|].
  inversion Hl as [|? ? [u [-> Hu]] Hl']; subst. simpl.
  destruct Hin as [E|Hin].
  - injection E as ->.
    destruct (fold_fadd_fin_nonneg l (a + t) Hl') as [s [Hs Hle]].
    exists s. split; auto. lra.
  - destruct (IH (a + u) Hl') as [s [Hs Hlt]]; [eauto|].
    exists s. split; auto. lra.
Qed.

Lemma fmean_zeros l : l <> [] -> Forall (fun x => x = Fin 0) l -> toR (fmean l) = 0 /\ is_finite (fmean l) = true.
Proof.
  intros Hne Hl. unfold fmean, fsum. rewrite fold_fadd_zeros by auto. simpl.
  destruct (Req_dec_T (INR (length l)) 0) as [E|E]; [now apply INR_pos_length in E|].
  simpl. split; [|reflexivity]. unfold Rdiv. ring.
Qed.

Lemma fmean_positive l :
  Forall fin_nonneg l -> (exists t, In (Fin t) l /\ 0 < t) -> 0 < toR (fmean l).
Proof.
  intros Hl Hex. unfold fmean, fsum.
  destruct (fold_fadd_positive l 0 Hl Hex) as [s [-> Hs]]. simpl.
  assert (Hne : l <> []) by (destruct Hex as [t [Hin _]]; intros ->; contradiction).
  destruct (Req_dec_T (INR (length l)) 0) as [E|E]; [now apply INR_pos_length in E|].
  simpl. apply Rdiv_lt_0_compat; auto.
  pose proof (pos_INR (length l)). lra.
Qed.

Lemma fmean_fin_nonneg l : Forall fin_nonneg l -> 0 <= toR (fmean l).
Proof.
  intros Hl. unfold fmean, fsum.
  destruct (fold_fadd_fin_nonneg l 0 Hl) as [s [-> Hs]]. simpl.
  destruct (Req_dec_T (INR (length l)) 0) as [E|E].
  - unfold Rsign_case. destruct (Rlt_dec s 0); simpl; [lra|].
    destruct (Rlt_dec 0 s); simpl; lra.
  - simpl. pose proof (pos_INR (length l)).
    apply Rmult_le_pos; auto. left. apply Rinv_0_lt_compat. lra.
Qed.

Lemma sum_nonneg_zero {X} (g : X -> R) : forall l,
  (forall x, In x l -> 0 <= g x) ->
  fold_right Rplus 0 (map g l) = 0 -> forall x, In x l -> g x = 0.
Proof.
  induction l as [|y l IH]; intros Hnn Hsum x Hin; [contradiction|].
  simpl in Hsum.
  assert (Hrest : 0 <= fold_right Rplus 0 (map g l)).
  { clear -Hnn. induction l as [|z l IHl]; simpl; [lra|].
    assert (0 <= g z) by (apply Hnn; right; left; auto).
    assert (0 <= fold_right Rplus 0 (map g l)).
    { apply IHl. intros x [->|Hx]; apply Hnn; [left | right; right]; auto. }
    lra. }
  assert (Hy : 0 <= g y) by (apply Hnn; left; auto).
  destruct Hin as [->|Hin]; [lra|].
  apply IH; auto; [|lra]. intros z Hz. apply Hnn. right; auto.
Qed.

Lemma sum_zeros {X} (g : X -> R) : forall l,
  (forall x, In x l -> g x = 0) -> fold_right Rplus 0 (map g l) = 0.
Proof.
  induction l as [|y l IH]; intros Hz; simpl; auto.
  rewrite (Hz y) by (left; auto). rewrite IH; [lra|].
  intros x Hx. apply Hz. right; auto.
Qed.

Lemma in_combine_seq {A} (l : list A) (d : A) : forall s i t,
  In (i, t) (combine (seq s (length l)) l) ->
  (s <= i < s + length l)%nat /\ t = nth (i - s) l d.
Proof.
  induction l as [|x l IH]; intros s i t Hin; [contradiction|].
  simpl in Hin. destruct Hin as [E|Hin].
  - injection E as <- <-. split; [simpl; lia|]. now rewrite Nat.sub_diag.
  - destruct (IH (S s) i t Hin) as [H1 H2]. split; [simpl; lia|].
    replace (i - s)%nat with (S (i - S s)) by lia. exact H2.
Qed.

Lemma combine_seq_nth {A} (l : list A) (d : A) : forall s i,
  (i < length l)%nat -> In ((s + i)%nat, nth i l d) (combine (seq s (length l)) l).
Proof.
  induction l as [|x l IH]; intros s i Hi; [simpl in Hi; lia|].
  destruct i as [|i]; simpl.
  - left. f_equal. lia.
  - right. replace (s + S i)%nat with (S s + i)%nat by lia. apply IH. simpl in Hi. lia.
Qed.

(** *** The cost matrix of a product with one non-zero entry per row *)

Section Perfect.
Variables (W A : tensor) (F n : nat) (sigma : list nat).
Hypothesis HW : has_shape (S F) (S n) (S n) W.
Hypothesis HA : has_shape (S F) (S n) (S n) A.
Hypothesis Hsigma : Permutation sigma (seq 0 (S n)).
Hypothesis Hsupport :
  forall f j k, (f < S F)%nat -> (j < S n)%nat -> (k < S n)%nat ->
                (centry (matmul W A) f j k <> C0 <-> k = nth j sigma 0%nat).

Lemma perfect_rows_nonzero : rows_nonzero (S F) (S n) (matmul W A).
Proof.
  intros f r Hf Hr. destruct (perm_seq_bound sigma (S n) Hsigma) as [HL HB].
  assert (Hk : (nth r sigma 0 < S n)%nat).
  { rewrite Forall_forall in HB. apply HB. apply nth_In. lia. }
  exists (nth r sigma 0%nat). split; auto. now apply Hsupport.
Qed.

Lemma perfect_abs f j k :
  (f < S F)%nat -> (j < S n)%nat -> (k < S n)%nat ->
  zabs (zentry (div_scale (matmul W A) (max_abs (matmul W A))) f j k)
  = Fin (delta k (nth j sigma 0%nat)).
Proof.
  intros Hf Hj Hk.
  assert (HP : has_shape (S F) (S n) (S n) (matmul W A))
    by (apply matmul_shape with (m := n); auto).
  destruct (normalised_abs W A F n f j k HW HA perfect_rows_nonzero Hf Hj Hk)
    as [Hpos ->].
  f_equal. unfold delta.
  destruct (Nat.eqb_spec k (nth j sigma 0%nat)) as [E|E].
  - destruct (row_max_attained (nth j (nth f (matmul W A) []) [])) as [z [Hin Hz]].
    { intros E0.
      pose proof (nth_shape_row (S F) (S n) (S n) (matmul W A) f j HP Hf Hj) as Hlen.
      rewrite E0 in Hlen. discriminate. }
    destruct (shape_row_In (matmul W A) (S F) (S n) f j z HP Hf Hj Hin) as [k' [Hk' ->]].
    assert (Hnz : centry (matmul W A) f j k' <> C0).
    { intros E0. rewrite E0 in Hz.
      replace (Cabs C0) with 0 in Hz by (symmetry; now apply Cabs_zero_iff). lra. }
    apply Hsupport in Hnz; auto. rewrite <- E in Hnz. subst k'.
    rewrite Hz. field. lra.
  - assert (Hz : centry (matmul W A) f j k = C0).
    { destruct (C_eq_C0_dec (centry (matmul W A) f j k)) as [E0|E0]; auto.
      apply Hsupport in E0; auto. contradiction. }
    rewrite Hz. replace (Cabs C0) with 0 by (symmetry; now apply Cabs_zero_iff).
    unfold Rdiv. ring.
Qed.

Lemma err_term_delta i k m :
  fsquare (fabs (fsub (eye i k) (Fin (delta k m))))
  = Fin (Rabs (delta i k + - delta k m) * Rabs (delta i k + - delta k m)).
Proof. unfold eye, delta. destruct (Nat.eqb i k); reflexivity. Qed.

Lemma perfect_cost_entry i j :
  (i < S n)%nat -> (j < S n)%nat ->
  (nth j sigma 0%nat = i -> toR (entry (cost_matrix W A) i j) = 0) /\
  (nth j sigma 0%nat <> i -> 0 < toR (entry (cost_matrix W A) i j)) /\
  0 <= toR (entry (cost_matrix W A) i j).
Proof.
  intros Hi Hj.
  assert (HP : has_shape (S F) (S n) (S n) (matmul W A))
    by (apply matmul_shape with (m := n); auto).
  destruct (max_abs_shape _ _ _ _ HP) as [HS1 HS2].
  set (P1 := div_scale (matmul W A) (max_abs (matmul W A))).
  assert (HP1 : has_shape (S F) (S n) (S n) P1) by (apply div_scale_shape; auto).
  destruct (has_shape_dims _ _ _ _ HP1) as [Hrows _].
  assert (HL1 : length P1 = S F) by apply HP1.
  set (L := flat_map
              (fun Pf => map (fun k => fsquare (fabs (fsub (eye i k)
                                          (zabs (nth k (nth j Pf []) znan)))))
                             (seq 0 (S n))) P1).
  assert (HE : entry (cost_matrix W A) i j = fmean L).
  { unfold cost_matrix, entry. fold P1.
    destruct (has_shape_dims _ _ _ _ HW) as [_ ->]; [|discriminate].
    unfold err_mat. rewrite nth_map_seq by auto.
    rewrite nth_map_seq by lia. reflexivity. }
  assert (Hterm : forall x, In x L ->
            exists k, (k < S n)%nat /\
              x = Fin (Rabs (delta i k + - delta k (nth j sigma 0%nat))
                       * Rabs (delta i k + - delta k (nth j sigma 0%nat)))).
  { intros x Hx. unfold L in Hx. apply in_flat_map in Hx.
    destruct Hx as [Pf [HPf Hx]]. apply in_map_iff in Hx. destruct Hx as [k [<- Hk]].
    apply in_seq in Hk. apply (In_nth _ _ []) in HPf. destruct HPf as [f [Hf <-]].
    exists k. split; [lia|].
    fold (zentry P1 f j k). unfold P1. rewrite perfect_abs by lia.
    apply err_term_delta. }
  assert (Hnn : Forall fin_nonneg L).
  { apply Forall_forall. intros x Hx. destruct (Hterm x Hx) as [k [_ ->]].
    eexists. split; [reflexivity|]. apply Rmult_le_pos; apply Rabs_pos. }
  rewrite HE. split; [|split].
  - intros Hs. apply fmean_zeros.
    + unfold L. destruct P1 as [|Pf P1']; [discriminate|]. discriminate.
    + apply Forall_forall. intros x Hx. destruct (Hterm x Hx) as [k [_ ->]].
      f_equal. rewrite Hs. unfold delta. rewrite (Nat.eqb_sym k i).
      replace ((if Nat.eqb i k then 1 else 0) + - (if Nat.eqb i k then 1 else 0))
        with 0 by (destruct (Nat.eqb i k); ring).
      rewrite Rabs_R0. ring.
  - intros Hs. apply fmean_positive; auto.
    exists 1. split; [|lra].
    unfold L. apply in_flat_map. exists (nth 0 P1 []). split; [apply nth_In; lia|].
    apply in_map_iff. exists i. split; [|apply in_seq; lia].
    fold (zentry P1 0 j i). unfold P1. rewrite perfect_abs by lia.
    rewrite err_term_delta. f_equal. unfold delta. rewrite Nat.eqb_refl.
    destruct (Nat.eqb_spec i (nth j sigma 0%nat)) as [E|E]; [congruence|].
    replace (1 + - 0) with 1 by ring. rewrite Rabs_R1. ring.
  - now apply fmean_fin_nonneg.
Qed.

Lemma perfect_assignment perm rows :
  linear_sum_assignment (cost_matrix W A) = Ok (rows, perm) ->
  Permutation perm (seq 0 (S n)) /\
  forall r, (r < S n)%nat -> nth (nth r perm 0%nat) sigma 0%nat = r.
Proof.
  intros E.
  assert (HL : length (cost_matrix W A) = S n).
  { unfold cost_matrix. destruct (has_shape_dims _ _ _ _ HW) as [_ ->]; [|discriminate].
    apply err_mat_length. }
  pose proof (lsa_perm _ _ _ E) as [_ Hperm]. rewrite HL in Hperm.
  split; auto.
  destruct (perm_seq_bound perm (S n) Hperm) as [HLp HBp].
  destruct (perm_seq_bound sigma (S n) Hsigma) as [HLs HBs].
  (* an assignment of cost zero *)
  destruct (inverse_exists sigma (seq 0 (S n)) (S n) Hsigma (Permutation_refl _))
    as [tau [Htau Hcomp]].
  destruct (perm_seq_bound tau (S n) Htau) as [HLt HBt].
  assert (Hinv : forall i, (i < S n)%nat -> nth (nth i tau 0%nat) sigma 0%nat = i).
  { intros i Hi.
    assert (E1 : nth i (compose sigma tau) 0%nat = nth i (seq 0 (S n)) 0%nat)
      by (now rewrite Hcomp).
    unfold compose in E1.
    rewrite (nth_map_in (fun j => nth j sigma 0%nat) tau i 0%nat 0%nat) in E1 by lia.
    now rewrite seq_nth in E1 by lia. }
  assert (Hnn : forall t (p : nat * nat),
             Forall (fun j => (j < S n)%nat) t ->
             In p (combine (seq 0 (length t)) t) -> length t = S n ->
             0 <= toR (entry (cost_matrix W A) (fst p) (snd p))).
  { intros t [i c] Ht Hin Hlen. destruct (in_combine_seq t 0%nat 0%nat i c Hin) as [Hi Hc].
    simpl. apply perfect_cost_entry; [lia|].
    apply in_combine_r in Hin. rewrite Forall_forall in Ht. auto. }
  assert (Hzero : assignment_cost (cost_matrix W A) tau = 0).
  { unfold assignment_cost. apply sum_zeros. intros [i c] Hin.
    destruct (in_combine_seq tau 0%nat 0%nat i c Hin) as [Hi Hc]. simpl.
    rewrite Nat.sub_0_r in Hc. subst c.
    apply perfect_cost_entry; [lia | |apply Hinv; lia].
    rewrite Forall_forall in HBt. apply HBt. apply nth_In. lia. }
  assert (Hp0 : assignment_cost (cost_matrix W A) perm = 0).
  { assert (Hle : assignment_cost (cost_matrix W A) perm <= 0).
    { rewrite <- Hzero. unfold linear_sum_assignment in E.
      destruct (forallb (forallb is_finite) (cost_matrix W A)); [|discriminate].
      injection E as _ <-. rewrite HL.
      apply argmin_first_le. right. now apply permutations_spec. }
    assert (Hge : 0 <= assignment_cost (cost_matrix W A) perm).
    { unfold assignment_cost. clear -Hnn HBp HLp.
      assert (G : forall l : list (nat * nat),
                 (forall p, In p l -> 0 <= toR (entry (cost_matrix W A) (fst p) (snd p))) ->
                 0 <= fold_right Rplus 0
                        (map (fun p => toR (entry (cost_matrix W A) (fst p) (snd p))) l)).
      { induction l as [|p l IHl]; intros Hl; simpl; [lra|].
        assert (0 <= toR (entry (cost_matrix W A) (fst p) (snd p)))
          by (apply Hl; left; auto).
        assert (0 <= fold_right Rplus 0
                       (map (fun p => toR (entry (cost_matrix W A) (fst p) (snd p))) l))
          by (apply IHl; intros q Hq; apply Hl; right; auto).
        lra. }
      apply G. intros p Hp. apply (Hnn perm p); auto. }
    lra. }
  intros r Hr.
  unfold assignment_cost in Hp0.
  pose proof (sum_nonneg_zero (fun p => toR (entry (cost_matrix W A) (fst p) (snd p)))
                _ (fun p Hp => Hnn perm p HBp Hp HLp) Hp0
                (r, nth r perm 0%nat)) as Hr0.
  assert (Hin : In (r, nth r perm 0%nat) (combine (seq 0 (length perm)) perm)).
  { pose proof (combine_seq_nth perm 0%nat 0%nat r) as Hc. simpl in Hc. apply Hc. lia. }
  specialize (Hr0 Hin). cbn [fst snd] in Hr0.
  assert (Hc : (nth r perm 0 < S n)%nat).
  { rewrite Forall_forall in HBp. apply HBp. apply nth_In. lia. }
  destruct (Nat.eq_dec (nth (nth r perm 0%nat) sigma 0%nat) r) as [Eq|Ne]; auto.
  destruct (perfect_cost_entry r (nth r perm 0%nat) Hr Hc) as [_ [Hpos _]].
  specialize (Hpos Ne). lra.
Qed.

Lemma perfect_isr_db perm :
  Permutation perm (seq 0 (S n)) ->
  (forall r, (r < S n)%nat -> nth (nth r perm 0%nat) sigma 0%nat = r) ->
  isr_db (S F) (S n)
         (take_rows perm (div_scale (matmul W A) (max_abs (matmul W A)))) = NInf.
Proof.
  intros Hperm Hinv.
  destruct (perm_seq_bound perm (S n) Hperm) as [HLp HBp].
  assert (HP : has_shape (S F) (S n) (S n) (matmul W A))
    by (apply matmul_shape with (m := n); auto).
  destruct (max_abs_shape _ _ _ _ HP) as [HS1 HS2].
  set (P1 := div_scale (matmul W A) (max_abs (matmul W A))).
  assert (HP1 : has_shape (S F) (S n) (S n) P1) by (apply div_scale_shape; auto).
  assert (HL1 : length P1 = S F) by apply HP1.
  set (P' := take_rows perm P1).
  assert (HL' : length P' = S F) by (unfold P', take_rows; now rewrite length_map).
  assert (Habs : forall f r k, (f < S F)%nat -> (r < S n)%nat -> (k < S n)%nat ->
                   zabs (zentry P' f r k) = Fin (delta k r)).
  { intros f r k Hf Hr Hk. unfold P'. rewrite take_rows_entry by lia.
    assert (Hc : (nth r perm 0 < S n)%nat).
    { rewrite Forall_forall in HBp. apply HBp. apply nth_In. lia. }
    unfold P1. rewrite perfect_abs by auto. now rewrite Hinv. }
  assert (Hsum : leakage_sum (S n) P' = Fin 0).
  { unfold leakage_sum, fsum. apply fold_fadd_zeros.
    apply Forall_forall. intros x Hx. apply in_flat_map in Hx.
    destruct Hx as [Pf [HPf Hx]]. apply in_map_iff in Hx.
    destruct Hx as [[r c] [<- Hrc]]. cbn [fst snd].
    unfold offdiag_pairs in Hrc. apply filter_In in Hrc. destruct Hrc as [Hrc Hne].
    apply in_prod_iff in Hrc. destruct Hrc as [Hr Hc].
    apply in_seq in Hr. apply in_seq in Hc. cbn [fst snd] in Hne.
    apply (In_nth _ _ []) in HPf. destruct HPf as [f [Hf <-]]. rewrite HL' in Hf.
    unfold ratio_entry.
    fold (zentry P' f r c). fold (zentry P' f r r).
    rewrite !Habs by lia. unfold delta. rewrite Nat.eqb_refl.
    rewrite Nat.eqb_sym. destruct (Nat.eqb r c); [discriminate|].
    simpl. destruct (Req_dec_T (1 * 1) 0) as [E|E]; [lra|]. f_equal. field. }
  unfold isr_db, to_db. fold P1. fold P'. rewrite Hsum.
  assert (HN : INR (S F * S n * S n) <> 0) by (apply not_0_INR; simpl; lia).
  unfold fdiv. destruct (Req_dec_T (INR (S F * S n * S n)) 0) as [E|E]; [contradiction|].
  unfold flog10, Rsign_case.
  replace (0 / INR (S F * S n * S n)) with 0 by (unfold Rdiv; ring).
  destruct (Rlt_dec 0 0); [lra|].
  unfold fmul, Rsign_case.
  destruct (Rlt_dec 10 0); [lra|]. destruct (Rlt_dec 0 10); [reflexivity | lra].
Qed.

Lemma perfect_ISR : ISR W A = Ok NInf.
Proof.
  rewrite (ISR_eq W A F n HW HA), scale_permute_eq.
  pose proof (cost_matrix_finite W A F n HW HA perfect_rows_nonzero) as Hfin.
  destruct (linear_sum_assignment (cost_matrix W A)) as [[rows perm]|e] eqn:E.
  2:{ unfold linear_sum_assignment in E. rewrite Hfin in E. discriminate. }
  destruct (perfect_assignment perm rows E) as [Hperm Hinv].
  cbn [bind snd]. f_equal. now apply perfect_isr_db.
Qed.

End Perfect.

(** X17: when the product [W @ A] has, in every frequency bin, exactly one
    non-zero entry per row, in a column given by one permutation [sigma] of
    the channels (the sources are separated perfectly, up to scale and
    order), [ISR] returns [-inf]: there is no leakage, and [log10(0)] is
    not an error.  With a single channel this is always the case. *)
Theorem ISR_of_perfect_separation_is_minus_infinity
        (W A : tensor) (F n : nat) (sigma : list nat) :
  (0 < F)%nat -> (0 < n)%nat ->
  has_shape F n n W -> has_shape F n n A ->
  Permutation sigma (seq 0 n) ->
  (forall f j k, (f < F)%nat -> (j < n)%nat -> (k < n)%nat ->
                 (centry (matmul W A) f j k <> C0 <-> k = nth j sigma 0%nat)) ->
  ISR W A = Ok NInf.
Proof.
  intros HF Hn HW HA Hsigma Hsupport.
  destruct F as [|F]; [lia|]. destruct n as [|n]; [lia|].
  now apply (perfect_ISR W A F n sigma).
Qed.

Lemma Wswap_matmul : matmul Wswap I2 = Wswap.
Proof.
  cbv [matmul Wswap I2 combine map matmul2 fst snd seq ncols length dot column nth
       fold_right Cadd Cmul C0].
  repeat (f_equal; try lra).
Qed.

Lemma ISR_of_perfect_separation_is_minus_infinity_witness : ISR Wswap I2 = Ok NInf.
Proof.
  apply (ISR_of_perfect_separation_is_minus_infinity Wswap I2 1 2 [1; 0]%nat).
  - lia.
  - lia.
  - repeat constructor.
  - exact I2_shape.
  - apply perm_swap.
  - intros f j k Hf Hj Hk. rewrite Wswap_matmul.
    assert (f = 0%nat) by lia. subst f.
    destruct j as [|[|j]]; [| |lia]; (destruct k as [|[|k]]; [| |lia]);
      unfold centry, Wswap, C0; simpl;
      (split; [ intros H; try reflexivity; exfalso; apply H; reflexivity
              | intros H; try discriminate; intros E; injection E; intros; lra ]).
Defined.

(** ** When the value of [ISR] is a number (exact arithmetic) *)

Lemma result_abs (W A : tensor) F n W' P' :
  has_shape (S F) (S n) (S n) W -> has_shape (S F) (S n) (S n) A ->
  scale_permute W A = Ok (W', P') ->
  length P' = S F /\
  forall f r k, (f < S F)%nat -> (r < S n)%nat -> (k < S n)%nat ->
                exists v, zabs (zentry P' f r k) = Fin v /\ 0 <= v.
Proof.
  intros HW HA Hsp.
  destruct (scale_permute_shape W A F n W' P' HW HA Hsp) as [_ [HL' _]].
  split; auto.
  destruct (scale_permute_inv W A F n W' P' HW HA Hsp)
    as [Hnz [perm [Hperm [_ [_ ->]]]]].
  destruct (perm_seq_bound perm (S n) Hperm) as [HLp HBp].
  assert (HP : has_shape (S F) (S n) (S n) (matmul W A))
    by (apply matmul_shape with (m := n); auto).
  destruct (max_abs_shape _ _ _ _ HP) as [HS1 HS2].
  assert (HL1 : length (div_scale (matmul W A) (max_abs (matmul W A))) = S F)
    by (apply div_scale_shape with (n := S n) (m := S n); auto).
  intros f r k Hf Hr Hk. rewrite take_rows_entry by lia.
  assert (Hj : (nth r perm 0 < S n)%nat).
  { rewrite Forall_forall in HBp. apply HBp. apply nth_In. lia. }
  destruct (normalised_abs W A F n f (nth r perm 0%nat) k HW HA Hnz Hf Hj Hk) as [Hpos ->].
  eexists. split; [reflexivity|].
  apply Rmult_le_pos; [apply Cabs_nonneg|]. left. now apply Rinv_0_lt_compat.
Qed.

Lemma ratio_fin (c d : R) :
  d <> 0 -> fdiv (fsquare (Fin c)) (fsquare (Fin d)) = Fin (c * c / (d * d)).
Proof.
  intros Hd. simpl. destruct (Req_dec_T (d * d) 0) as [E|E]; [|reflexivity].
  exfalso. apply Rmult_integral in E. tauto.
Qed.

Lemma in_offdiag_pairs n r c :
  In (r, c) (offdiag_pairs n) <-> (r < n)%nat /\ (c < n)%nat /\ r <> c.
Proof.
  unfold offdiag_pairs. rewrite filter_In, in_prod_iff, !in_seq. cbn [fst snd].
  destruct (Nat.eqb_spec r c); simpl; split; intros; try lia; intuition (try lia; try congruence).
Qed.

Lemma db_of_nonneg (s : R) (N : nat) :
  0 <= s -> (0 < N)%nat ->
  (s = 0 -> to_db (Fin s) N = NInf) /\
  (0 < s -> exists v, to_db (Fin s) N = Fin v).
Proof.
  intros Hs HN.
  assert (HNR : 0 < INR N) by (apply lt_0_INR; lia).
  unfold to_db, fdiv. destruct (Req_dec_T (INR N) 0) as [E|E]; [lra|].
  unfold flog10, Rsign_case. split.
  - intros ->. replace (0 / INR N) with 0 by (unfold Rdiv; ring).
    destruct (Rlt_dec 0 0); [lra|]. unfold fmul, Rsign_case.
    destruct (Rlt_dec 10 0); [lra|]. destruct (Rlt_dec 0 10); [reflexivity | lra].
  - intros Hpos. assert (0 < s / INR N) by (apply Rdiv_lt_0_compat; auto).
    destruct (Rlt_dec (s / INR N) 0); [lra|].
    destruct (Rlt_dec 0 (s / INR N)); [|lra]. simpl. eauto.
Qed.

(** X18: in exact arithmetic, when [scale_permute] succeeds and no
    diagonal term of the corrected product is zero, [ISR] returns a finite
    number or [-inf], never [inf] or [nan]; it is [-inf] exactly when every
    off-diagonal term of the corrected product is zero.  (The squares and
    their ratios are exact here; a float64 square that underflows to [0.0]
    or overflows is not modelled, so this is a statement about divisions
    by an exact zero only.) *)
Theorem ISR_is_a_number_when_diagonal_nonzero
        (W A : tensor) (F n : nat) (W' P' : ztensor) :
  (0 < F)%nat -> (0 < n)%nat ->
  has_shape F n n W -> has_shape F n n A ->
  scale_permute W A = Ok (W', P') ->
  (forall f r, (f < F)%nat -> (r < n)%nat -> zabs (zentry P' f r r) <> Fin 0) ->
  exists x,
    ISR W A = Ok x /\
    (x = NInf \/ exists v, x = Fin v) /\
    (x = NInf <->
     forall f r c, (f < F)%nat -> (r < n)%nat -> (c < n)%nat -> r <> c ->
                   zabs (zentry P' f r c) = Fin 0).
Proof.
  intros HF Hn HW HA Hsp Hdiag.
  destruct F as [|F]; [lia|]. destruct n as [|n]; [lia|].
  destruct (result_abs W A F n W' P' HW HA Hsp) as [HL' Habs].
  rewrite (ISR_eq W A F n HW HA), Hsp. cbn [bind snd].
  exists (isr_db (S F) (S n) P'). split; [reflexivity|].
  (* every ratio is a finite non-negative number *)
  assert (Hratio : forall f r c, (f < S F)%nat -> (r < S n)%nat -> (c < S n)%nat ->
            exists t, ratio_entry (nth f P' []) r c = Fin t /\ 0 <= t /\
                      (t = 0 <-> zabs (zentry P' f r c) = Fin 0)).
  { intros f r c Hf Hr Hc. unfold ratio_entry.
    fold (zentry P' f r c). fold (zentry P' f r r).
    pose proof (Hdiag f r Hf Hr) as Hd.
    destruct (Habs f r c Hf Hr Hc) as [a [-> Ha]].
    destruct (Habs f r r Hf Hr Hr) as [d [Ed Hd0]]. rewrite Ed in Hd |- *.
    assert (Hdne : d <> 0) by (intros ->; now apply Hd).
    rewrite ratio_fin by auto. eexists. split; [reflexivity|].
    assert (Hdd : 0 < d * d) by nra.
    split.
    - apply Rmult_le_pos; [nra|]. left. now apply Rinv_0_lt_compat.
    - split.
      + intros E. f_equal.
        assert (a * a = 0).
        { apply Rmult_eq_reg_r with (r := / (d * d)).
          - rewrite Rmult_0_l. exact E.
          - apply Rinv_neq_0_compat. lra. }
        nra.
      + intros E. injection E as ->. unfold Rdiv. ring. }
  set (L := flat_map (fun Pf => map (fun rc => ratio_entry Pf (fst rc) (snd rc))
                                    (offdiag_pairs (S n))) P').
  assert (HLin : forall x, In x L ->
            exists f r c, (f < S F)%nat /\ (r < S n)%nat /\ (c < S n)%nat /\ r <> c /\
                          x = ratio_entry (nth f P' []) r c).
  { intros x Hx. unfold L in Hx. apply in_flat_map in Hx.
    destruct Hx as [Pf [HPf Hx]]. apply in_map_iff in Hx.
    destruct Hx as [[r c] [<- Hrc]]. cbn [fst snd].
    apply in_offdiag_pairs in Hrc. destruct Hrc as [Hr [Hc Hne]].
    apply (In_nth _ _ []) in HPf. destruct HPf as [f [Hf <-]]. rewrite HL' in Hf.
    exists f, r, c. auto. }
  assert (HinL : forall f r c, (f < S F)%nat -> (r < S n)%nat -> (c < S n)%nat -> r <> c ->
                               In (ratio_entry (nth f P' []) r c) L).
  { intros f r c Hf Hr Hc Hne. unfold L. apply in_flat_map.
    exists (nth f P' []). split; [apply nth_In; lia|].
    apply in_map_iff. exists (r, c). split; [reflexivity|].
    apply in_offdiag_pairs. auto. }
  assert (Hnn : Forall fin_nonneg L).
  { apply Forall_forall. intros x Hx.
    destruct (HLin x Hx) as [f [r [c [Hf [Hr [Hc [_ ->]]]]]]].
    destruct (Hratio f r c Hf Hr Hc) as [t [-> [Ht _]]]. exists t. auto. }
  destruct (fold_fadd_fin_nonneg L 0 Hnn) as [s [Hs Hs0]].
  assert (HN : (0 < S F * S n * S n)%nat) by (simpl; lia).
  destruct (db_of_nonneg s (S F * S n * S n) Hs0 HN) as [Hzero Hposv].
  assert (Hdb : isr_db (S F) (S n) P' = to_db (Fin s) (S F * S n * S n)).
  { unfold isr_db, leakage_sum, fsum. fold L. now rewrite Hs. }
  rewrite Hdb.
  destruct (Req_dec_T s 0) as [Es|Es].
  - (* no leakage *)
    rewrite (Hzero Es). split; [left; reflexivity|]. split; [|reflexivity].
    intros _ f r c Hf Hr Hc Hne.
    destruct (Hratio f r c Hf Hr Hc) as [t [Et [Ht Hiff]]].
    apply Hiff.
    destruct (Req_dec_T t 0) as [E0|E0]; auto. exfalso.
    destruct (fold_fadd_positive L 0 Hnn) as [s' [Hs' Hlt]].
    { exists t. split; [|lra]. rewrite <- Et. now apply HinL. }
    rewrite Hs in Hs'. injection Hs' as <-. lra.
  - destruct (Hposv ltac:(lra)) as [v Hv]. rewrite Hv.
    split; [right; eauto|]. split; [discriminate|].
    intros Hall. exfalso. apply Es.
    assert (Hz : Forall (fun x => x = Fin 0) L).
    { apply Forall_forall. intros x Hx.
      destruct (HLin x Hx) as [f [r [c [Hf [Hr [Hc [Hne ->]]]]]]].
      destruct (Hratio f r c Hf Hr Hc) as [t [-> [Ht Hiff]]].
      f_equal. apply Hiff. now apply Hall. }
    rewrite (fold_fadd_zeros L 0 Hz) in Hs. now injection Hs.
Qed.

Lemma ISR_is_a_number_when_diagonal_nonzero_witness :
  exists x,
    ISR I2 A0 = Ok x /\
    (x = NInf \/ exists v, x = Fin v) /\
    (x = NInf <->
     forall f r c, (f < 1)%nat -> (r < 2)%nat -> (c < 2)%nat -> r <> c ->
                   zabs (zentry P0 f r c) = Fin 0).
Proof.
  destruct I2_A0_scale_permute as [W' Hsp].
  apply (ISR_is_a_number_when_diagonal_nonzero I2 A0 1 2 W' P0).
  - lia.
  - lia.
  - exact I2_shape.
  - exact A0_shape.
  - exact Hsp.
  - intros f r Hf Hr. assert (f = 0%nat) by lia. subst f.
    destruct r as [|[|r]]; [| |lia]; unfold zentry, P0; simpl;
      intros E; injection E as E; apply sqrt_eq_0 in E; lra.
Defined.

(** ** separation_error *)

Lemma fold_fadd_finite_sum : forall l a,
  Forall (fun x => is_finite x = true) l ->
  fold_left fadd l (Fin a) = Fin (a + fold_right Rplus 0 (map toR l)).
Proof.
  induction l as [|x l IH]; intros a Hl; simpl.
  - f_equal. ring.
  - inversion Hl as [|? ? Hx Hl']; subst. destruct x; try discriminate.
    simpl. rewrite IH by auto. f_equal. ring.
Qed.

Lemma fmean_all_zero l : l <> [] -> Forall (fun x => x = Fin 0) l -> fmean l = Fin 0.
Proof.
  intros Hne Hl. unfold fmean, fsum. rewrite fold_fadd_zeros by auto. simpl.
  destruct (Req_dec_T (INR (length l)) 0) as [E|E]; [now apply INR_pos_length in E|].
  f_equal. unfold Rdiv. ring.
Qed.

(** A mean of finite non-negative terms is finite and non-negative; it is
    zero only if every term is. *)
Lemma fmean_fin_nonneg_inv l :
  l <> [] -> Forall fin_nonneg l ->
  exists v, fmean l = Fin v /\ 0 <= v /\
            (v = 0 -> Forall (fun x => x = Fin 0) l).
Proof.
  intros Hne Hl. unfold fmean, fsum.
  destruct (fold_fadd_fin_nonneg l 0 Hl) as [s [Hs Hs0]]. rewrite Hs. simpl.
  assert (HN : 0 < INR (length l)).
  { pose proof (pos_INR (length l)). pose proof (INR_pos_length l Hne). lra. }
  destruct (Req_dec_T (INR (length l)) 0) as [E|E]; [lra|].
  exists (s / INR (length l)). split; [reflexivity|]. split.
  - apply Rmult_le_pos; auto. left. now apply Rinv_0_lt_compat.
  - intros Hz.
    assert (Es : s = 0).
    { apply Rmult_eq_reg_r with (r := / INR (length l)).
      - rewrite Rmult_0_l. exact Hz.
      - apply Rinv_neq_0_compat. lra. }
    apply Forall_forall. intros x Hx.
    rewrite Forall_forall in Hl. destruct (Hl x Hx) as [t [-> Ht]].
    destruct (Req_dec_T t 0) as [->|Hne0]; auto. exfalso.
    destruct (fold_fadd_positive l 0) as [s' [Hs' Hlt]];
      [apply Forall_forall; auto | exists t; split; auto; lra |].
    rewrite Hs in Hs'. injection Hs' as <-. lra.
Qed.

Lemma map_combine_seq {A T} (g : nat * A -> T) (l : list A) (d : A) : forall s,
  map g (combine (seq s (length l)) l)
  = map (fun i => g (i, nth (i - s) l d)) (seq s (length l)).
Proof.
  induction l as [|x l IH]; intros s; [reflexivity|].
  cbn [length seq combine map]. rewrite Nat.sub_diag. cbn [nth]. f_equal.
  rewrite IH. apply map_ext_in. intros i Hi. apply in_seq in Hi.
  replace (i - s)%nat with (S (i - S s)) by lia. reflexivity.
Qed.

Lemma Cabs_sq_zero a b : Cabs (Csub a b) * Cabs (Csub a b) = 0 -> a = b.
Proof.
  intros H. assert (Hz : Cabs (Csub a b) = 0) by nra.
  apply Cabs_zero_iff in Hz. destruct a as [x y], b as [u v].
  unfold Csub, C0 in Hz. simpl in Hz. injection Hz as H1 H2. f_equal; lra.
Qed.

Lemma Cabs_sq_same a : Cabs (Csub a a) * Cabs (Csub a a) = 0.
Proof.
  replace (Csub a a) with C0
    by (destruct a; unfold Csub, C0; simpl; f_equal; ring).
  replace (Cabs C0) with 0 by (symmetry; now apply Cabs_zero_iff). ring.
Qed.

Lemma bidx_lt size i : (i < size)%nat -> bidx size i = i.
Proof. unfold bidx. destruct (Nat.eqb_spec size 1); intros; lia. Qed.

Section Matching.
Variables (X Y : tensor) (F n T : nat).
Hypothesis HX : has_shape (S F) (S n) (S T) X.
Hypothesis HY : has_shape (S F) (S n) (S T) Y.

Lemma matching_dims :
  length X = S F /\ length Y = S F /\ last_dim X = S T /\ last_dim Y = S T /\
  n_rows X = S n /\ n_rows Y = S n.
Proof.
  destruct (has_shape_dims _ _ _ _ HX) as [H1 H2].
  destruct (has_shape_dims _ _ _ _ HY) as [H3 H4].
  destruct HX as [H5 _]. destruct HY as [H6 _].
  repeat split; auto.
Qed.

Lemma sq_dev_eq i j f t :
  (f < S F)%nat -> (t < S T)%nat ->
  sq_dev X Y i j f t
  = Fin (Cabs (Csub (centry X f j t) (centry Y f i t))
         * Cabs (Csub (centry X f j t) (centry Y f i t))).
Proof.
  intros Hf Ht. destruct matching_dims as [H1 [H2 [H3 [H4 _]]]].
  unfold sq_dev. rewrite H1, H2, H3, H4. now rewrite !bidx_lt by auto.
Qed.

Lemma channel_mse_terms i j x :
  In x (flat_map (fun f => map (sq_dev X Y i j f) (seq 0 (S T))) (seq 0 (S F))) <->
  exists f t, (f < S F)%nat /\ (t < S T)%nat /\
              x = Fin (Cabs (Csub (centry X f j t) (centry Y f i t))
                       * Cabs (Csub (centry X f j t) (centry Y f i t))).
Proof.
  rewrite in_flat_map. split.
  - intros [f [Hf Hx]]. apply in_seq in Hf. apply in_map_iff in Hx.
    destruct Hx as [t [<- Ht]]. apply in_seq in Ht.
    exists f, t. split; [lia|]. split; [lia|]. apply sq_dev_eq; lia.
  - intros [f [t [Hf [Ht ->]]]]. exists f. split; [apply in_seq; lia|].
    apply in_map_iff. exists t. split; [apply sq_dev_eq; auto | apply in_seq; lia].
Qed.

(** The mean squared deviation between two channels is a finite
    non-negative number, zero exactly when the channels are equal. *)
Lemma channel_mse_value i j :
  exists v, channel_mse X Y i j = Fin v /\ 0 <= v /\
            (v = 0 <-> forall f t, (f < S F)%nat -> (t < S T)%nat ->
                                   centry X f j t = centry Y f i t).
Proof.
  destruct matching_dims as [H1 [H2 [H3 [H4 _]]]].
  unfold channel_mse. rewrite H2, H4.
  set (L := flat_map (fun f => map (sq_dev X Y i j f) (seq 0 (S T))) (seq 0 (S F))).
  assert (Hne : L <> []) by discriminate.
  assert (Hnn : Forall fin_nonneg L).
  { apply Forall_forall. intros x Hx. apply channel_mse_terms in Hx.
    destruct Hx as [f [t [_ [_ ->]]]]. eexists. split; [reflexivity|].
    apply Rmult_le_pos; apply Cabs_nonneg. }
  destruct (fmean_fin_nonneg_inv L Hne Hnn) as [v [Hv [Hv0 Hz]]].
  exists v. split; auto. split; auto. split.
  - intros E f t Hf Ht. specialize (Hz E). rewrite Forall_forall in Hz.
    assert (Hin : In (Fin (Cabs (Csub (centry X f j t) (centry Y f i t))
                           * Cabs (Csub (centry X f j t) (centry Y f i t)))) L)
      by (apply channel_mse_terms; eauto).
    specialize (Hz _ Hin). injection Hz as Hz. now apply Cabs_sq_zero.
  - intros Heq.
    assert (Hall : Forall (fun x => x = Fin 0) L).
    { apply Forall_forall. intros x Hx. apply channel_mse_terms in Hx.
      destruct Hx as [f [t [Hf [Ht ->]]]]. rewrite (Heq f t Hf Ht).
      f_equal. apply Cabs_sq_same. }
    rewrite (fmean_all_zero L Hne Hall) in Hv. now injection Hv.
Qed.

Lemma sep_err_mat_eq :
  sep_err_mat X Y
  = Ok (map (fun i => map (fun j => channel_mse X Y i j) (seq 0 (S n))) (seq 0 (S n))).
Proof.
  destruct matching_dims as [H1 [H2 [H3 [H4 [H5 H6]]]]].
  unfold sep_err_mat, broadcast_dim. rewrite H1, H2, H3, H4, H5, H6, !Nat.eqb_refl.
  cbn [bind]. unfold channel_mse. now rewrite H2, H4.
Qed.

Lemma sep_entry i j :
  (i < S n)%nat -> (j < S n)%nat ->
  entry (map (fun i => map (fun j => channel_mse X Y i j) (seq 0 (S n))) (seq 0 (S n))) i j
  = channel_mse X Y i j.
Proof.
  intros Hi Hj. unfold entry. rewrite nth_map_seq by auto. now rewrite nth_map_seq by auto.
Qed.

Lemma sep_matrix_finite :
  forallb (forallb is_finite)
          (map (fun i => map (fun j => channel_mse X Y i j) (seq 0 (S n))) (seq 0 (S n)))
  = true.
Proof.
  apply forallb_forall. intros row Hrow. apply in_map_iff in Hrow.
  destruct Hrow as [i [<- _]]. apply forallb_forall. intros x Hx.
  apply in_map_iff in Hx. destruct Hx as [j [<- _]].
  destruct (channel_mse_value i j) as [v [-> _]]. reflexivity.
Qed.

End Matching.

Lemma flat_map_ext_within {A B} (f g : A -> list B) : forall l,
  (forall a, In a l -> f a = g a) -> flat_map f l = flat_map g l.
Proof.
  induction l as [|x l IH]; intros H; simpl; auto.
  rewrite (H x) by (left; auto). rewrite IH; auto. intros a Ha. apply H. right; auto.
Qed.

Lemma take_rows_centry (perm : list nat) (X : tensor) f r k :
  (f < length X)%nat -> (r < length perm)%nat ->
  centry (take_rows perm X) f r k = centry X f (nth r perm 0%nat) k.
Proof. intros Hf Hr. unfold centry. now rewrite take_rows_row. Qed.

Lemma channel_mse_take_rows (X Y : tensor) F n T (c : list nat) i :
  has_shape (S F) (S n) (S T) X -> has_shape (S F) (S n) (S T) Y ->
  Permutation c (seq 0 (S n)) -> (i < S n)%nat ->
  channel_mse (take_rows c X) Y i i = channel_mse X Y i (nth i c 0%nat).
Proof.
  intros HX HY Hc Hi.
  destruct (perm_seq_bound c (S n) Hc) as [HLc HBc].
  assert (HX' : has_shape (S F) (S n) (S T) (take_rows c X)).
  { pose proof (take_rows_shape c X (S F) (S n) (S T) HX HBc) as H.
    now rewrite HLc in H. }
  destruct (matching_dims X Y F n T HX HY) as [H1 [H2 [H3 [H4 _]]]].
  unfold channel_mse. rewrite H2, H4.
  apply f_equal. apply flat_map_ext_within. intros f Hf. apply in_seq in Hf.
  apply map_ext_in. intros t Ht. apply in_seq in Ht.
  rewrite (sq_dev_eq (take_rows c X) Y F n T HX' HY) by lia.
  rewrite (sq_dev_eq X Y F n T HX HY) by lia.
  now rewrite take_rows_centry by lia.
Qed.

Section SeparationRun.
Variable bss_project_back : tensor -> matrix -> result tensor.
Variables (est mix ref Y : tensor) (ref_ch : Z) (ch F n T : nat).
Hypothesis Hch : py_index (n_rows mix) ref_ch = Some ch.
Hypothesis Hpb : bss_project_back (transpose_201 est) (channel_T mix ch) = Ok Y.
Hypothesis Href : has_shape (S F) (S n) (S T) ref.
Hypothesis Hhat : has_shape (S F) (S n) (S T) (transpose_120 Y).

(** The mean of the matched entries is the assignment cost divided by the
    number of channels. *)
Lemma mean_along tau :
  Permutation tau (seq 0 (S n)) ->
  fmean (map (fun i => channel_mse (transpose_120 Y) ref i (nth i tau 0%nat)) (seq 0 (S n)))
  = Fin (assignment_cost
           (map (fun i => map (fun j => channel_mse (transpose_120 Y) ref i j) (seq 0 (S n)))
                (seq 0 (S n))) tau
         / INR (S n)).
Proof.
  intros Htau. destruct (perm_seq_bound tau (S n) Htau) as [HLt HBt].
  unfold fmean, fsum. rewrite fold_fadd_finite_sum.
  2:{ apply Forall_forall. intros x Hx. apply in_map_iff in Hx.
      destruct Hx as [i [<- _]].
      destruct (channel_mse_value (transpose_120 Y) ref F n T Hhat Href i (nth i tau 0%nat))
        as [v [-> _]]. reflexivity. }
  rewrite length_map, length_seq. unfold fdiv.
  destruct (Req_dec_T (INR (S n)) 0) as [E|E].
  { exfalso. revert E. apply not_0_INR. discriminate. }
  f_equal. f_equal. rewrite Rplus_0_l. unfold assignment_cost.
  rewrite (map_combine_seq _ tau 0%nat 0%nat), HLt, map_map. f_equal.
  apply map_ext_in. intros i Hi. apply in_seq in Hi. cbn [fst snd].
  rewrite Nat.sub_0_r. rewrite sep_entry; auto; [lia|].
  rewrite Forall_forall in HBt. apply HBt. apply nth_In. lia.
Qed.

Lemma separation_error_run :
  exists c,
    Permutation c (seq 0 (S n)) /\
    separation_error bss_project_back est mix ref ref_ch
    = Done (fmean (map (fun i => channel_mse (transpose_120 Y) ref i (nth i c 0%nat))
                       (seq 0 (S n))),
            c, take_rows c (transpose_120 Y)) /\
    forall tau, Permutation tau (seq 0 (S n)) ->
      assignment_cost
        (map (fun i => map (fun j => channel_mse (transpose_120 Y) ref i j) (seq 0 (S n)))
             (seq 0 (S n))) c
      <= assignment_cost
           (map (fun i => map (fun j => channel_mse (transpose_120 Y) ref i j) (seq 0 (S n)))
                (seq 0 (S n))) tau.
Proof.
  set (E := map (fun i => map (fun j => channel_mse (transpose_120 Y) ref i j) (seq 0 (S n)))
                (seq 0 (S n))).
  set (c := argmin_first (assignment_cost E) (seq 0 (S n)) (permutations (S n))).
  assert (Hc : Permutation c (seq 0 (S n))) by apply argmin_first_perm.
  destruct (perm_seq_bound c (S n) Hc) as [HLc HBc].
  exists c. split; auto. split.
  - unfold separation_error. rewrite Hch, Hpb.
    rewrite (sep_err_mat_eq (transpose_120 Y) ref F n T Hhat Href). fold E.
    cbn [bind]. unfold linear_sum_assignment.
    unfold E at 1. rewrite (sep_matrix_finite (transpose_120 Y) ref F n T Hhat Href).
    fold E. assert (HLE : length E = S n) by (unfold E; now rewrite length_map, length_seq).
    rewrite HLE. cbn [bind]. fold c. f_equal. f_equal. f_equal. f_equal.
    rewrite <- HLc at 1. rewrite (map_combine_seq _ c 0%nat 0%nat), HLc.
    apply map_ext_in. intros i Hi. apply in_seq in Hi. cbn [fst snd].
    rewrite Nat.sub_0_r. unfold E. apply sep_entry; [lia|].
    rewrite Forall_forall in HBc. apply HBc. apply nth_In. lia.
  - intros tau Htau. apply argmin_first_le. right. now apply permutations_spec.
Qed.

End SeparationRun.

(** X19: when the signals that [bss.project_back] returns have the shape
    of the reference (as many channels, bins and frames, none of them
    zero), [separation_error] succeeds.  It returns a permutation [c] of
    the channels, the estimate with its channels reordered by [c], and as
    error the mean over the channels [i] of the mean squared deviation of
    channel [i] of that reordered estimate from channel [i] of the
    reference; no other order of the channels gives a smaller error. *)
Theorem separation_error_matches_channels
        (bss_project_back : tensor -> matrix -> result tensor)
        (est mix ref Y : tensor) (ref_ch : Z) (ch F n T : nat) :
  (0 < F)%nat -> (0 < n)%nat -> (0 < T)%nat ->
  py_index (n_rows mix) ref_ch = Some ch ->
  bss_project_back (transpose_201 est) (channel_T mix ch) = Ok Y ->
  has_shape F n T ref -> has_shape F n T (transpose_120 Y) ->
  exists c v,
    separation_error bss_project_back est mix ref ref_ch
    = Done (Fin v, c, take_rows c (transpose_120 Y)) /\
    Permutation c (seq 0 n) /\
    Fin v = fmean (map (fun i => channel_mse (take_rows c (transpose_120 Y)) ref i i)
                       (seq 0 n)) /\
    0 <= v /\
    forall tau, Permutation tau (seq 0 n) ->
      exists u,
        fmean (map (fun i => channel_mse (take_rows tau (transpose_120 Y)) ref i i)
                   (seq 0 n)) = Fin u /\ v <= u.
Proof.
  intros HF Hn HT Hch Hpb Href Hhat.
  destruct F as [|F]; [lia|]. destruct n as [|n]; [lia|]. destruct T as [|T]; [lia|].
  destruct (separation_error_run bss_project_back est mix ref Y ref_ch ch F n T
              Hch Hpb Href Hhat) as [c [Hc [Hrun Hopt]]].
  set (E := map (fun i => map (fun j => channel_mse (transpose_120 Y) ref i j) (seq 0 (S n)))
                (seq 0 (S n))) in *.
  assert (Hreorder : forall tau, Permutation tau (seq 0 (S n)) ->
            fmean (map (fun i => channel_mse (take_rows tau (transpose_120 Y)) ref i i)
                       (seq 0 (S n)))
            = Fin (assignment_cost E tau / INR (S n))).
  { intros tau Htau.
    transitivity (fmean (map (fun i => channel_mse (transpose_120 Y) ref i (nth i tau 0%nat))
                             (seq 0 (S n))));
      [|apply (mean_along ref Y F n T Href Hhat tau Htau)].
    f_equal. apply map_ext_in. intros i Hi. apply in_seq in Hi.
    apply (channel_mse_take_rows (transpose_120 Y) ref F n T); auto. lia. }
  assert (HN : 0 < INR (S n)) by (apply lt_0_INR; lia).
  exists c, (assignment_cost E c / INR (S n)).
  split; [|split; [|split; [|split]]].
  - rewrite Hrun. f_equal. f_equal. f_equal.
    apply (mean_along ref Y F n T Href Hhat c Hc).
  - exact Hc.
  - symmetry. now apply Hreorder.
  - apply Rmult_le_pos; [|left; now apply Rinv_0_lt_compat].
    destruct (perm_seq_bound c (S n) Hc) as [HLc HBc].
    unfold assignment_cost.
    assert (G : forall l : list (nat * nat),
               (forall p, In p l -> (fst p < S n)%nat /\ (snd p < S n)%nat) ->
               0 <= fold_right Rplus 0 (map (fun p => toR (entry E (fst p) (snd p))) l)).
    { induction l as [|p l IHl]; intros Hl; simpl; [lra|].
      destruct (Hl p (or_introl eq_refl)) as [H1 H2].
      assert (0 <= fold_right Rplus 0 (map (fun p => toR (entry E (fst p) (snd p))) l))
        by (apply IHl; intros q Hq; apply Hl; right; auto).
      unfold E at 1. rewrite sep_entry by auto.
      destruct (channel_mse_value (transpose_120 Y) ref F n T Hhat Href (fst p) (snd p))
        as [v [-> [Hv _]]]. simpl. lra. }
    apply G. intros [i t] Hin.
    destruct (in_combine_seq c 0%nat 0%nat i t Hin) as [Hi _].
    apply in_combine_r in Hin. rewrite Forall_forall in HBc. cbn [fst snd].
    split; [lia | auto].
  - intros tau Htau. exists (assignment_cost E tau / INR (S n)).
    split; [now apply Hreorder|].
    apply Rmult_le_compat_r; [left; now apply Rinv_0_lt_compat | now apply Hopt].
Qed.

Lemma est2_hat : transpose_120 (transpose_201 est2) = take_rows [1; 0]%nat ref2.
Proof. reflexivity. Qed.

Lemma separation_error_matches_channels_witness :
  exists c v,
    separation_error keep_scale est2 ref2 ref2 0
    = Done (Fin v, c, take_rows c (transpose_120 (transpose_201 est2))) /\
    Permutation c (seq 0 2) /\
    Fin v = fmean (map (fun i => channel_mse
                                   (take_rows c (transpose_120 (transpose_201 est2))) ref2 i i)
                       (seq 0 2)) /\
    0 <= v /\
    forall tau, Permutation tau (seq 0 2) ->
      exists u,
        fmean (map (fun i => channel_mse
                               (take_rows tau (transpose_120 (transpose_201 est2))) ref2 i i)
                   (seq 0 2)) = Fin u /\ v <= u.
Proof.
  apply (separation_error_matches_channels keep_scale est2 ref2 ref2
           (transpose_201 est2) 0%Z 0%nat 1 2 2).
  - lia.
  - lia.
  - lia.
  - reflexivity.
  - reflexivity.
  - repeat constructor.
  - rewrite est2_hat. repeat constructor.
Defined.

(** X20: when the signals that [bss.project_back] returns are the
    reference signals with their channels in another order,
    [separation_error] undoes the reordering: it returns error 0 and, as
    estimate, the reference itself. *)
Theorem separation_error_recovers_reordered_reference
        (bss_project_back : tensor -> matrix -> result tensor)
        (est mix ref Y : tensor) (ref_ch : Z) (ch F n T : nat) (sigma : list nat) :
  (0 < F)%nat -> (0 < n)%nat -> (0 < T)%nat ->
  py_index (n_rows mix) ref_ch = Some ch ->
  bss_project_back (transpose_201 est) (channel_T mix ch) = Ok Y ->
  has_shape F n T ref ->
  Permutation sigma (seq 0 n) ->
  transpose_120 Y = take_rows sigma ref ->
  exists c,
    Permutation c (seq 0 n) /\
    separation_error bss_project_back est mix ref ref_ch = Done (Fin 0, c, ref).
Proof.
  intros HF Hn HT Hch Hpb Href Hsigma Hhat_eq.
  destruct F as [|F]; [lia|]. destruct n as [|n]; [lia|]. destruct T as [|T]; [lia|].
  destruct (perm_seq_bound sigma (S n) Hsigma) as [HLs HBs].
  assert (Hhat : has_shape (S F) (S n) (S T) (transpose_120 Y)).
  { rewrite Hhat_eq. pose proof (take_rows_shape sigma ref (S F) (S n) (S T) Href HBs) as H.
    now rewrite HLs in H. }
  destruct (separation_error_run bss_project_back est mix ref Y ref_ch ch F n T
              Hch Hpb Href Hhat) as [c [Hc [Hrun Hopt]]].
  set (E := map (fun i => map (fun j => channel_mse (transpose_120 Y) ref i j) (seq 0 (S n)))
                (seq 0 (S n))) in *.
  destruct (perm_seq_bound c (S n) Hc) as [HLc HBc].
  assert (HLref : length ref = S F) by apply Href.
  (* the cost of matching reference channel [i] with estimated channel [j] *)
  assert (Hentry : forall i j, (i < S n)%nat -> (j < S n)%nat ->
            0 <= toR (entry E i j) /\
            (nth j sigma 0%nat = i -> toR (entry E i j) = 0) /\
            (toR (entry E i j) = 0 ->
             channel_mse (transpose_120 Y) ref i j = Fin 0 /\
             forall f, (f < S F)%nat ->
                       nth j (nth f (transpose_120 Y) []) [] = nth i (nth f ref []) [])).
  { intros i j Hi Hj. unfold E. rewrite sep_entry by auto.
    destruct (channel_mse_value (transpose_120 Y) ref F n T Hhat Href i j)
      as [v [Ev [Hv Hiff]]].
    rewrite Ev. simpl. split; auto. split.
    - intros Hs. apply Hiff. intros f t Hf Ht. rewrite Hhat_eq.
      rewrite take_rows_centry by lia. now rewrite Hs.
    - intros ->. split; [reflexivity|]. intros f Hf.
      apply nth_ext with (d := C0) (d' := C0).
      + rewrite (nth_shape_row (S F) (S n) (S T) _ f j Hhat Hf Hj).
        now rewrite (nth_shape_row (S F) (S n) (S T) _ f i Href Hf Hi).
      + intros t Ht.
        rewrite (nth_shape_row (S F) (S n) (S T) _ f j Hhat Hf Hj) in Ht.
        apply Hiff; auto. }
  (* an order of cost zero *)
  destruct (inverse_exists sigma (seq 0 (S n)) (S n) Hsigma (Permutation_refl _))
    as [tau [Htau Hcomp]].
  destruct (perm_seq_bound tau (S n) Htau) as [HLt HBt].
  assert (Hinv : forall i, (i < S n)%nat -> nth (nth i tau 0%nat) sigma 0%nat = i).
  { intros i Hi.
    assert (E1 : nth i (compose sigma tau) 0%nat = nth i (seq 0 (S n)) 0%nat)
      by (now rewrite Hcomp).
    unfold compose in E1.
    rewrite (nth_map_in (fun j => nth j sigma 0%nat) tau i 0%nat 0%nat) in E1 by lia.
    now rewrite seq_nth in E1 by lia. }
  assert (Hzero : assignment_cost E tau = 0).
  { unfold assignment_cost. apply sum_zeros. intros [i t] Hin.
    destruct (in_combine_seq tau 0%nat 0%nat i t Hin) as [Hi Ht]. cbn [fst snd].
    rewrite Nat.sub_0_r in Ht. subst t.
    apply Hentry; [lia | | apply Hinv; lia].
    rewrite Forall_forall in HBt. apply HBt. apply nth_In. lia. }
  assert (Hnn : forall p, In p (combine (seq 0 (length c)) c) ->
                          0 <= toR (entry E (fst p) (snd p))).
  { intros [i t] Hin. destruct (in_combine_seq c 0%nat 0%nat i t Hin) as [Hi _].
    apply in_combine_r in Hin. rewrite Forall_forall in HBc. cbn [fst snd].
    apply Hentry; [lia | auto]. }
  assert (Hc0 : assignment_cost E c = 0).
  { pose proof (Hopt tau Htau) as Hle. rewrite Hzero in Hle.
    assert (Hge : 0 <= assignment_cost E c).
    { unfold assignment_cost. revert Hnn. generalize (combine (seq 0 (length c)) c).
      induction l as [|p l IHl]; intros Hl; simpl; [lra|].
      assert (0 <= toR (entry E (fst p) (snd p))) by (apply Hl; left; auto).
      assert (0 <= fold_right Rplus 0 (map (fun p => toR (entry E (fst p) (snd p))) l))
        by (apply IHl; intros q Hq; apply Hl; right; auto).
      lra. }
    lra. }
  assert (Hmatch : forall i, (i < S n)%nat ->
            channel_mse (transpose_120 Y) ref i (nth i c 0%nat) = Fin 0 /\
            forall f, (f < S F)%nat ->
                      nth (nth i c 0%nat) (nth f (transpose_120 Y) []) []
                      = nth i (nth f ref []) []).
  { intros i Hi.
    assert (Hj : (nth i c 0 < S n)%nat).
    { rewrite Forall_forall in HBc. apply HBc. apply nth_In. lia. }
    apply Hentry; auto.
    unfold assignment_cost in Hc0.
    apply (sum_nonneg_zero (fun p => toR (entry E (fst p) (snd p))) _ Hnn Hc0
                           (i, nth i c 0%nat)).
    pose proof (combine_seq_nth c 0%nat 0%nat i) as Hin. simpl in Hin. apply Hin. lia. }
  exists c. split; auto. rewrite Hrun. f_equal. f_equal; [f_equal|].
  - apply fmean_all_zero; [discriminate|].
    apply Forall_forall. intros x Hx. apply in_map_iff in Hx.
    destruct Hx as [i [<- Hi]]. apply in_seq in Hi. apply Hmatch. lia.
  - apply (tensor_rows_ext (S F) (S n) (S T)); auto.
    + pose proof (take_rows_shape c (transpose_120 Y) (S F) (S n) (S T) Hhat HBc) as H.
      now rewrite HLc in H.
    + intros f r Hf Hr.
      assert (HLhat : length (transpose_120 Y) = S F) by apply Hhat.
      rewrite take_rows_row by lia. now apply Hmatch.
Qed.

Lemma separation_error_recovers_reordered_reference_witness :
  exists c,
    Permutation c (seq 0 2) /\
    separation_error keep_scale est2 ref2 ref2 0 = Done (Fin 0, c, ref2).
Proof.
  apply (separation_error_recovers_reordered_reference keep_scale est2 ref2 ref2
           (transpose_201 est2) 0%Z 0%nat 1 2 2 [1; 0]%nat).
  - lia.
  - lia.
  - lia.
  - reflexivity.
  - reflexivity.
  - repeat constructor.
  - apply perm_swap.
  - exact est2_hat.
Defined.
